(** * bool-expression-parser: a shallow embedding of the evaluation pipeline

    The development follows [src/bool_parser/bool_parser.py] (lexer,
    sub-expression resolver, precedence matcher, evaluator) and
    [src/parser/utils/parser.py] (the combinator utility).

    Python strings are modelled as [string] (sequences of [ascii]
    characters), Python [dict]s with string keys as [gmap string _],
    list indices and slice bounds as [Z] (slices clamp and accept
    negative bounds as Python does), raised exceptions as the [Raise]
    constructor of [Outcome].  Numbers are exact rationals: no property
    below depends on arithmetic. *)

From Stdlib Require Import ZArith QArith Lia Ascii String.
From stdpp Require Import base strings list gmap.

Set Warnings "-register-all".

Local Open Scope string_scope.
Local Open Scope list_scope.
Local Open Scope Z_scope.

(** ** Data model *)

(** [ReturnTypes] of [bool_parser.expressions.models]: the semantic type
    an expression yields. *)
Inductive ReturnTypes : Type := BOOLEAN | NUMERIC.

#[global] Instance ReturnTypes_eq_dec : EqDecision ReturnTypes.
Proof. solve_decision. Defined.

(** Values held by the symbol table and produced by evaluation. *)
Inductive Value : Type :=
| VBool (b : bool)
| VNum (n : Q).

Definition is_boolean (v : Value) : bool :=
  match v with VBool _ => true | VNum _ => false end.

(** [SymbolTableType]: the caller's mapping from names to values. *)
Abbreviation SymbolTableType := (gmap string Value).

(** One requirement of an [expects] pattern: a specific operator symbol,
    or "the next element has return type T". *)
Inductive Expect : Type :=
| ExpectOp (symbol : string)
| ExpectType (r : ReturnTypes).

#[global] Instance Expect_eq_dec : EqDecision Expect.
Proof. solve_decision. Defined.

(** The exceptions of a call.  [InvalidExpression] carries the residual
    working sequence, which the source formats into its message; the
    sequence is kept abstract here as the type parameter [I]. *)
Inductive Error (I : Type) : Type :=
| InvalidCharacter
| MissingLeftParanthesis
| MissingRightParanthesis
| MatchError
| InvalidExpression (residual : list I)
| KeyError (key : string)
| ValueError
| TypeError
| IndexError
| AttributeError.

Arguments InvalidCharacter {I}.
Arguments MissingLeftParanthesis {I}.
Arguments MissingRightParanthesis {I}.
Arguments MatchError {I}.
Arguments InvalidExpression {I} residual.
Arguments KeyError {I} key.
Arguments ValueError {I}.
Arguments TypeError {I}.
Arguments IndexError {I}.
Arguments AttributeError {I}.

(** The result of running a piece of the pipeline: a returned value, a
    raised exception, or [Diverge] when the loop budget of the model is
    used up (the source loops have no bound of their own). *)
Inductive Outcome (I A : Type) : Type :=
| Return (a : A)
| Raise (e : Error I)
| Diverge.

Arguments Return {I A} a.
Arguments Raise {I A} e.
Arguments Diverge {I A}.

Definition bind {I A B} (m : Outcome I A) (k : A -> Outcome I B) : Outcome I B :=
  match m with
  | Return a => k a
  | Raise e => Raise e
  | Diverge => Diverge
  end.

Notation "'let*' x ':=' m 'in' k" := (bind m (fun x => k))
  (at level 10, x name, m at level 100, k at level 200).
Notation "'let*' ' p ':=' m 'in' k" := (bind m (fun p => k))
  (at level 10, p strict pattern, m at level 100, k at level 200).

(** A catalog class of [models.py] (an [Expression] subclass registered
    in [TOKEN_TO_CLASS]): its class-level [expects] and [returns], and
    what [operation] computes from the values of its operands. *)
Record ExprClass (I : Type) : Type := {
  class_name : string;
  expects : list Expect;
  returns : ReturnTypes;
  semantics : list Value -> Outcome I Value
}.

Arguments class_name {I} _.
Arguments expects {I} _.
Arguments returns {I} _.
Arguments semantics {I} _ _.

(** [ParseItem = Union[Token, Expression]].  The literals and
    [Identifier] are both tokens and leaf expressions; [Compound] is an
    instance [expr_type(targets)] of a catalog class.  [Identifier]
    stores the symbol table it was given, as the source constructor call
    [Identifier(token_str, symbol_table)] passes it. *)
Inductive ParseItem : Type :=
| LeftParanthesis
| RightParanthesis
| Operator (operator : string)
| BooleanLiteral (text : string)
| NumericLiteral (text : string)
| Identifier (name : string) (symbol_table : SymbolTableType)
| Compound (cls : ExprClass ParseItem) (targets : list ParseItem).

Abbreviation Err := (Error ParseItem).
Abbreviation Out := (Outcome ParseItem).
Abbreviation Class := (ExprClass ParseItem).

(** [isinstance(item, Expression)]. *)
Definition is_Expression (item : ParseItem) : bool :=
  match item with
  | BooleanLiteral _ | NumericLiteral _ | Identifier _ _ | Compound _ _ => true
  | _ => false
  end.

(** [isinstance(item, Operator)]. *)
Definition is_Operator (item : ParseItem) : bool :=
  match item with Operator _ => true | _ => false end.

Definition is_parenthesis (item : ParseItem) : bool :=
  match item with LeftParanthesis | RightParanthesis => true | _ => false end.

(** The configuration the engine imports and does not own:
    [TOKEN_TO_CLASS] (operator symbol to class), the tiers
    [rules.order_of_operations], the two [allows] class methods, the
    values of the literals, and the [returns] of an [Identifier], which
    is read off an object that holds a name and the symbol table. *)
Record Catalog : Type := {
  TOKEN_TO_CLASS : gmap string Class;
  order_of_operations : list (list Class);
  BooleanLiteral_allows : string -> bool;
  NumericLiteral_allows : string -> bool;
  BooleanLiteral_value : string -> Out Value;
  NumericLiteral_value : string -> Out Value;
  Identifier_returns : string -> SymbolTableType -> ReturnTypes
}.

(** ** Character sets (module level of [bool_parser.py]) *)

Definition chars (s : string) : list ascii := list_ascii_of_string s.

Definition char_in (c : ascii) (s : string) : bool :=
  bool_decide (c ∈ chars s).

Definition ascii_letters : string :=
  "abcdefghijklmnopqrstuvwxyzABCDEFGHIJKLMNOPQRSTUVWXYZ".
Definition digits : string := "0123456789".

(** Modelled from the spec: the keys of [PARANTHESES_TO_CLASS], which is
    declared in [models.py]; the two parenthesis characters. *)
Definition parantheses (c : ascii) : bool := char_in c "()".

(** Modelled from the spec: [PARANTHESES_TO_CLASS[c]()], declared in
    [models.py]. *)
Definition PARANTHESES_TO_CLASS (c : ascii) : ParseItem :=
  if bool_decide (c = "("%char) then LeftParanthesis else RightParanthesis.

Definition variable_symbols (c : ascii) : bool :=
  char_in c (ascii_letters ++ digits ++ "_.").
Definition boolean_literal_symbols (c : ascii) : bool := char_in c "TrueFalse".
Definition numeric_literal_symbols (c : ascii) : bool := char_in c (digits ++ ".").

Section Engine.

Variable cat : Catalog.

(** [sym in TOKEN_TO_CLASS.keys()]. *)
Definition is_op_symbol (sym : list ascii) : bool :=
  bool_decide (is_Some (TOKEN_TO_CLASS cat !! string_of_list_ascii sym)).

Definition operation_symbols (c : ascii) : bool := is_op_symbol [c].

(** [c in language], for a one-character string [c]. *)
Definition language (c : ascii) : bool :=
  parantheses c || boolean_literal_symbols c || operation_symbols c
  || variable_symbols c.

(** ** Lexer: [_tokenize] *)

(** [s.replace(" ", "")]. *)
Definition remove_whitespace (s : list ascii) : list ascii :=
  filter (fun c => c ≠ " "%char) s.

(** [_match_op_symbol]: the loop extends the candidate [s[ptr:ptr+extend]]
    (here [taken]) by one character while the longer slice is a key of
    [TOKEN_TO_CLASS]; [rest] is [s[ptr+extend:]]. *)
Fixpoint _match_op_symbol (taken rest : list ascii) : list ascii * list ascii :=
  match rest with
  | [] => (taken, rest)
  | c :: rest' =>
      if is_op_symbol (taken ++ [c])
      then _match_op_symbol (taken ++ [c]) rest'
      else (taken, rest)
  end.

(** The first loop of [_match_literal_or_var]: the maximal run of
    characters of [allowed_symbols] from [ptr]. *)
Fixpoint literal_run (allowed : ascii -> bool) (s : list ascii)
  : list ascii * list ascii :=
  match s with
  | [] => ([], [])
  | c :: s' =>
      if allowed c
      then let '(run, rest) := literal_run allowed s' in (c :: run, rest)
      else ([], s)
  end.

(** [_match_literal_or_var]: the run, then the check of the character
    that stopped it. *)
Definition _match_literal_or_var (allowed : ascii -> bool) (s : list ascii)
  : Out (list ascii * list ascii) :=
  let '(run, rest) := literal_run allowed s in
  match rest with
  | c :: _ => if language c then Return (run, rest) else Raise InvalidCharacter
  | [] => Return (run, rest)
  end.

Definition allowed_symbols (c : ascii) : bool :=
  numeric_literal_symbols c || boolean_literal_symbols c || variable_symbols c.

(** The classification of the text of a run. *)
Definition classify (token_str : string) (symbol_table : SymbolTableType)
  : ParseItem :=
  if BooleanLiteral_allows cat token_str then BooleanLiteral token_str
  else if NumericLiteral_allows cat token_str then NumericLiteral token_str
  else Identifier token_str symbol_table.

(** The main loop of [_tokenize] on [s[ptr:]].  Every iteration of the
    source loop moves [ptr] forward; [budget] counts iterations. *)
Fixpoint tokenize_loop (budget : nat) (s : list ascii)
    (symbol_table : SymbolTableType) (tokens : list ParseItem)
  : Out (list ParseItem) :=
  match s with
  | [] => Return tokens
  | c :: s' =>
      match budget with
      | O => Diverge
      | S budget' =>
          if negb (language c) then Raise InvalidCharacter
          else if parantheses c then
            tokenize_loop budget' s' symbol_table
              (tokens ++ [PARANTHESES_TO_CLASS c])
          else if operation_symbols c then
            let '(sym, rest) := _match_op_symbol [] s in
            tokenize_loop budget' rest symbol_table
              (tokens ++ [Operator (string_of_list_ascii sym)])
          else
            let* '(run, rest) := _match_literal_or_var allowed_symbols s in
            tokenize_loop budget' rest symbol_table
              (tokens ++ [classify (string_of_list_ascii run) symbol_table])
      end
  end.

Definition _tokenize (s : string) (symbol_table : SymbolTableType)
  : Out (list ParseItem) :=
  let s := remove_whitespace (chars s) in
  tokenize_loop (length s) s symbol_table [].

(** ** Python slices *)

(** A slice bound as Python normalises it: a negative bound counts from
    the end, and the result is clamped to [0, len]. *)
Definition slice_bound {A} (l : list A) (i : Z) : nat :=
  let n := Z.of_nat (length l) in
  Z.to_nat (Z.min n (Z.max 0 (if i <? 0 then i + n else i))).

(** [l[i:j]]. *)
Definition py_slice {A} (l : list A) (i j : Z) : list A :=
  let a := slice_bound l i in
  let b := slice_bound l j in
  take (b - a)%nat (drop a l).

(** ** Sub-expression resolver: [_get_subexpressions] *)

(** The loop of [_get_subexpressions] from index [i] on [tokens[i:]].
    The Python stack grows at its end; here its top is the head. *)
Fixpoint scan_parentheses (tokens : list ParseItem) (i : Z)
    (sub_exps : list (Z * Z)) (stack : list Z) : Out (list (Z * Z)) :=
  match tokens with
  | [] =>
      match stack with
      | [] => Return sub_exps
      | _ :: _ => Raise MissingRightParanthesis
      end
  | tok :: rest =>
      match tok with
      | LeftParanthesis => scan_parentheses rest (i + 1) sub_exps (i :: stack)
      | RightParanthesis =>
          match stack with
          | [] => Raise MissingLeftParanthesis
          | start_idx :: stack' =>
              scan_parentheses rest (i + 1)
                (match stack' with
                 | [] => sub_exps ++ [(start_idx, i)]
                 | _ :: _ => sub_exps
                 end)
                stack'
          end
      | _ => scan_parentheses rest (i + 1) sub_exps stack
      end
  end.

Definition _get_subexpressions (tokens : list ParseItem) : Out (list (Z * Z)) :=
  scan_parentheses tokens 0 [] [].

(** ** Precedence matcher: [_match] *)

(** [TrieNode]; [children] is a Python dict, kept in insertion order. *)
Inductive TrieNode : Type :=
| mkTrieNode (value : option Expect) (children : list (Expect * TrieNode))
    (is_end : bool).

Definition children (n : TrieNode) : list (Expect * TrieNode) :=
  match n with mkTrieNode _ c _ => c end.
Definition is_end (n : TrieNode) : bool :=
  match n with mkTrieNode _ _ e => e end.

(** [d.get(k)] on a dict held as an association list. *)
Fixpoint dict_get {V} (k : Expect) (d : list (Expect * V)) : option V :=
  match d with
  | [] => None
  | (k', v) :: d' => if decide (k = k') then Some v else dict_get k d'
  end.

(** [d[k] = v]: in place when the key is present, appended otherwise. *)
Fixpoint dict_set {V} (k : Expect) (v : V) (d : list (Expect * V))
  : list (Expect * V) :=
  match d with
  | [] => [(k, v)]
  | (k', v') :: d' =>
      if decide (k = k') then (k', v) :: d' else (k', v') :: dict_set k v d'
  end.

(** The inner loop of [_build_trie] for one [expects] list, from
    [cur_node]; the last node reached gets [is_end = True]. *)
Fixpoint trie_insert (m_list : list Expect) (cur_node : TrieNode) : TrieNode :=
  match cur_node with
  | mkTrieNode value children is_end =>
      match m_list with
      | [] => mkTrieNode value children true
      | match_item :: m_list' =>
          let child :=
            match dict_get match_item children with
            | Some child => child
            | None => mkTrieNode (Some match_item) [] false
            end in
          mkTrieNode value
            (dict_set match_item (trie_insert m_list' child) children) is_end
      end
  end.

(** [_build_trie]; the set [to_match] is listed in the order in which
    the source iterates over it. *)
Definition _build_trie (to_match : list Class) : TrieNode :=
  foldl (fun root expression => trie_insert (expects expression) root)
    (mkTrieNode None [] false) to_match.

(** Modelled from the spec: the [returns] attribute of the leaf classes,
    declared in [models.py]: a literal yields the type of its kind, an
    identifier what [Identifier_returns] makes of the name and the table
    the object holds; a [Compound] yields the [returns] of its catalog
    class. *)
Definition item_returns (item : ParseItem) : ReturnTypes :=
  match item with
  | BooleanLiteral _ => BOOLEAN
  | NumericLiteral _ => NUMERIC
  | Identifier name symbol_table => Identifier_returns cat name symbol_table
  | Compound cls _ => returns cls
  | _ => BOOLEAN
  end.

(** [item_matcher]: the [returns] of an expression, else the token
    itself.  An [Operator] token equals the operator key of its symbol;
    a parenthesis token equals no key of a pattern. *)
Definition item_matcher (cur_item : ParseItem) : option Expect :=
  if is_Expression cur_item then Some (ExpectType (item_returns cur_item))
  else match cur_item with
       | Operator symbol => Some (ExpectOp symbol)
       | _ => None
       end.

(** [is_match], on [to_parse[cur_idx:]].  [Return None] is the source's
    [(False, None, None)]: a key absent from [children], or the
    [IndexError] of running off the sequence. *)
Fixpoint is_match (cur_node : TrieNode) (items : list ParseItem)
    (targets : list ParseItem) (expr_type : option Class)
  : Out (option (list ParseItem * Class)) :=
  if is_end cur_node then
    match expr_type with
    | None => Raise MatchError
    | Some cls => Return (Some (targets, cls))
    end
  else
    match items with
    | [] => Return None
    | cur_item :: items' =>
        match item_matcher cur_item ≫= (fun k => dict_get k (children cur_node)) with
        | None => Return None
        | Some child =>
            match cur_item with
            | Operator symbol =>
                match TOKEN_TO_CLASS cat !! symbol with
                | Some cls => is_match child items' targets (Some cls)
                | None => Raise (KeyError symbol)
                end
            | _ => is_match child items' (targets ++ [cur_item]) expr_type
            end
        end
    end.

(** The scan of [_match] over the start positions [i, i+1, ...] of
    [to_parse[i:]]: the first match gives
    [(i, i + len(expr_type.expects), expr_type(targets))]. *)
Fixpoint match_from (trie : TrieNode) (items : list ParseItem) (i : nat)
  : Out (option (nat * nat * ParseItem)) :=
  match items with
  | [] => Return None
  | _ :: items' =>
      let* r := is_match trie items [] None in
      match r with
      | Some (targets, expr_type) =>
          Return (Some (i, (i + length (expects expr_type))%nat,
                        Compound expr_type targets))
      | None => match_from trie items' (S i)
      end
  end.

Definition _match (to_parse : list ParseItem) (to_match : list Class)
  : Out (option (nat * nat * ParseItem)) :=
  match_from (_build_trie to_match) to_parse 0%nat.

(** The [while matched] loop of one tier. *)
Fixpoint fold_tier (budget : nat) (to_parse : list ParseItem)
    (expressions : list Class) : Out (list ParseItem) :=
  match budget with
  | O => Diverge
  | S budget' =>
      let* m := _match to_parse expressions in
      match m with
      | None => Return to_parse
      | Some (match_idx, end_idx, expr) =>
          fold_tier budget'
            (take match_idx to_parse ++ [expr] ++ drop end_idx to_parse)
            expressions
      end
  end.

(** The [for expressions in rules.order_of_operations] loop. *)
Fixpoint fold_tiers (budget : nat) (to_parse : list ParseItem)
    (tiers : list (list Class)) : Out (list ParseItem) :=
  match tiers with
  | [] => Return to_parse
  | expressions :: tiers' =>
      let* to_parse' := fold_tier budget to_parse expressions in
      fold_tiers budget to_parse' tiers'
  end.

(** The check at the end of [_build_ast]. *)
Definition end_of_parse (to_parse : list ParseItem) : Out ParseItem :=
  match to_parse with
  | [e] => if is_Expression e then Return e
           else Raise (InvalidExpression to_parse)
  | _ => Raise (InvalidExpression to_parse)
  end.

(** Step 1 of [_build_ast]: the loop over [sub_exps]. *)
Fixpoint splice (recurse : list ParseItem -> Out ParseItem)
    (tokens : list ParseItem) (sub_exps : list (Z * Z)) (i : Z)
    (to_parse : list ParseItem) : Out (list ParseItem) :=
  match sub_exps with
  | [] => Return to_parse
  | sub_exp :: sub_exps' =>
      let to_parse := to_parse ++ py_slice tokens i (fst sub_exp) in
      let sublist := py_slice tokens (fst sub_exp + 1) (snd sub_exp) in
      match sublist with
      | [] => splice recurse tokens sub_exps' (snd sub_exp + 1) to_parse
      | _ :: _ =>
          let* e := recurse sublist in
          splice recurse tokens sub_exps' (snd sub_exp + 1) (to_parse ++ [e])
      end
  end.

(** Step 1 as a whole: the sequence handed to the precedence matcher. *)
Definition resolve (recurse : list ParseItem -> Out ParseItem)
    (tokens : list ParseItem) : Out (list ParseItem) :=
  let* found := _get_subexpressions tokens in
  let n := Z.of_nat (length tokens) in
  splice recurse tokens ([(-2, -1)] ++ found ++ [(n, n + 1)]) (-2) [].

(** [_build_ast].  [budget] bounds the nesting of the recursion and the
    iterations of each [while matched] loop. *)
Fixpoint _build_ast (budget : nat) (tokens : list ParseItem)
    (symbol_table : SymbolTableType) : Out ParseItem :=
  match budget with
  | O => Diverge
  | S budget' =>
      let recurse := fun sublist => _build_ast budget' sublist symbol_table in
      let* to_parse := resolve recurse tokens in
      let* to_parse := fold_tiers budget' to_parse (order_of_operations cat) in
      end_of_parse to_parse
  end.

(** ** Evaluator *)

(** Modelled from the spec: [operation()], declared per class in
    [models.py]: an identifier looks its name up in the table it holds,
    a literal yields the value of its text, a catalog expression first
    evaluates its operands in order and then applies its semantics. *)
Fixpoint operation (e : ParseItem) : Out Value :=
  match e with
  | BooleanLiteral text => BooleanLiteral_value cat text
  | NumericLiteral text => NumericLiteral_value cat text
  | Identifier name symbol_table =>
      match symbol_table !! name with
      | Some v => Return v
      | None => Raise (KeyError name)
      end
  | Compound cls targets =>
      let* vs :=
        (fix operands (ts : list ParseItem) : Out (list Value) :=
           match ts with
           | [] => Return []
           | t :: ts' =>
               let* v := operation t in
               let* vs := operands ts' in
               Return (v :: vs)
           end) targets in
      semantics cls vs
  | _ => Raise AttributeError
  end.

Definition _evaluate_ast (_ast : ParseItem) : Out Value := operation _ast.

(** The parsing half of [eval_expression]. *)
Definition parse (budget : nat) (input : string) (symbol_table : SymbolTableType)
  : Out ParseItem :=
  let* tokens := _tokenize input symbol_table in
  _build_ast budget tokens symbol_table.

Definition eval_expression (budget : nat) (input : string)
    (symbol_table : SymbolTableType) : Out Value :=
  let* tokens := _tokenize input symbol_table in
  let* ast := _build_ast budget tokens symbol_table in
  _evaluate_ast ast.

End Engine.

(** ** The catalog of the specification *)

(** Modelled from the spec: [BooleanLiteral.allows], declared in
    [models.py]: exactly the texts "True" and "False". *)
Definition spec_boolean_allows (token_str : string) : bool :=
  bool_decide (token_str = "True") || bool_decide (token_str = "False").

(** Modelled from the spec: [NumericLiteral.allows], declared in
    [models.py]: digits and at most one decimal point. *)
Definition spec_numeric_allows (token_str : string) : bool :=
  forallb numeric_literal_symbols (chars token_str)
  && bool_decide (length (filter (fun c => c = "."%char) (chars token_str)) ≤ 1)%nat.

(** Modelled from the spec: the value of a boolean literal, computed in
    [models.py]. *)
Definition spec_boolean_value (text : string) : Out Value :=
  Return (VBool (bool_decide (text = "True"))).

(** The value of a decimal digit. *)
Definition digit_value (c : ascii) : option Z :=
  let n := Z.of_nat (nat_of_ascii c) in
  if (48 <=? n) && (n <=? 57) then Some (n - 48) else None.

(** The decimal notation [cs] read as a rational. *)
Fixpoint decimal (cs : list ascii) (mantissa : Z) (scale : positive)
    (seen_point : bool) : option Q :=
  match cs with
  | [] => Some (mantissa # scale)
  | c :: cs' =>
      if bool_decide (c = "."%char) then
        if seen_point then None else decimal cs' mantissa scale true
      else
        match digit_value c with
        | Some d =>
            decimal cs' (10 * mantissa + d)
              (if seen_point then (10 * scale)%positive else scale) seen_point
        | None => None
        end
  end.

(** Modelled from the spec: the value of a numeric literal, computed in
    [models.py]: the number its text denotes; a text with no digit
    denotes none. *)
Definition spec_numeric_value (text : string) : Out Value :=
  if existsb (fun c => bool_decide (is_Some (digit_value c))) (chars text) then
    match decimal (chars text) 0 1 false with
    | Some q => Return (VNum q)
    | None => Raise ValueError
    end
  else Raise ValueError.

(** A binary operation on two boolean operands. *)
Definition on_booleans (f : bool -> bool -> bool) (vs : list Value) : Out Value :=
  match vs with
  | [VBool a; VBool b] => Return (VBool (f a b))
  | _ => Raise TypeError
  end.

(** Modelled from the spec: the expression classes of [models.py] that
    the testable properties name, with their operator symbols ("&", "|",
    "!", ">"), patterns and semantics. *)
Definition And : Class :=
  {| class_name := "And";
     expects := [ExpectType BOOLEAN; ExpectOp "&"; ExpectType BOOLEAN];
     returns := BOOLEAN;
     semantics := on_booleans andb |}.

Definition Or : Class :=
  {| class_name := "Or";
     expects := [ExpectType BOOLEAN; ExpectOp "|"; ExpectType BOOLEAN];
     returns := BOOLEAN;
     semantics := on_booleans orb |}.

Definition Not : Class :=
  {| class_name := "Not";
     expects := [ExpectOp "!"; ExpectType BOOLEAN];
     returns := BOOLEAN;
     semantics := fun vs =>
       match vs with
       | [VBool a] => Return (VBool (negb a))
       | _ => Raise TypeError
       end |}.

Definition GreaterThan : Class :=
  {| class_name := "GreaterThan";
     expects := [ExpectType NUMERIC; ExpectOp ">"; ExpectType NUMERIC];
     returns := BOOLEAN;
     semantics := fun vs =>
       match vs with
       | [VNum a; VNum b] => Return (VBool (negb (Qle_bool a b)))
       | _ => Raise TypeError
       end |}.

(** Modelled from the spec: the [returns] of an [Identifier], declared
    in [models.py].  The spec gives it through its examples: "x>3"
    parses when the table holds a number for [x], "A&B|C" when it holds
    booleans, and "A&B" parses when the table has no [B]: the type of
    the value the table holds for the name, boolean when it holds
    none. *)
Definition spec_identifier_returns (name : string)
    (symbol_table : SymbolTableType) : ReturnTypes :=
  match symbol_table !! name with
  | Some (VNum _) => NUMERIC
  | _ => BOOLEAN
  end.

(** Modelled from the spec: the catalog ([TOKEN_TO_CLASS] of [models.py]
    and [rules.order_of_operations] of [parser_config.py]), with the
    AND tier before the OR tier. *)
Definition spec_catalog : Catalog :=
  {| TOKEN_TO_CLASS :=
       <["&" := And]> (<["|" := Or]> (<["!" := Not]> (<[">" := GreaterThan]> ∅)));
     order_of_operations := [[Not]; [GreaterThan]; [And]; [Or]];
     BooleanLiteral_allows := spec_boolean_allows;
     NumericLiteral_allows := spec_numeric_allows;
     BooleanLiteral_value := spec_boolean_value;
     NumericLiteral_value := spec_numeric_value;
     Identifier_returns := spec_identifier_returns |}.

(** ** The combinator utility: [src/parser/utils/parser.py] *)

Module Combinators.

Section Combinators.

(** A token is a pair whose second component is a class [K]
    ([tokens[0][1]] in [is_type]); [isinstance] is Python's. *)
Context {X K E : Type}.
Variable isinstance : E -> K -> bool.

Abbreviation Token := (X * K)%type.

(** [Result], declared in [types/expressions.py]; a field a call leaves
    out is [None]. *)
Record Result (V : Type) : Type := mkResult {
  success : bool;
  value : option V;
  rest : option (list Token)
}.

Arguments mkResult {V} _ _ _.
Arguments success {V} _.
Arguments value {V} _.
Arguments rest {V} _.

Definition Combinator (V : Type) : Type :=
  list Token -> Outcome Token (Result V).

Definition is_type (expression : E) : Combinator (list Token) :=
  fun tokens =>
    match tokens with
    | [] => Raise IndexError
    | tok :: tokens' =>
        Return (mkResult (isinstance expression (snd tok)) (Some [tok])
                  (Some tokens'))
    end.

Fixpoint either {V} (combinators : list (Combinator V)) : Combinator V :=
  fun tokens =>
    match combinators with
    | [] => Return (mkResult false None None)
    | combinator :: combinators' =>
        let* result := combinator tokens in
        if success result then Return result else either combinators' tokens
    end.

(** The loop of [sequence]: [rest] and [value] are the loop's variables;
    every combinator is called on [tokens]. *)
Fixpoint sequence_loop {V} (combinators : list (Combinator V))
    (tokens : list Token) (rest_ : option (list Token))
    (value_ : list (option V)) : Outcome Token (Result (list (option V))) :=
  match combinators with
  | [] => Return (mkResult true (Some value_) rest_)
  | combinator :: combinators' =>
      let* result := combinator tokens in
      if success result
      then sequence_loop combinators' tokens (rest result)
             (value_ ++ [value result])
      else Return (mkResult false None None)
  end.

Definition sequence {V} (combinators : list (Combinator V))
  : Combinator (list (option V)) :=
  fun tokens => sequence_loop combinators tokens (Some tokens) [].

(** What a [sequence] that handed each combinator the remainder of the
    previous one would compute; used only for comparison. *)
Fixpoint threaded_loop {V} (combinators : list (Combinator V))
    (rest_ : option (list Token)) (value_ : list (option V))
  : Outcome Token (Result (list (option V))) :=
  match combinators with
  | [] => Return (mkResult true (Some value_) rest_)
  | combinator :: combinators' =>
      let* result := combinator (default [] rest_) in
      if success result
      then threaded_loop combinators' (rest result) (value_ ++ [value result])
      else Return (mkResult false None None)
  end.

End Combinators.

Arguments mkResult {X K V} _ _ _.
Arguments success {X K V} _.
Arguments value {X K V} _.
Arguments rest {X K V} _.

End Combinators.

(** * Notions used to state the properties *)

(** An outcome that is a result or an exception, not an exhausted budget. *)
Definition settled {I A} (m : Outcome I A) : Prop := m <> Diverge.

(** ** Walks of the trie *)

(** [walks cat n path n']: starting at node [n], none of the nodes left
    behind being terminal, the elements of [path] are consumed one after
    the other, each through the child its [item_matcher] selects, and the
    walk stands at [n']. *)
Inductive walks (cat : Catalog) : TrieNode -> list ParseItem -> TrieNode -> Prop :=
| walks_here n : walks cat n [] n
| walks_step n item k child path n' :
    is_end n = false ->
    item_matcher cat item = Some k ->
    dict_get k (children n) = Some child ->
    walks cat child path n' ->
    walks cat n (item :: path) n'.

(** The symbol of the last [Operator] token of a path, if any. *)
Definition last_operator (path : list ParseItem) : option string :=
  foldl (fun acc item =>
           match item with Operator symbol => Some symbol | _ => acc end)
    None path.

(** The elements of a path that are not [Operator] tokens, in order. *)
Definition operands (path : list ParseItem) : list ParseItem :=
  filter (fun item => is_Operator item = false) path.

(** The class the walk holds after [path], when it held [expr_type]
    before. *)
Definition class_after (cat : Catalog) (expr_type : option Class)
    (path : list ParseItem) : option Class :=
  foldl (fun acc item =>
           match item with
           | Operator symbol => TOKEN_TO_CLASS cat !! symbol
           | _ => acc
           end) expr_type path.

(** Every [Operator] token of the path is a key of [TOKEN_TO_CLASS]. *)
Definition registered (cat : Catalog) (item : ParseItem) : Prop :=
  match item with
  | Operator symbol => is_Some (TOKEN_TO_CLASS cat !! symbol)
  | _ => True
  end.

(** What the scan of [_match] gives at start position [i] when a pattern
    is completed over [path]: [MatchError] without an operator on the
    path, else the class of the operator consumed last, on the operands
    of the path, for the span from [i]. *)
Definition match_result (cat : Catalog) (path : list ParseItem) (i : nat)
    (r : Out (option (nat * nat * ParseItem))) : Prop :=
  match last_operator path with
  | None => r = Raise MatchError
  | Some symbol =>
      exists cls,
        TOKEN_TO_CLASS cat !! symbol = Some cls
        /\ r = Return (Some (i, (i + length (expects cls))%nat,
                             Compound cls (operands path)))
  end.

(** The node reached from [n] along the keys [ks]. *)
Fixpoint trie_find (n : TrieNode) (ks : list Expect) : option TrieNode :=
  match ks with
  | [] => Some n
  | k :: ks' =>
      match dict_get k (children n) with
      | Some child => trie_find child ks'
      | None => None
      end
  end.

(** [ks] is a complete pattern of the trie [n]. *)
Definition complete (n : TrieNode) (ks : list Expect) : Prop :=
  exists n', trie_find n ks = Some n' /\ is_end n' = true.

(** The elements of [path] have the keys [ks]. *)
Definition keyed (cat : Catalog) (path : list ParseItem) (ks : list Expect)
  : Prop :=
  Forall2 (fun item k => item_matcher cat item = Some k) path ks.

(** No pattern of the tier is a proper prefix of [ks]. *)
Definition prefix_free (to_match : list Class) (ks : list Expect) : Prop :=
  forall cls ks', cls ∈ to_match -> ks = expects cls ++ ks' -> ks' = [].

(** A class whose pattern holds no operator: the catalog defect that
    [MatchError] reports.  It is used as an example only. *)
Definition Bare : Class :=
  {| class_name := "Bare";
     expects := [ExpectType BOOLEAN];
     returns := BOOLEAN;
     semantics := fun _ => Raise TypeError |}.

(** ** Parenthesis depth *)

Definition paren_delta (tok : ParseItem) : Z :=
  match tok with
  | LeftParanthesis => 1
  | RightParanthesis => -1
  | _ => 0
  end.

(** Left parentheses minus right parentheses. *)
Fixpoint depth (tokens : list ParseItem) : Z :=
  match tokens with
  | [] => 0
  | tok :: tokens' => paren_delta tok + depth tokens'
  end.

(** ** The alphabet of a catalog *)

(** Every character of every registered operator symbol is a character
    of [language]. *)
Definition operator_characters_in_language (cat : Catalog) : Prop :=
  forall sym c, is_op_symbol cat sym = true -> c ∈ sym -> language cat c = true.

(** ** Replacing the symbol table held by identifiers *)

(** [retable t item]: [item] with table [t] in every [Identifier]. *)
Fixpoint retable (t : SymbolTableType) (item : ParseItem) : ParseItem :=
  match item with
  | Identifier name _ => Identifier name t
  | Compound cls targets => Compound cls (retable t <$> targets)
  | _ => item
  end.

Definition retable_error (t : SymbolTableType) (e : Err) : Err :=
  match e with
  | InvalidExpression residual => InvalidExpression (retable t <$> residual)
  | _ => e
  end.

(** An outcome with its result mapped by [f] and the residual of an
    [InvalidExpression] retabled. *)
Definition retable_outcome {A} (t : SymbolTableType) (f : A -> A) (m : Out A)
  : Out A :=
  match m with
  | Return a => Return (f a)
  | Raise e => Raise (retable_error t e)
  | Diverge => Diverge
  end.

Definition retable_match (t : SymbolTableType)
    (m : option (nat * nat * ParseItem)) : option (nat * nat * ParseItem) :=
  option_map (fun '(i, j, e) => (i, j, retable t e)) m.

(** Replacing the table by [t] leaves the [returns] of [item] as it
    was: a condition on identifiers alone. *)
Definition returns_kept (cat : Catalog) (t : SymbolTableType)
    (item : ParseItem) : Prop :=
  item_returns cat (retable t item) = item_returns cat item.

(** The exceptions the parsing half may raise: the five declared kinds. *)
Definition parse_error (e : Err) : Prop :=
  match e with
  | InvalidCharacter | MissingLeftParanthesis | MissingRightParanthesis
  | MatchError | InvalidExpression _ => True
  | _ => False
  end.

(** What the callers of a parsing function rely on: an exception is of
    a declared kind, a result is an [Expression]. *)
Definition parses_well (m : Out ParseItem) : Prop :=
  match m with
  | Return e => is_Expression e = true
  | Raise e => parse_error e
  | Diverge => True
  end.

(** ** Balanced sequences and their outermost groups *)

(** A balanced token sequence: empty, a token that is no parenthesis
    before a balanced sequence, or a parenthesised balanced sequence
    before a balanced sequence. *)
Inductive balanced : list ParseItem -> Prop :=
| balanced_nil : balanced []
| balanced_token tok l :
    is_parenthesis tok = false -> balanced l -> balanced (tok :: l)
| balanced_group inner l :
    balanced inner -> balanced l ->
    balanced (LeftParanthesis :: inner ++ RightParanthesis :: l).

(** The sequence made of the outermost groups [gs], each a run [p] of
    tokens before the parenthesised [inner], and of the run [tail] after
    the last group. *)
Fixpoint flat (gs : list (list ParseItem * list ParseItem))
    (tail : list ParseItem) : list ParseItem :=
  match gs with
  | [] => tail
  | (p, inner) :: gs' =>
      p ++ LeftParanthesis :: inner ++ RightParanthesis :: flat gs' tail
  end.

Definition plain (l : list ParseItem) : Prop :=
  Forall (fun tok => is_parenthesis tok = false) l.

(** Runs hold no parenthesis and interiors are balanced. *)
Definition outermost (gs : list (list ParseItem * list ParseItem)) : Prop :=
  Forall (fun g => plain g.1 /\ balanced g.2) gs.

(** The index pairs of the parentheses of the groups [gs], the first
    run starting at index [i]. *)
Fixpoint spans (i : Z) (gs : list (list ParseItem * list ParseItem))
  : list (Z * Z) :=
  match gs with
  | [] => []
  | (p, inner) :: gs' =>
      let a := i + Z.of_nat (length p) in
      let b := a + 1 + Z.of_nat (length inner) in
      (a, b) :: spans (b + 1) gs'
  end.

(** The sequence handed to the precedence matcher, read off the groups:
    runs are copied, a group with an empty interior leaves nothing, any
    other group leaves the one expression [recurse] builds from its
    interior. *)
Fixpoint resolved (recurse : list ParseItem -> Out ParseItem)
    (gs : list (list ParseItem * list ParseItem)) (tail : list ParseItem)
  : Out (list ParseItem) :=
  match gs with
  | [] => Return tail
  | (p, inner) :: gs' =>
      match inner with
      | [] =>
          let* rest := resolved recurse gs' tail in
          Return (p ++ rest)
      | _ :: _ =>
          let* e := recurse inner in
          let* rest := resolved recurse gs' tail in
          Return (p ++ e :: rest)
      end
  end.

Definition flat_length (gs : list (list ParseItem * list ParseItem)) : Z :=
  Z.of_nat (length (flat gs [])).

(** [closes h l]: [l] closes [h] parentheses opened before it, and is
    balanced otherwise. *)
Fixpoint closes (h : nat) (l : list ParseItem) : Prop :=
  match h with
  | O => balanced l
  | S h' =>
      exists inner rest,
        l = inner ++ RightParanthesis :: rest /\ balanced inner /\ closes h' rest
  end.

(** The place between [l1] and [l2] lies directly inside a parenthesis
    pair with an empty interior. *)
Definition inside_empty_pair (l1 l2 : list ParseItem) : Prop :=
  exists a b, l1 = a ++ [LeftParanthesis] /\ l2 = RightParanthesis :: b.

(** ** Proof tactics *)

(** Lists written with their appends nested to the right. *)
Ltac reassociate :=
  repeat first [rewrite <- app_assoc | progress cbn [app flat]].

(** ** Notions for the further properties *)

(** The text a token was read from. *)
Definition token_text (tok : ParseItem) : list ascii :=
  match tok with
  | LeftParanthesis => ["("%char]
  | RightParanthesis => [")"%char]
  | Operator operator => chars operator
  | BooleanLiteral text => chars text
  | NumericLiteral text => chars text
  | Identifier name _ => chars name
  | Compound _ _ => []
  end.

(** [isinstance(item, Token)] for what the lexer emits: anything but an
    instance of a catalog class. *)
Definition is_lexical (tok : ParseItem) : bool :=
  match tok with Compound _ _ => false | _ => true end.

(** A catalog in which one operator symbol is a prefix of another; it is
    used as an example only. *)
Definition NotEqual : Class :=
  {| class_name := "NotEqual";
     expects := [ExpectType NUMERIC; ExpectOp "!="; ExpectType NUMERIC];
     returns := BOOLEAN;
     semantics := fun vs =>
       match vs with
       | [VNum a; VNum b] => Return (VBool (negb (Qeq_bool a b)))
       | _ => Raise TypeError
       end |}.

Definition overlapping_catalog : Catalog :=
  {| TOKEN_TO_CLASS := <["!=" := NotEqual]> (TOKEN_TO_CLASS spec_catalog);
     order_of_operations := [[Not]; [GreaterThan; NotEqual]; [And]; [Or]];
     BooleanLiteral_allows := spec_boolean_allows;
     NumericLiteral_allows := spec_numeric_allows;
     BooleanLiteral_value := spec_boolean_value;
     NumericLiteral_value := spec_numeric_value;
     Identifier_returns := spec_identifier_returns |}.

(** Index pairs in increasing order, none overlapping the next, from
    index [lo] on. *)
Fixpoint ascending (lo : Z) (pairs : list (Z * Z)) : Prop :=
  match pairs with
  | [] => True
  | (a, b) :: pairs' => lo <= a /\ a < b /\ ascending (b + 1) pairs'
  end.

(** The pair [ab] indexes a left and a right parenthesis of [tokens]
    with a balanced sequence between them. *)
Definition encloses (tokens : list ParseItem) (ab : Z * Z) : Prop :=
  ab.2 < Z.of_nat (length tokens)
  /\ tokens !! Z.to_nat ab.1 = Some LeftParanthesis
  /\ tokens !! Z.to_nat ab.2 = Some RightParanthesis
  /\ balanced (py_slice tokens (ab.1 + 1) ab.2).

(** What a walk can observe of a trie along the keys [ks]: whether a
    node is there, and whether it is terminal. *)
Definition trie_obs (n : TrieNode) (ks : list Expect) : option bool :=
  is_end <$> trie_find n ks.

(** [ks] is a prefix of the pattern [m]. *)
Fixpoint is_prefix (ks m : list Expect) : bool :=
  match ks, m with
  | [], _ => true
  | k :: ks', k0 :: m' => bool_decide (k = k0) && is_prefix ks' m'
  | _ :: _, [] => false
  end.

(** The observation along [ks] after the pattern [m] is inserted, from
    the observation [o] before. *)
Definition obs_after_insert (m : list Expect) (o : option bool)
    (ks : list Expect) : option bool :=
  if bool_decide (ks = m) then Some true
  else match o with
       | Some b => Some b
       | None => if is_prefix ks m then Some false else None
       end.

(** Two tries a walk cannot tell apart. *)
Definition trie_equiv (n n' : TrieNode) : Prop :=
  forall ks, trie_obs n ks = trie_obs n' ks.

(** Every pattern of the tiers, and of every registered class, has at
    least two requirements (an operator and an operand). *)
Definition patterns_fold (cat : Catalog) : Prop :=
  (forall tier cls,
     tier ∈ order_of_operations cat -> cls ∈ tier ->
     (2 <= length (expects cls))%nat)
  /\ (forall symbol cls,
        TOKEN_TO_CLASS cat !! symbol = Some cls ->
        (2 <= length (expects cls))%nat).

(** A combinator that returns a result without success on [tokens]. *)
Definition fails_on {X K V} (tokens : list (X * K))
    (combinator : Combinators.Combinator (X:=X) (K:=K) V) : Prop :=
  exists result,
    combinator tokens = Return result /\ Combinators.success result = false.

(** A token read from a run of name characters: a literal or an
    identifier. *)
Definition is_name (tok : ParseItem) : bool :=
  match tok with
  | BooleanLiteral _ | NumericLiteral _ | Identifier _ _ => true
  | _ => false
  end.

(** No two neighbours are both read from runs of name characters. *)
Fixpoint names_apart (tokens : list ParseItem) : Prop :=
  match tokens with
  | a :: (b :: _) as rest =>
      (is_name a = true -> is_name b = false) /\ names_apart rest
  | _ => True
  end.

(** An operand [e0] followed by operator and operand pairs; a step also
    names the class its operator folds into. *)
Fixpoint chain_tail (steps : list (string * Class * ParseItem))
  : list ParseItem :=
  match steps with
  | [] => []
  | (symbol, _, e) :: steps' => Operator symbol :: e :: chain_tail steps'
  end.

Definition chain (e0 : ParseItem) (steps : list (string * Class * ParseItem))
  : list ParseItem :=
  e0 :: chain_tail steps.

(** The chain folded from the left. *)
Definition left_nested (e0 : ParseItem)
    (steps : list (string * Class * ParseItem)) : ParseItem :=
  foldl (fun acc '(_, cls, e) => Compound cls [acc; e]) e0 steps.

(** A step of a chain over the type [a] in a tier: an infix operator of
    the tier between operands of type [a], giving type [a], and an
    operand of type [a]. *)
Definition infix_step (cat : Catalog) (tier : list Class) (a : ReturnTypes)
    (step : string * Class * ParseItem) : Prop :=
  let '(symbol, cls, e) := step in
  cls ∈ tier
  /\ expects cls = [ExpectType a; ExpectOp symbol; ExpectType a]
  /\ returns cls = a
  /\ TOKEN_TO_CLASS cat !! symbol = Some cls
  /\ is_Expression e = true
  /\ item_returns cat e = a.

(** The types a pattern asks of its operands, in order. *)
Fixpoint operand_types (ks : list Expect) : list ReturnTypes :=
  match ks with
  | [] => []
  | ExpectType r :: ks' => r :: operand_types ks'
  | ExpectOp _ :: ks' => operand_types ks'
  end.

(** The symbol of the last operator a pattern asks for. *)
Fixpoint pattern_operator (ks : list Expect) : option string :=
  match ks with
  | [] => None
  | k :: ks' =>
      match pattern_operator ks' with
      | Some symbol => Some symbol
      | None => match k with ExpectOp symbol => Some symbol | _ => None end
      end
  end.

(** An expression tree as the matcher builds it: a leaf is a literal or
    an identifier; an inner node is an instance of the class registered
    for the last operator of a pattern of some tier, on operands that
    are such trees and have, in number and in type, what the pattern
    asks. *)
Inductive well_formed (cat : Catalog) : ParseItem -> Prop :=
| well_formed_leaf item : is_name item = true -> well_formed cat item
| well_formed_node cls targets tier pattern_cls symbol :
    tier ∈ order_of_operations cat -> pattern_cls ∈ tier ->
    pattern_operator (expects pattern_cls) = Some symbol ->
    TOKEN_TO_CLASS cat !! symbol = Some cls ->
    map (item_returns cat) targets = operand_types (expects pattern_cls) ->
    Forall (well_formed cat) targets ->
    well_formed cat (Compound cls targets).

(** An element of a working sequence: a token, or a well-formed tree. *)
Definition sound (cat : Catalog) (item : ParseItem) : Prop :=
  is_Expression item = true -> well_formed cat item.

(** Every pattern of every tier asks for an operator. *)
Definition tiers_hold_operators (cat : Catalog) : Prop :=
  forall tier cls,
    tier ∈ order_of_operations cat -> cls ∈ tier ->
    is_Some (pattern_operator (expects cls)).

(** A step of a later tier together with the steps of an earlier tier
    that follow its operand. *)
Abbreviation Step := (string * Class * ParseItem)%type.

(** The steps of the groups, in order. *)
Definition ungroup (groups : list (Step * list Step)) : list Step :=
  concat (map (fun g => g.1 :: g.2) groups).

(** The step of a group once the steps after its operand are folded
    into it. *)
Definition regroup (g : Step * list Step) : Step :=
  let '((symbol, cls, e), steps) := g in (symbol, cls, left_nested e steps).

(** A group of a chain over the type [a]: an infix step of the tier
    [loose] whose operator occurs in no pattern of the tier [tight],
    followed by infix steps of [tight]. *)
Definition loose_group (cat : Catalog) (tight loose : list Class)
    (a : ReturnTypes) (g : Step * list Step) : Prop :=
  infix_step cat loose a g.1
  /\ (forall cls, cls ∈ tight -> ExpectOp g.1.1.1 ∉ expects cls)
  /\ Forall (infix_step cat tight a) g.2.

(** * Properties *)

(** ** The outcome monad *)

Lemma bind_Return {I A B} (a : A) (k : A -> Outcome I B) :
  bind (Return a) k = k a.
Proof. reflexivity. Qed.

Lemma bind_inv_Return {I A B} (m : Outcome I A) (k : A -> Outcome I B) b :
  bind m k = Return b -> exists a, m = Return a /\ k a = Return b.
Proof. destruct m; simpl; intros H; try discriminate; eauto. Qed.

Lemma bind_inv_Raise {I A B} (m : Outcome I A) (k : A -> Outcome I B) e :
  bind m k = Raise e ->
  m = Raise e \/ exists a, m = Return a /\ k a = Raise e.
Proof.
  destruct m; simpl; intros H; try discriminate; [right; eauto | left; congruence].
Qed.

Lemma settled_bind {I A B} (m : Outcome I A) (k : A -> Outcome I B) :
  settled (bind m k) -> settled m.
Proof. destruct m; simpl; unfold settled; congruence. Qed.

(** ** A larger budget never changes a settled outcome *)

Section Budget.

Variable cat : Catalog.

Lemma fold_tier_mono b b' to_parse expressions :
  (b <= b')%nat ->
  settled (fold_tier cat b to_parse expressions) ->
  fold_tier cat b' to_parse expressions = fold_tier cat b to_parse expressions.
Proof.
  revert b' to_parse. induction b as [|b IH]; intros b' to_parse Hle Hs.
  - exfalso. apply Hs. reflexivity.
  - destruct b' as [|b']; [lia|]. simpl in *.
    destruct (_match cat to_parse expressions) as [[[[m e] x]|]| |]; simpl in *;
      try reflexivity.
    apply IH; [lia | exact Hs].
Qed.

Lemma fold_tiers_mono b b' to_parse tiers :
  (b <= b')%nat ->
  settled (fold_tiers cat b to_parse tiers) ->
  fold_tiers cat b' to_parse tiers = fold_tiers cat b to_parse tiers.
Proof.
  intros Hle. revert to_parse. induction tiers as [|tier tiers IH];
    intros to_parse Hs; simpl in *; [reflexivity|].
  rewrite (fold_tier_mono b b') by (eauto using settled_bind).
  destruct (fold_tier cat b to_parse tier); simpl in *; try reflexivity.
  apply IH, Hs.
Qed.

Lemma splice_mono (recurse recurse' : list ParseItem -> Out ParseItem)
    tokens sub_exps i to_parse :
  (forall l, settled (recurse l) -> recurse' l = recurse l) ->
  settled (splice recurse tokens sub_exps i to_parse) ->
  splice recurse' tokens sub_exps i to_parse
  = splice recurse tokens sub_exps i to_parse.
Proof.
  intros Hrec. revert i to_parse.
  induction sub_exps as [|sub_exp sub_exps IH]; intros i to_parse Hs;
    simpl in *; [reflexivity|].
  destruct (py_slice tokens (sub_exp.1 + 1) (sub_exp.2)) as [|x sublist].
  - apply IH, Hs.
  - rewrite Hrec by (eauto using settled_bind).
    destruct (recurse (x :: sublist)); simpl in *; try reflexivity.
    apply IH, Hs.
Qed.

Lemma resolve_mono (recurse recurse' : list ParseItem -> Out ParseItem) tokens :
  (forall l, settled (recurse l) -> recurse' l = recurse l) ->
  settled (resolve recurse tokens) ->
  resolve recurse' tokens = resolve recurse tokens.
Proof.
  intros Hrec Hs. unfold resolve in *.
  destruct (_get_subexpressions tokens); [|reflexivity..].
  unfold bind in *. apply splice_mono; assumption.
Qed.

Lemma _build_ast_mono b b' tokens symbol_table :
  (b <= b')%nat ->
  settled (_build_ast cat b tokens symbol_table) ->
  _build_ast cat b' tokens symbol_table = _build_ast cat b tokens symbol_table.
Proof.
  revert b' tokens. induction b as [|b IH]; intros b' tokens Hle Hs.
  - exfalso. apply Hs. reflexivity.
  - destruct b' as [|b']; [lia|]. simpl in *.
    rewrite (resolve_mono (fun l => _build_ast cat b l symbol_table)).
    + destruct (resolve _ tokens) as [to_parse| |]; simpl in *; try reflexivity.
      rewrite (fold_tiers_mono b b') by (lia || eauto using settled_bind).
      reflexivity.
    + intros l Hl. apply IH; [lia | exact Hl].
    + eauto using settled_bind.
Qed.

Lemma parse_mono b b' input symbol_table :
  (b <= b')%nat ->
  settled (parse cat b input symbol_table) ->
  parse cat b' input symbol_table = parse cat b input symbol_table.
Proof.
  unfold parse. intros Hle Hs.
  destruct (_tokenize cat input symbol_table); simpl in *; try reflexivity.
  apply _build_ast_mono; assumption.
Qed.

Lemma eval_expression_parse budget input symbol_table :
  eval_expression cat budget input symbol_table
  = let* ast := parse cat budget input symbol_table in operation cat ast.
Proof.
  unfold eval_expression, parse, _evaluate_ast.
  destruct (_tokenize cat input symbol_table); reflexivity.
Qed.

Lemma eval_expression_mono b b' input symbol_table :
  (b <= b')%nat ->
  settled (parse cat b input symbol_table) ->
  eval_expression cat b' input symbol_table
  = eval_expression cat b input symbol_table.
Proof.
  intros Hle Hs. rewrite !eval_expression_parse.
  rewrite (parse_mono b b') by assumption. reflexivity.
Qed.

End Budget.

(** ** The end-of-parse check *)

Lemma end_of_parse_cases to_parse :
  (exists e, to_parse = [e] /\ is_Expression e = true
             /\ end_of_parse to_parse = Return e)
  \/ ((forall e, to_parse = [e] -> is_Expression e = false)
      /\ end_of_parse to_parse = Raise (InvalidExpression to_parse)).
Proof.
  destruct to_parse as [|e [|e' l]]; simpl.
  - right. split; [intros e; discriminate | reflexivity].
  - destruct (is_Expression e) eqn:He.
    + left. exists e. auto.
    + right. split; [intros e' [= <-]; exact He | reflexivity].
  - right. split; [intros e0; discriminate | reflexivity].
Qed.

Lemma _build_ast_unfold cat budget tokens symbol_table :
  _build_ast cat (S budget) tokens symbol_table
  = let* to_parse :=
      resolve (fun sublist => _build_ast cat budget sublist symbol_table) tokens in
    let* to_parse := fold_tiers cat budget to_parse (order_of_operations cat) in
    end_of_parse to_parse.
Proof. reflexivity. Qed.

(** C4. Once step 1 has produced a working sequence and the tiers have
    been exhausted leaving [residual], [_build_ast] raises
    [InvalidExpression], carrying [residual], exactly when [residual] is
    not a single [Expression]; otherwise it returns that single
    element. *)
Theorem C4_end_of_parse_check cat budget tokens symbol_table to_parse residual :
  resolve (fun sublist => _build_ast cat budget sublist symbol_table) tokens
    = Return to_parse ->
  fold_tiers cat budget to_parse (order_of_operations cat) = Return residual ->
  (_build_ast cat (S budget) tokens symbol_table
     = Raise (InvalidExpression residual)
   <-> ~ (exists e, residual = [e] /\ is_Expression e = true))
  /\ (forall e, residual = [e] -> is_Expression e = true ->
        _build_ast cat (S budget) tokens symbol_table = Return e).
Proof.
  intros Hres Htiers. rewrite _build_ast_unfold, Hres. simpl. rewrite Htiers. simpl.
  destruct (end_of_parse_cases residual) as [(e & -> & He & ->)|[Hno ->]].
  - split; [split|].
    + discriminate.
    + intros Hn. exfalso. apply Hn. eauto.
    + intros e' [= <-] _. reflexivity.
  - split; [split|].
    + intros _ (e & -> & He). rewrite (Hno e eq_refl) in He. discriminate.
    + reflexivity.
    + intros e -> He. rewrite (Hno e eq_refl) in He. discriminate.
Qed.

Lemma C4_end_of_parse_check_witness :
  _build_ast spec_catalog 2 [Operator "&"] ∅
  = Raise (InvalidExpression [Operator "&"])
  /\ _build_ast spec_catalog 2 [BooleanLiteral "True"] ∅
     = Return (BooleanLiteral "True").
Proof.
  split.
  - apply (C4_end_of_parse_check spec_catalog 1 [Operator "&"] ∅
             [Operator "&"] [Operator "&"] eq_refl eq_refl).
    intros (e & [= <-] & He). discriminate.
  - apply (proj2 (C4_end_of_parse_check spec_catalog 1 [BooleanLiteral "True"] ∅
                    [BooleanLiteral "True"] [BooleanLiteral "True"]
                    eq_refl eq_refl) (BooleanLiteral "True") eq_refl eq_refl).
Defined.

(** ** The evaluator *)

(** C5. [eval_expression] is [operation] of the root that parsing
    returns, with no check of the root's return type; a bare identifier
    bound to a number, and a bare numeric literal, evaluate to a value
    that is not a boolean. *)
Theorem C5_root_type_not_enforced :
  (forall cat budget input symbol_table,
     eval_expression cat budget input symbol_table
     = let* ast := parse cat budget input symbol_table in operation cat ast)
  /\ (forall budget n,
        eval_expression spec_catalog (S (S budget)) "x" (<["x" := VNum n]> ∅)
        = Return (VNum n))
  /\ (forall budget symbol_table,
        eval_expression spec_catalog (S (S budget)) "3" symbol_table
        = Return (VNum 3))
  /\ (forall n, is_boolean (VNum n) = false).
Proof.
  split; [exact eval_expression_parse|]. split; [|split].
  - intros budget n.
    rewrite (eval_expression_mono _ 2 (S (S budget)))
      by first [lia | vm_compute; discriminate].
    vm_compute. reflexivity.
  - intros budget symbol_table.
    rewrite (eval_expression_mono _ 2 (S (S budget)))
      by first [lia | vm_compute; discriminate].
    vm_compute. reflexivity.
  - reflexivity.
Qed.

(** ** The trie walk of [is_match] *)

Section Walk.

Variable cat : Catalog.

Lemma is_match_walks n path n' items targets expr_type :
  walks cat n path n' -> is_end n' = true -> Forall (registered cat) path ->
  is_match cat n (path ++ items) targets expr_type
  = match class_after cat expr_type path with
    | None => Raise MatchError
    | Some cls => Return (Some (targets ++ operands path, cls))
    end.
Proof.
  intros Hw. revert targets expr_type.
  induction Hw as [n|n item k child path n' Hn Hk Hchild Hw IH];
    intros targets expr_type Hend Hreg.
  - simpl. destruct items; simpl; rewrite Hend, app_nil_r; reflexivity.
  - apply Forall_cons in Hreg as [Hitem Hreg].
    cbn [app is_match]. rewrite Hn, Hk. cbn [mbind option_bind]. rewrite Hchild.
    destruct item; cbn [class_after foldl];
      try (rewrite IH by assumption; unfold operands;
           rewrite filter_cons_True by reflexivity;
           fold (operands path); rewrite <- app_assoc; reflexivity).
    destruct Hitem as [cls Hcls]. rewrite Hcls.
    rewrite IH by assumption. unfold class_after, operands.
    rewrite filter_cons_False by (simpl; congruence). reflexivity.
Qed.

Lemma class_after_last_operator path :
  Forall (registered cat) path ->
  class_after cat None path
  = last_operator path ≫= (fun symbol => TOKEN_TO_CLASS cat !! symbol).
Proof.
  unfold class_after, last_operator.
  induction path as [|item path IH] using rev_ind; [reflexivity|].
  intros Hreg. apply Forall_app in Hreg as [Hreg Hitem].
  rewrite !foldl_app. cbn [foldl].
  destruct item; try (apply IH, Hreg). reflexivity.
Qed.

Lemma match_from_walks trie path node items i :
  walks cat trie path node -> is_end node = true ->
  Forall (registered cat) path -> path ++ items <> [] ->
  match_result cat path i (match_from cat trie (path ++ items) i).
Proof.
  intros Hw Hend Hreg Hne.
  pose proof (is_match_walks _ _ _ items [] None Hw Hend Hreg) as Hm.
  rewrite class_after_last_operator in Hm by assumption.
  assert (Hfrom : match_from cat trie (path ++ items) i
                  = let* r := is_match cat trie (path ++ items) [] None in
                    match r with
                    | Some (targets, expr_type) =>
                        Return (Some (i, (i + length (expects expr_type))%nat,
                                      Compound expr_type targets))
                    | None => match_from cat trie (tail (path ++ items)) (S i)
                    end).
  { destruct (path ++ items); [congruence | reflexivity]. }
  unfold match_result.
  destruct (last_operator path) as [symbol|] eqn:Hlast; cbn [mbind option_bind] in Hm.
  - assert (Hsome : is_Some (TOKEN_TO_CLASS cat !! symbol)).
    { clear -Hreg Hlast. unfold last_operator in Hlast.
      induction path as [|item path IH] using rev_ind; [discriminate|].
      apply Forall_app in Hreg as [Hreg Hitem]. apply Forall_cons in Hitem as [Hitem _].
      rewrite foldl_app in Hlast. cbn [foldl] in Hlast.
      destruct item; try (apply IH; assumption).
      injection Hlast as <-. exact Hitem. }
    destruct Hsome as [cls Hcls]. rewrite Hcls in Hm. exists cls.
    split; [exact Hcls|]. rewrite Hfrom, Hm. reflexivity.
  - rewrite Hfrom, Hm. reflexivity.
Qed.

(** *** The trie of a tier *)

Lemma dict_get_set_eq {V} k (v : V) d : dict_get k (dict_set k v d) = Some v.
Proof.
  induction d as [|[k' v'] d IH]; simpl.
  - destruct (decide (k = k)); congruence.
  - destruct (decide (k = k')) as [->|Hne]; simpl.
    + destruct (decide (k' = k')); congruence.
    + destruct (decide (k = k')); [congruence | exact IH].
Qed.

Lemma dict_get_set_ne {V} k k' (v : V) d :
  k <> k' -> dict_get k' (dict_set k v d) = dict_get k' d.
Proof.
  intros Hne. induction d as [|[k0 v0] d IH]; simpl.
  - destruct (decide (k' = k)); congruence.
  - destruct (decide (k = k0)) as [->|Hne0]; simpl.
    + destruct (decide (k' = k0)); congruence.
    + destruct (decide (k' = k0)); [reflexivity | exact IH].
Qed.

Lemma complete_fresh value ks : ~ complete (mkTrieNode value [] false) ks.
Proof. intros (n' & H & Hend). destruct ks; simpl in H; [|discriminate].
  injection H as <-. discriminate.
Qed.

(** Inserting a pattern adds that pattern and no other. *)
Lemma trie_insert_complete m n ks :
  complete (trie_insert m n) ks <-> ks = m \/ complete n ks.
Proof.
  revert n ks. induction m as [|k0 m IH]; intros [v kids e] ks.
  - cbn [trie_insert]. destruct ks as [|k ks].
    + split; [auto|]. intros _. eexists. split; reflexivity.
    + split.
      * intros (n' & H & Hend). right. exists n'. auto.
      * intros [H|(n' & H & Hend)]; [discriminate|]. exists n'. auto.
  - cbn [trie_insert]. destruct ks as [|k ks].
    + split.
      * intros (n' & [= <-] & Hend). right. eexists. split; [reflexivity|exact Hend].
      * intros [H|(n' & [= <-] & Hend)]; [discriminate|].
        eexists. split; [reflexivity | exact Hend].
    + unfold complete. cbn [trie_find children].
      destruct (decide (k0 = k)) as [->|Hne].
      * rewrite dict_get_set_eq.
        fold (complete (trie_insert m
                (match dict_get k kids with
                 | Some child => child
                 | None => mkTrieNode (Some k) [] false
                 end)) ks).
        rewrite IH. destruct (dict_get k kids) as [child|].
        -- split; (intros [H|H]; [left; congruence | right; exact H]).
        -- split.
           ++ intros [H|H]; [left; congruence|]. apply complete_fresh in H.
              contradiction.
           ++ intros [H|(n' & H & _)]; [left; congruence | discriminate].
      * rewrite dict_get_set_ne by exact Hne.
        split; [intros H; right; exact H|].
        intros [[= H _]|H]; [congruence | exact H].
Qed.

Lemma _build_trie_complete to_match ks :
  complete (_build_trie to_match) ks
  <-> exists cls, cls ∈ to_match /\ ks = expects cls.
Proof.
  unfold _build_trie.
  assert (Hgen : forall root,
            complete (foldl (fun root expression =>
                               trie_insert (expects expression) root)
                        root to_match) ks
            <-> complete root ks
                \/ exists cls, cls ∈ to_match /\ ks = expects cls).
  { induction to_match as [|cls to_match IH]; intros root; cbn [foldl].
    - split; [auto|]. intros [H|(cls & Hin & _)]; [exact H | inversion Hin].
    - rewrite IH, trie_insert_complete. split.
      + intros [[->|H]|(cls' & Hin & ->)].
        * right. exists cls. split; [left | reflexivity].
        * left. exact H.
        * right. exists cls'. split; [right; exact Hin | reflexivity].
      + intros [H|(cls' & Hin & ->)]; [left; right; exact H|].
        apply elem_of_cons in Hin as [->|Hin]; [left; left; reflexivity|].
        right. exists cls'. split; [exact Hin | reflexivity]. }
  rewrite Hgen. split; [|auto].
  intros [H|H]; [apply complete_fresh in H; contradiction | exact H].
Qed.

Lemma trie_find_app n ks1 ks2 :
  trie_find n (ks1 ++ ks2) = trie_find n ks1 ≫= (fun n1 => trie_find n1 ks2).
Proof.
  revert n. induction ks1 as [|k ks1 IH]; intros n; [reflexivity|].
  cbn [app trie_find]. destruct (dict_get k (children n)); [apply IH | reflexivity].
Qed.

(** Along keys none of whose proper prefixes is complete, the walk of
    [is_match] follows [trie_find]. *)
Lemma walks_trie_find path ks n n' :
  keyed cat path ks -> trie_find n ks = Some n' ->
  (forall ks1 ks2, ks = ks1 ++ ks2 -> ks2 <> [] -> ~ complete n ks1) ->
  walks cat n path n'.
Proof.
  intros Hkeys. revert n.
  induction Hkeys as [|item k path ks Hk _ IH]; intros n Hfind Hfree.
  - injection Hfind as <-. constructor.
  - cbn [trie_find] in Hfind.
    destruct (dict_get k (children n)) as [child|] eqn:Hchild; [|discriminate].
    eapply walks_step; [|exact Hk | exact Hchild|].
    + destruct (is_end n) eqn:Hend; [|reflexivity]. exfalso.
      apply (Hfree [] (k :: ks) eq_refl); [discriminate|].
      exists n. split; [reflexivity | exact Hend].
    + apply IH; [exact Hfind|]. intros ks1 ks2 -> Hne (n1 & Hn1 & Hend).
      apply (Hfree (k :: ks1) ks2 eq_refl Hne).
      exists n1. split; [|exact Hend]. cbn [trie_find]. rewrite Hchild. exact Hn1.
Qed.

(** The elements that carry the pattern of a class of the tier, no
    pattern of the tier being a proper prefix of it, walk the trie of
    the tier to a terminal node. *)
Lemma walks_pattern to_match cls path :
  cls ∈ to_match -> keyed cat path (expects cls) ->
  prefix_free to_match (expects cls) ->
  exists node, walks cat (_build_trie to_match) path node /\ is_end node = true.
Proof.
  intros Hin Hkeys Hfree.
  destruct (proj2 (_build_trie_complete to_match (expects cls)))
    as (node & Hfind & Hend); [eauto|].
  exists node. split; [|exact Hend].
  eapply walks_trie_find; [exact Hkeys | exact Hfind|].
  intros ks1 ks2 Heq Hne Hc.
  apply _build_trie_complete in Hc as (cls' & Hin' & ->).
  apply Hne. eapply Hfree; eassumption.
Qed.

End Walk.


(** C7. When the walk of a trie completes a pattern over [path], the
    scan of [_match] raises [MatchError] if [path] holds no [Operator]
    token, and otherwise gives the class that [TOKEN_TO_CLASS] holds for
    the operator consumed (the last one), instantiated on the
    non-operator elements of [path] in the order met.  So it is for the
    trie of a tier and the elements that carry the pattern of one of its
    classes. *)
Theorem C7_match_needs_an_operator :
  (forall cat trie path node items i,
     walks cat trie path node -> is_end node = true ->
     Forall (registered cat) path -> path ++ items <> [] ->
     match_result cat path i (match_from cat trie (path ++ items) i))
  /\ (forall cat to_match cls path items,
        cls ∈ to_match -> keyed cat path (expects cls) ->
        prefix_free to_match (expects cls) ->
        Forall (registered cat) path -> path ++ items <> [] ->
        match_result cat path 0 (_match cat (path ++ items) to_match)).
Proof.
  split; [exact match_from_walks|].
  intros cat to_match cls path items Hin Hkeys Hfree Hreg Hne.
  destruct (walks_pattern cat to_match cls path Hin Hkeys Hfree)
    as (node & Hw & Hend).
  unfold _match. eapply match_from_walks; eassumption.
Qed.

(** In the tier of the specification's [And], "True & False" folds into
    an [And] of the two literals; in a tier holding [Bare], a lone
    literal completes a pattern with no operator. *)
Lemma C7_match_needs_an_operator_witness :
  _match spec_catalog
    ([BooleanLiteral "True"; Operator "&"; BooleanLiteral "False"] ++ []) [And]
  = Return (Some (0, 3, Compound And [BooleanLiteral "True"; BooleanLiteral "False"]))%nat
  /\ _match spec_catalog ([BooleanLiteral "True"] ++ []) [Bare]
     = Raise MatchError.
Proof.
  assert (Hfree : forall cls, prefix_free [cls] (expects cls)).
  { intros cls cls' ks' Hin Heq. apply list_elem_of_singleton in Hin as ->.
    apply (f_equal length) in Heq. rewrite length_app in Heq.
    destruct ks'; [reflexivity | simpl in Heq; lia]. }
  split.
  - destruct (proj2 C7_match_needs_an_operator spec_catalog [And] And
                [BooleanLiteral "True"; Operator "&"; BooleanLiteral "False"] [])
      as (cls & Hcls & Hm).
    + left.
    + repeat constructor.
    + apply Hfree.
    + repeat constructor. simpl. eexists. reflexivity.
    + discriminate.
    + injection Hcls as <-. exact Hm.
  - apply (proj2 C7_match_needs_an_operator spec_catalog [Bare] Bare
             [BooleanLiteral "True"] []).
    + left.
    + repeat constructor.
    + apply Hfree.
    + repeat constructor.
    + discriminate.
Defined.

(** ** The [sequence] combinator *)

Section SequenceFacts.

Import Combinators.

Context {X K V : Type}.

Implicit Types (combinators : list (Combinator (X:=X) (K:=K) V)).
Implicit Types (tokens : list (X * K)).

Lemma sequence_loop_all_succeed combinators tokens results rest_ value_ :
  Forall2 (fun combinator result =>
             combinator tokens = Return result /\ success result = true)
    combinators results ->
  sequence_loop combinators tokens rest_ value_
  = Return (mkResult true (Some (value_ ++ map value results))
              (default rest_ (last (map rest results)))).
Proof.
  intros H. revert rest_ value_.
  induction H as [|combinator result combinators results [Hc Hs] _ IH];
    intros rest_ value_; simpl.
  - rewrite app_nil_r. reflexivity.
  - rewrite Hc. simpl. rewrite Hs, IH, <- app_assoc. simpl.
    do 2 f_equal. rewrite last_cons. destruct (last (map rest results)); reflexivity.
Qed.

Lemma sequence_loop_first_failure combinators1 combinator combinators2 tokens
    results result rest_ value_ :
  Forall2 (fun combinator result =>
             combinator tokens = Return result /\ success result = true)
    combinators1 results ->
  combinator tokens = Return result -> success result = false ->
  sequence_loop (combinators1 ++ combinator :: combinators2) tokens rest_ value_
  = Return (mkResult false None None).
Proof.
  intros H Hc Hs. revert rest_ value_.
  induction H as [|c r cs rs [Hc' Hs'] _ IH]; intros rest_ value_; simpl.
  - rewrite Hc. simpl. rewrite Hs. reflexivity.
  - rewrite Hc'. simpl. rewrite Hs'. apply IH.
Qed.

(** C10. When every combinator succeeds on the original token list,
    [sequence] succeeds: its value lists the value each combinator gave
    on the original list, and its rest is the rest the last combinator
    gave on the original list (the token list itself when there is no
    combinator).  When the first combinator that does not succeed on the
    original list fails there, [sequence] fails.  No combinator is
    applied to a remainder. *)
Theorem C10_sequence_applies_to_original combinators tokens results :
  Forall2 (fun combinator result =>
             combinator tokens = Return result /\ success result = true)
    combinators results ->
  sequence combinators tokens
  = Return (mkResult true (Some (map value results))
              (default (Some tokens) (last (map rest results))))
  /\ forall combinator result combinators',
       combinator tokens = Return result -> success result = false ->
       sequence (combinators ++ combinator :: combinators') tokens
       = Return (mkResult false None None).
Proof.
  intros H. split.
  - unfold sequence. rewrite (sequence_loop_all_succeed _ _ results) by exact H.
    reflexivity.
  - intros combinator result combinators' Hc Hs. unfold sequence.
    eapply sequence_loop_first_failure; eassumption.
Qed.

End SequenceFacts.

(** Two [is_type] combinators in sequence both inspect the first token:
    the second succeeds on a list whose second token it would reject. *)
Lemma C10_sequence_applies_to_original_witness :
  Combinators.sequence
    [Combinators.is_type Nat.eqb 1%nat; Combinators.is_type Nat.eqb 1%nat]
    [("a", 1%nat); ("b", 2%nat)]
  = Return (Combinators.mkResult true
              (Some [Some [("a", 1%nat)]; Some [("a", 1%nat)]])
              (Some [("b", 2%nat)]))
  /\ Combinators.threaded_loop
       [Combinators.is_type Nat.eqb 1%nat; Combinators.is_type Nat.eqb 1%nat]
       (Some [("a", 1%nat); ("b", 2%nat)]) []
     = Return (Combinators.mkResult false None None).
Proof.
  split; [|reflexivity].
  apply (C10_sequence_applies_to_original
           [Combinators.is_type Nat.eqb 1%nat; Combinators.is_type Nat.eqb 1%nat]
           [("a", 1%nat); ("b", 2%nat)]
           [Combinators.mkResult true (Some [("a", 1%nat)]) (Some [("b", 2%nat)]);
            Combinators.mkResult true (Some [("a", 1%nat)]) (Some [("b", 2%nat)])]).
  repeat constructor.
Defined.

(** ** Parenthesis balance *)

Lemma depth_app l1 l2 : depth (l1 ++ l2) = depth l1 + depth l2.
Proof. induction l1 as [|tok l1 IH]; simpl; lia. Qed.

Section Scan.

Implicit Types (tokens : list ParseItem) (stack : list Z).

(** The height of the stack follows the depth of the prefix read: the
    scan raises [MissingLeftParanthesis] exactly when some prefix closes
    more parentheses than the stack holds. *)
Lemma scan_missing_left tokens i sub_exps stack :
  (exists n, depth (take n tokens) + Z.of_nat (length stack) < 0) ->
  scan_parentheses tokens i sub_exps stack = Raise MissingLeftParanthesis.
Proof.
  revert i sub_exps stack.
  induction tokens as [|tok tokens IH]; intros i sub_exps stack [n Hn].
  - rewrite take_nil in Hn. simpl in Hn. lia.
  - destruct n as [|n]; [simpl in Hn; lia|]. simpl in Hn.
    destruct tok; simpl in *;
      try (apply IH; exists n; simpl; lia).
    destruct stack as [|start_idx stack]; [reflexivity|].
    apply IH. exists n. simpl in *. lia.
Qed.

Lemma scan_no_missing_left tokens stack :
  (forall n, 0 <= depth (take n tokens) + Z.of_nat (length stack)) ->
  forall i sub_exps,
    (0 < depth tokens + Z.of_nat (length stack) ->
     scan_parentheses tokens i sub_exps stack = Raise MissingRightParanthesis)
    /\ (depth tokens + Z.of_nat (length stack) = 0 ->
        exists found, scan_parentheses tokens i sub_exps stack = Return found).
Proof.
  revert stack.
  induction tokens as [|tok tokens IH]; intros stack Hpre i sub_exps.
  - destruct stack; cbn [scan_parentheses depth length]; split; intros;
      try lia; eauto.
  - assert (Hstep : forall n,
              0 <= paren_delta tok + depth (take n tokens)
                   + Z.of_nat (length stack)).
    { intros n. specialize (Hpre (S n)). rewrite firstn_cons in Hpre.
      cbn [depth] in Hpre. lia. }
    assert (Hnext : forall stack' i' sub_exps',
              Z.of_nat (length stack')
              = paren_delta tok + Z.of_nat (length stack) ->
              (0 < depth (tok :: tokens) + Z.of_nat (length stack) ->
               scan_parentheses tokens i' sub_exps' stack'
               = Raise MissingRightParanthesis)
              /\ (depth (tok :: tokens) + Z.of_nat (length stack) = 0 ->
                  exists found,
                    scan_parentheses tokens i' sub_exps' stack' = Return found)).
    { intros stack' i' sub_exps' Hlen.
      destruct (IH stack') with (i := i') (sub_exps := sub_exps') as [IH1 IH2].
      - intros n. specialize (Hstep n). lia.
      - cbn [depth]. split; intros H; [apply IH1 | apply IH2]; lia. }
    destruct tok; cbn [scan_parentheses];
      try (apply Hnext; cbn [paren_delta]; lia).
    + apply Hnext. cbn [paren_delta length]. lia.
    + destruct stack as [|start_idx stack].
      * specialize (Hstep 0%nat). simpl in Hstep. lia.
      * apply Hnext. cbn [paren_delta length]. lia.
Qed.

Lemma scan_parentheses_Raise tokens i sub_exps stack e :
  scan_parentheses tokens i sub_exps stack = Raise e ->
  e = MissingLeftParanthesis \/ e = MissingRightParanthesis.
Proof.
  revert i sub_exps stack.
  induction tokens as [|tok tokens IH]; intros i sub_exps stack H.
  - destruct stack; [discriminate|]. injection H as <-. auto.
  - destruct tok; cbn [scan_parentheses] in H; try (eapply IH; exact H).
    destruct stack; [injection H as <-; auto | eapply IH; exact H].
Qed.

End Scan.

(** A parenthesis error of the scan is the outcome of [_build_ast]. *)
Lemma _build_ast_scan_error cat budget tokens symbol_table e :
  _get_subexpressions tokens = Raise e ->
  _build_ast cat (S budget) tokens symbol_table = Raise e.
Proof. intros H. rewrite _build_ast_unfold. unfold resolve. rewrite H. reflexivity. Qed.

(** C3. A right parenthesis met with an empty stack raises
    [MissingLeftParanthesis], and a stack left non-empty by the full
    scan raises [MissingRightParanthesis].  Counted on the tokens:
    parsing fails with [MissingLeftParanthesis] when some prefix closes
    more parentheses than it opens, with [MissingRightParanthesis] when
    no prefix does and the whole sequence opens more than it closes, and
    the scan returns when no prefix does and the counts agree. *)
Theorem C3_parenthesis_balance :
  (forall tokens i sub_exps,
     scan_parentheses (RightParanthesis :: tokens) i sub_exps []
     = Raise MissingLeftParanthesis)
  /\ (forall i sub_exps start_idx stack,
        scan_parentheses [] i sub_exps (start_idx :: stack)
        = Raise MissingRightParanthesis)
  /\ (forall cat budget tokens symbol_table,
        (exists n, depth (take n tokens) < 0) ->
        _build_ast cat (S budget) tokens symbol_table
        = Raise MissingLeftParanthesis)
  /\ (forall cat budget tokens symbol_table,
        (forall n, 0 <= depth (take n tokens)) -> 0 < depth tokens ->
        _build_ast cat (S budget) tokens symbol_table
        = Raise MissingRightParanthesis)
  /\ (forall tokens,
        (forall n, 0 <= depth (take n tokens)) -> depth tokens = 0 ->
        exists found, _get_subexpressions tokens = Return found)
  /\ (forall budget symbol_table,
        eval_expression spec_catalog (S budget) "(A&B" symbol_table
        = Raise MissingRightParanthesis)
  /\ (forall budget symbol_table,
        eval_expression spec_catalog (S budget) "A&B)" symbol_table
        = Raise MissingLeftParanthesis).
Proof.
  repeat split; try reflexivity.
  - intros cat budget tokens symbol_table [n Hn].
    apply _build_ast_scan_error, scan_missing_left. exists n. simpl. lia.
  - intros cat budget tokens symbol_table Hpre Hpos.
    apply _build_ast_scan_error.
    apply (scan_no_missing_left tokens []); simpl; [|lia].
    intros n. specialize (Hpre n). lia.
  - intros tokens Hpre Hzero.
    apply (scan_no_missing_left tokens []); simpl; [|lia].
    intros n. specialize (Hpre n). lia.
Qed.

Lemma C3_parenthesis_balance_witness :
  _build_ast spec_catalog 1 [Identifier "A" ∅; RightParanthesis] ∅
  = Raise MissingLeftParanthesis
  /\ _build_ast spec_catalog 1 [LeftParanthesis; Identifier "A" ∅] ∅
     = Raise MissingRightParanthesis.
Proof.
  destruct C3_parenthesis_balance as (_ & _ & Hleft & Hright & _).
  split.
  - apply Hleft. exists 2%nat. reflexivity.
  - apply Hright; [|reflexivity].
    intros [|[|[|n]]]; discriminate.
Defined.

(** ** The lexer *)

Section Lexer.

Variable cat : Catalog.

Lemma _match_op_symbol_spec taken rest sym rest' :
  _match_op_symbol cat taken rest = (sym, rest') ->
  sym ++ rest' = taken ++ rest
  /\ (length rest' <= length rest)%nat
  /\ (sym = taken \/ is_op_symbol cat sym = true).
Proof.
  revert taken. induction rest as [|c rest IH]; intros taken H; simpl in H.
  - injection H as <- <-. auto.
  - destruct (is_op_symbol cat (taken ++ [c])) eqn:Hop.
    + apply IH in H as (Happ & Hlen & Hsym).
      rewrite <- app_assoc in Happ. simpl in *. split; [exact Happ|].
      split; [lia|]. right. destruct Hsym as [->|Hsym]; assumption.
    + injection H as <- <-. auto.
Qed.

(** An operator token starts with the character it was entered on, is a
    key of [TOKEN_TO_CLASS], and leaves a shorter remainder. *)
Lemma _match_op_symbol_first c s sym rest :
  operation_symbols cat c = true ->
  _match_op_symbol cat [] (c :: s) = (sym, rest) ->
  sym ++ rest = c :: s /\ (length rest <= length s)%nat
  /\ is_op_symbol cat sym = true.
Proof.
  intros Hc H. simpl in H. unfold operation_symbols in Hc. rewrite Hc in H.
  apply _match_op_symbol_spec in H as (Happ & Hlen & Hsym).
  repeat split; [exact Happ | exact Hlen |].
  destruct Hsym as [->|Hsym]; assumption.
Qed.

Lemma literal_run_spec allowed s run rest :
  literal_run allowed s = (run, rest) ->
  run ++ rest = s /\ Forall (fun c => allowed c = true) run
  /\ (forall c s', s = c :: s' -> allowed c = true ->
        (length rest <= length s')%nat).
Proof.
  revert run rest. induction s as [|c s IH]; intros run rest H; simpl in H.
  - injection H as <- <-. repeat split; [constructor | intros; discriminate].
  - destruct (allowed c) eqn:Hc.
    + destruct (literal_run allowed s) as [run' rest'] eqn:Hrun.
      injection H as <- <-.
      destruct (IH _ _ eq_refl) as (Happ & Hall & Hlen).
      repeat split.
      * simpl. f_equal. exact Happ.
      * constructor; assumption.
      * intros c' s' [= <- <-] _. rewrite <- Happ, length_app. lia.
    + injection H as <- <-. repeat split; [constructor|].
      intros c' s' [= <- <-] Hc'. congruence.
Qed.

Lemma allowed_symbols_language c :
  allowed_symbols c = true -> language cat c = true.
Proof.
  unfold allowed_symbols, language. intros H.
  apply orb_true_iff in H as [H|H]; [apply orb_true_iff in H as [H|H]|].
  - assert (Hv : variable_symbols c = true).
    { unfold numeric_literal_symbols, variable_symbols, char_in in *.
      apply bool_decide_eq_true in H. apply bool_decide_eq_true.
      revert H. generalize c. clear. intros c H. vm_compute in H.
      repeat (apply elem_of_cons in H as [->|H];
              [apply (bool_decide_unpack _); vm_compute; exact I|]).
      inversion H. }
    rewrite Hv. apply orb_true_r.
  - rewrite H. rewrite orb_true_r. reflexivity.
  - rewrite H. apply orb_true_r.
Qed.

(** The characters of the boolean literals are letters, so [language]
    is: parentheses, one-character operator symbols, letters, digits,
    underscore and dot. *)
Lemma language_alphabet c :
  language cat c
  = parantheses c || operation_symbols cat c || variable_symbols c.
Proof.
  unfold language.
  destruct (boolean_literal_symbols c) eqn:Hb;
    [|rewrite orb_false_r; reflexivity].
  assert (Hv : variable_symbols c = true).
  { unfold boolean_literal_symbols, variable_symbols, char_in in *.
    apply bool_decide_eq_true in Hb. apply bool_decide_eq_true.
    revert Hb. generalize c. clear. intros c H. vm_compute in H.
    repeat (apply elem_of_cons in H as [->|H];
            [apply (bool_decide_unpack _); vm_compute; exact I|]).
    inversion H. }
  rewrite Hv, !orb_true_r. reflexivity.
Qed.

(** A character that is in [language] and is neither a parenthesis nor
    an operator symbol starts a run. *)
Lemma language_allowed c :
  language cat c = true -> parantheses c = false ->
  operation_symbols cat c = false -> allowed_symbols c = true.
Proof.
  unfold language, allowed_symbols. intros H Hpar Hop.
  rewrite Hpar, Hop in H. simpl in H.
  rewrite orb_false_r in H. apply orb_true_iff in H as [->| ->];
    rewrite ?orb_true_r; reflexivity.
Qed.

(** The loop never uses up a budget of [len(s)] iterations. *)
Lemma tokenize_loop_settled budget s symbol_table tokens :
  (length s <= budget)%nat ->
  settled (tokenize_loop cat budget s symbol_table tokens).
Proof.
  revert s tokens. induction budget as [|budget IH]; intros s tokens Hlen.
  - destruct s; [discriminate | simpl in Hlen; lia].
  - destruct s as [|c s]; [discriminate|]. simpl in Hlen. cbn [tokenize_loop].
    destruct (language cat c) eqn:Hlang; [|discriminate]. cbn [negb].
    destruct (parantheses c) eqn:Hpar; [apply IH; lia|].
    destruct (operation_symbols cat c) eqn:Hop.
    + destruct (_match_op_symbol cat [] (c :: s)) as [sym rest] eqn:Hm.
      apply _match_op_symbol_first in Hm as (_ & Hm & _); [|exact Hop].
      apply IH. lia.
    + unfold _match_literal_or_var.
      destruct (literal_run allowed_symbols (c :: s)) as [run rest] eqn:Hrun.
      apply literal_run_spec in Hrun as (_ & _ & Hrun).
      specialize (Hrun c s eq_refl (language_allowed _ Hlang Hpar Hop)).
      destruct rest as [|c' rest]; [apply IH; simpl; lia|].
      destruct (language cat c'); [|discriminate]. apply IH. lia.
Qed.

(** The only exception of the loop is [InvalidCharacter], raised on a
    character of the text that is not in [language]. *)
Lemma tokenize_loop_Raise budget s symbol_table tokens e :
  tokenize_loop cat budget s symbol_table tokens = Raise e ->
  e = InvalidCharacter /\ exists c, c ∈ s /\ language cat c = false.
Proof.
  revert s tokens. induction budget as [|budget IH]; intros s tokens H.
  - destruct s; discriminate.
  - destruct s as [|c s]; [discriminate|]. cbn [tokenize_loop] in H.
    destruct (language cat c) eqn:Hlang; cbn [negb] in H.
    2:{ injection H as <-. split; [reflexivity|]. exists c. split; [left|exact Hlang]. }
    destruct (parantheses c) eqn:Hpar.
    { apply IH in H as (-> & c' & Hc' & Hl). split; [reflexivity|].
      exists c'. split; [right; exact Hc' | exact Hl]. }
    destruct (operation_symbols cat c) eqn:Hop.
    + destruct (_match_op_symbol cat [] (c :: s)) as [sym rest] eqn:Hm.
      apply _match_op_symbol_first in Hm as (Happ & _ & _); [|exact Hop].
      apply IH in H as (-> & c' & Hc' & Hl). split; [reflexivity|].
      exists c'. split; [|exact Hl]. rewrite <- Happ. apply elem_of_app. auto.
    + unfold _match_literal_or_var in H.
      destruct (literal_run allowed_symbols (c :: s)) as [run rest] eqn:Hrun.
      apply literal_run_spec in Hrun as (Happ & _ & _).
      assert (Hrest : forall c', c' ∈ rest -> c' ∈ c :: s).
      { intros c' Hc'. rewrite <- Happ. apply elem_of_app. auto. }
      destruct rest as [|c' rest].
      * apply IH in H as (-> & c'' & Hc'' & Hl). inversion Hc''.
      * destruct (language cat c') eqn:Hlang'.
        -- apply IH in H as (-> & c'' & Hc'' & Hl). split; [reflexivity|].
           exists c''. auto.
        -- injection H as <-. split; [reflexivity|]. exists c'.
           split; [apply Hrest; left | exact Hlang'].
Qed.

Lemma tokenize_loop_invalid budget s symbol_table tokens :
  operator_characters_in_language cat ->
  (length s <= budget)%nat ->
  (exists c, c ∈ s /\ language cat c = false) ->
  tokenize_loop cat budget s symbol_table tokens = Raise InvalidCharacter.
Proof.
  intros Hcat. revert s tokens.
  induction budget as [|budget IH]; intros s tokens Hlen (c0 & Hc0 & Hbad).
  - destruct s; [inversion Hc0 | simpl in Hlen; lia].
  - destruct s as [|c s]; [inversion Hc0|]. simpl in Hlen. cbn [tokenize_loop].
    destruct (language cat c) eqn:Hlang; [|reflexivity]. cbn [negb].
    destruct (parantheses c) eqn:Hpar.
    { apply IH; [lia|]. exists c0. split; [|exact Hbad].
      apply elem_of_cons in Hc0 as [->|Hc0]; [congruence | exact Hc0]. }
    destruct (operation_symbols cat c) eqn:Hop.
    + destruct (_match_op_symbol cat [] (c :: s)) as [sym rest] eqn:Hm.
      apply _match_op_symbol_first in Hm as (Happ & Hm & Hsym); [|exact Hop].
      apply IH; [lia|]. exists c0. split; [|exact Hbad].
      rewrite <- Happ in Hc0. apply elem_of_app in Hc0 as [Hc0|Hc0]; [|exact Hc0].
      rewrite (Hcat sym c0 Hsym Hc0) in Hbad. discriminate.
    + unfold _match_literal_or_var.
      destruct (literal_run allowed_symbols (c :: s)) as [run rest] eqn:Hrun.
      apply literal_run_spec in Hrun as (Happ & Hall & Hrun).
      specialize (Hrun c s eq_refl (language_allowed _ Hlang Hpar Hop)).
      assert (Hin : c0 ∈ rest).
      { rewrite <- Happ in Hc0. apply elem_of_app in Hc0 as [Hc0|Hc0]; [|exact Hc0].
        rewrite Forall_forall in Hall. apply Hall in Hc0.
        apply allowed_symbols_language in Hc0. congruence. }
      destruct rest as [|c' rest]; [inversion Hin|].
      destruct (language cat c') eqn:Hlang'; [|reflexivity].
      apply IH; [lia | eauto].
Qed.

Lemma _tokenize_invalid_iff s symbol_table :
  operator_characters_in_language cat ->
  _tokenize cat s symbol_table = Raise InvalidCharacter
  <-> exists c, c ∈ remove_whitespace (chars s) /\ language cat c = false.
Proof.
  intros Hcat. unfold _tokenize. split.
  - intros H. apply tokenize_loop_Raise in H as [_ H]. exact H.
  - apply tokenize_loop_invalid; [exact Hcat | lia].
Qed.

Lemma _tokenize_returns s symbol_table :
  (forall c, c ∈ remove_whitespace (chars s) -> language cat c = true) ->
  exists tokens, _tokenize cat s symbol_table = Return tokens.
Proof.
  intros Hall. unfold _tokenize.
  pose proof (tokenize_loop_settled (length (remove_whitespace (chars s)))
                (remove_whitespace (chars s)) symbol_table [] (le_n _)) as Hs.
  destruct (tokenize_loop cat _ _ symbol_table []) as [tokens|e|] eqn:H.
  - eauto.
  - apply tokenize_loop_Raise in H as (_ & c & Hc & Hbad).
    rewrite (Hall c Hc) in Hbad. discriminate.
  - exfalso. apply Hs. reflexivity.
Qed.

End Lexer.

Lemma spec_catalog_operator_characters :
  operator_characters_in_language spec_catalog.
Proof.
  intros sym c Hop Hc. unfold is_op_symbol in Hop.
  apply bool_decide_eq_true in Hop. cbn [TOKEN_TO_CLASS spec_catalog] in Hop.
  assert (Hsym : sym ∈ [["&"%char]; ["|"%char]; ["!"%char]; [">"%char]]).
  { repeat (apply lookup_insert_is_Some in Hop as [Hop|[_ Hop]];
            [apply (f_equal list_ascii_of_string) in Hop;
             rewrite list_ascii_of_string_of_list_ascii in Hop; subst sym;
             repeat first [left | right]|]).
    rewrite lookup_empty in Hop. destruct Hop as [? Hop]. discriminate. }
  repeat (apply elem_of_cons in Hsym as [->|Hsym];
          [apply list_elem_of_singleton in Hc as ->; vm_compute; reflexivity|]).
  inversion Hsym.
Qed.

(** C6. The lexer raises [InvalidCharacter] exactly when the text, once
    its spaces are removed, holds a character outside [language]
    (parentheses, operator symbols, letters, digits, underscore and dot),
    and returns tokens otherwise; this for every catalog whose operator
    symbols are made of characters of [language], such as the catalog of
    the specification.  "A#B" raises [InvalidCharacter] whatever the
    table. *)
Theorem C6_invalid_character :
  (forall cat c,
     language cat c
     = parantheses c || operation_symbols cat c || variable_symbols c)
  /\ (forall cat s symbol_table,
     operator_characters_in_language cat ->
     (_tokenize cat s symbol_table = Raise InvalidCharacter
      <-> exists c, c ∈ remove_whitespace (chars s) /\ language cat c = false)
     /\ ((forall c, c ∈ remove_whitespace (chars s) -> language cat c = true) ->
         exists tokens, _tokenize cat s symbol_table = Return tokens))
  /\ (forall s symbol_table,
        _tokenize spec_catalog s symbol_table = Raise InvalidCharacter
        <-> exists c, c ∈ remove_whitespace (chars s)
                      /\ language spec_catalog c = false)
  /\ (forall budget symbol_table,
        eval_expression spec_catalog budget "A#B" symbol_table
        = Raise InvalidCharacter).
Proof.
  split; [exact language_alphabet|]. split; [|split].
  - intros cat s symbol_table Hcat. split.
    + apply _tokenize_invalid_iff, Hcat.
    + apply _tokenize_returns.
  - intros s symbol_table.
    apply _tokenize_invalid_iff, spec_catalog_operator_characters.
  - intros budget symbol_table. reflexivity.
Qed.

Lemma C6_invalid_character_witness :
  _tokenize spec_catalog "A # B" ∅ = Raise InvalidCharacter.
Proof.
  apply (proj1 (proj2 C6_invalid_character) spec_catalog "A # B" ∅
           spec_catalog_operator_characters).
  exists "#"%char. split; [|reflexivity].
  apply (bool_decide_unpack _). vm_compute. exact I.
Defined.

(** ** Whitespace *)

Lemma remove_whitespace_space l1 l2 :
  remove_whitespace (l1 ++ " "%char :: l2) = remove_whitespace (l1 ++ l2).
Proof.
  unfold remove_whitespace. rewrite !filter_app.
  rewrite filter_cons_False by (intros H; apply H; reflexivity). reflexivity.
Qed.

Lemma eval_expression_remove_whitespace cat budget s1 s2 symbol_table :
  remove_whitespace (chars s1) = remove_whitespace (chars s2) ->
  eval_expression cat budget s1 symbol_table
  = eval_expression cat budget s2 symbol_table.
Proof. intros H. unfold eval_expression, _tokenize. rewrite H. reflexivity. Qed.

(** C2. [_tokenize] removes the space character and nothing else: a
    space inserted anywhere never changes the result of
    [eval_expression], while a tab inserted anywhere makes it raise
    [InvalidCharacter], also where the text without the tab evaluates to
    a boolean. *)
Theorem C2_only_spaces_are_removed :
  (forall cat budget l1 l2 symbol_table,
     eval_expression cat budget (string_of_list_ascii (l1 ++ " "%char :: l2))
       symbol_table
     = eval_expression cat budget (string_of_list_ascii (l1 ++ l2)) symbol_table)
  /\ (forall budget symbol_table,
        eval_expression spec_catalog budget " A & B " symbol_table
        = eval_expression spec_catalog budget "A&B" symbol_table)
  /\ (forall budget l1 l2 symbol_table,
        eval_expression spec_catalog budget
          (string_of_list_ascii (l1 ++ "009"%char :: l2)) symbol_table
        = Raise InvalidCharacter)
  /\ (forall budget,
        eval_expression spec_catalog (3 + budget) "A&B"
          (<["A" := VBool true]> (<["B" := VBool true]> ∅))
        = Return (VBool true)).
Proof.
  split; [|split; [|split]].
  - intros cat budget l1 l2 symbol_table.
    apply eval_expression_remove_whitespace. unfold chars.
    rewrite !list_ascii_of_string_of_list_ascii. apply remove_whitespace_space.
  - intros budget symbol_table.
    apply eval_expression_remove_whitespace. reflexivity.
  - intros budget l1 l2 symbol_table. unfold eval_expression.
    replace (_tokenize spec_catalog _ symbol_table)
      with (Raise (A:=list ParseItem) (I:=ParseItem) InvalidCharacter);
      [reflexivity|].
    symmetry. apply _tokenize_invalid_iff;
      [apply spec_catalog_operator_characters|].
    exists "009"%char. split; [|reflexivity].
    unfold chars. rewrite list_ascii_of_string_of_list_ascii.
    unfold remove_whitespace. apply list_elem_of_filter. split; [discriminate|].
    apply elem_of_app. right. left.
  - intros budget.
    rewrite (eval_expression_mono _ 3 (3 + budget))
      by first [lia | vm_compute; discriminate].
    vm_compute. reflexivity.
Qed.
(** ** Where parsing reads the symbol table *)

Section Retable.

Variable cat : Catalog.
Variable t : SymbolTableType.

Local Abbreviation r := (retable t).
Local Abbreviation kept := (returns_kept cat t).

Lemma retable_is_Expression item : is_Expression (r item) = is_Expression item.
Proof. destruct item; reflexivity. Qed.

Lemma kept_item_matcher item :
  kept item -> item_matcher cat (r item) = item_matcher cat item.
Proof.
  intros H. unfold item_matcher. rewrite retable_is_Expression, H.
  destruct item; reflexivity.
Qed.

Lemma kept_Compound cls targets : kept (Compound cls targets).
Proof. reflexivity. Qed.

Lemma scan_parentheses_retable tokens i sub_exps stack :
  scan_parentheses (r <$> tokens) i sub_exps stack
  = scan_parentheses tokens i sub_exps stack.
Proof.
  revert i sub_exps stack.
  induction tokens as [|tok tokens IH]; intros i sub_exps stack; [reflexivity|].
  destruct tok; simpl; try apply IH.
  destruct stack; [reflexivity | apply IH].
Qed.

Lemma py_slice_fmap {A B} (f : A -> B) (l : list A) i j :
  py_slice (f <$> l) i j = f <$> py_slice l i j.
Proof.
  unfold py_slice, slice_bound. rewrite length_fmap, fmap_take, fmap_drop.
  reflexivity.
Qed.

Lemma py_slice_kept (l : list ParseItem) i j :
  Forall kept l -> Forall kept (py_slice l i j).
Proof. intros H. unfold py_slice. apply Forall_take, Forall_drop, H. Qed.

(** Step 1 commutes with the replacement of the table when the
    recursion does, and keeps the [returns] when the recursion does. *)
Lemma splice_retable recurse recurse' tokens sub_exps i to_parse :
  (forall l, Forall kept l ->
     recurse' (r <$> l) = retable_outcome t r (recurse l)
     /\ forall e, recurse l = Return e -> kept e) ->
  Forall kept tokens -> Forall kept to_parse ->
  splice recurse' (r <$> tokens) sub_exps i (r <$> to_parse)
  = retable_outcome t (fmap r) (splice recurse tokens sub_exps i to_parse)
  /\ forall out, splice recurse tokens sub_exps i to_parse = Return out ->
       Forall kept out.
Proof.
  intros Hrec Htok. revert i to_parse.
  induction sub_exps as [|sub_exp sub_exps IH]; intros i to_parse Hkept;
    cbn [splice].
  { split; [reflexivity|]. intros out [= <-]. exact Hkept. }
  assert (Hkept' : Forall kept (to_parse ++ py_slice tokens i (sub_exp.1))).
  { apply Forall_app. split; [exact Hkept | apply py_slice_kept, Htok]. }
  pose proof (py_slice_kept tokens (sub_exp.1 + 1) (sub_exp.2) Htok) as Hsub.
  rewrite !py_slice_fmap, <- fmap_app.
  destruct (py_slice tokens (sub_exp.1 + 1) (sub_exp.2)) as [|x sublist] eqn:Hs.
  - apply IH, Hkept'.
  - rewrite fmap_cons. cbv iota. rewrite <- fmap_cons.
    destruct (Hrec (x :: sublist) Hsub) as [Heq Hret]. rewrite Heq.
    destruct (recurse (x :: sublist)) as [e| |]; simpl;
      [|split; [reflexivity | discriminate]..].
    assert (Hnext : Forall kept ((to_parse ++ py_slice tokens i (sub_exp.1)) ++ [e])).
    { apply Forall_app. split; [exact Hkept'|].
      constructor; [apply Hret; reflexivity | constructor]. }
    destruct (IH (sub_exp.2 + 1) _ Hnext) as [IHeq IHret].
    split; [|exact IHret]. rewrite <- IHeq, !fmap_app. reflexivity.
Qed.

(** The walk reads an element through its [item_matcher] only. *)
Lemma is_match_retable n items targets expr_type :
  Forall kept items ->
  is_match cat n (r <$> items) (r <$> targets) expr_type
  = retable_outcome t (option_map (fun '(ts, cls) => (r <$> ts, cls)))
      (is_match cat n items targets expr_type).
Proof.
  intros Hkept. revert n targets expr_type.
  induction Hkept as [|item items Hitem _ IH]; intros n targets expr_type.
  - simpl. destruct (is_end n); [destruct expr_type|]; reflexivity.
  - rewrite fmap_cons. cbn [is_match].
    destruct (is_end n); [destruct expr_type; reflexivity|].
    rewrite kept_item_matcher by exact Hitem.
    destruct (item_matcher cat item ≫= _) as [child|]; [|reflexivity].
    assert (Hsnoc : (r <$> targets) ++ [r item] = r <$> (targets ++ [item])).
    { rewrite fmap_app. reflexivity. }
    rewrite Hsnoc. destruct item; cbn [retable]; try apply IH.
    destruct (TOKEN_TO_CLASS cat !! operator); [apply IH | reflexivity].
Qed.

Lemma match_from_retable trie items i :
  Forall kept items ->
  match_from cat trie (r <$> items) i
  = retable_outcome t (retable_match t) (match_from cat trie items i).
Proof.
  intros Hkept. revert i.
  induction Hkept as [|item items Hitem Hkept IH]; intros i; [reflexivity|].
  rewrite fmap_cons. cbn [match_from]. rewrite <- fmap_cons.
  pose proof (is_match_retable trie (item :: items) [] None
                (Forall_cons_2 _ _ _ Hitem Hkept)) as Hm.
  rewrite fmap_nil in Hm. rewrite Hm.
  destruct (is_match cat trie (item :: items) [] None) as [[[ts cls]|]| |];
    simpl; try reflexivity.
  apply IH.
Qed.

(** What a fold puts into the sequence is an instance of a class. *)
Lemma match_from_Compound trie items i0 i j e :
  match_from cat trie items i0 = Return (Some (i, j, e)) ->
  exists cls targets, e = Compound cls targets.
Proof.
  revert i0. induction items as [|item items IH]; intros i0 H; [discriminate|].
  cbn [match_from] in H.
  destruct (is_match cat trie (item :: items) [] None) as [[[ts cls]|]| |];
    cbn [bind] in H; try discriminate.
  - injection H as _ _ <-. eauto.
  - eapply IH, H.
Qed.

Lemma fold_tier_retable budget to_parse expressions :
  Forall kept to_parse ->
  fold_tier cat budget (r <$> to_parse) expressions
  = retable_outcome t (fmap r) (fold_tier cat budget to_parse expressions)
  /\ forall out, fold_tier cat budget to_parse expressions = Return out ->
       Forall kept out.
Proof.
  revert to_parse. induction budget as [|budget IH]; intros to_parse Hkept.
  { split; [reflexivity | discriminate]. }
  cbn [fold_tier]. unfold _match. rewrite match_from_retable by exact Hkept.
  destruct (match_from cat _ to_parse 0) as [[[[i j] e]|]| |] eqn:Hm; simpl.
  - apply match_from_Compound in Hm as (cls & targets & ->).
    assert (Hnext : Forall kept
                      (take i to_parse ++ Compound cls targets :: drop j to_parse)).
    { apply Forall_app. split; [apply Forall_take, Hkept|].
      constructor; [apply kept_Compound | apply Forall_drop, Hkept]. }
    destruct (IH _ Hnext) as [IHeq IHret]. split; [|exact IHret].
    rewrite <- IHeq, fmap_app, fmap_cons, fmap_take, fmap_drop. reflexivity.
  - split; [reflexivity|]. intros out [= <-]. exact Hkept.
  - split; [reflexivity | discriminate].
  - split; [reflexivity | discriminate].
Qed.

Lemma fold_tiers_retable budget to_parse tiers :
  Forall kept to_parse ->
  fold_tiers cat budget (r <$> to_parse) tiers
  = retable_outcome t (fmap r) (fold_tiers cat budget to_parse tiers)
  /\ forall out, fold_tiers cat budget to_parse tiers = Return out ->
       Forall kept out.
Proof.
  revert to_parse. induction tiers as [|tier tiers IH]; intros to_parse Hkept.
  { split; [reflexivity|]. intros out [= <-]. exact Hkept. }
  cbn [fold_tiers].
  destruct (fold_tier_retable budget to_parse tier Hkept) as [Heq Hret].
  rewrite Heq.
  destruct (fold_tier cat budget to_parse tier) as [mid| |]; simpl;
    [|split; [reflexivity | discriminate]..].
  apply IH, Hret. reflexivity.
Qed.

Lemma end_of_parse_retable to_parse :
  end_of_parse (r <$> to_parse) = retable_outcome t r (end_of_parse to_parse).
Proof.
  destruct to_parse as [|e [|e' l]]; try reflexivity.
  simpl. rewrite retable_is_Expression. destruct (is_Expression e); reflexivity.
Qed.

Lemma end_of_parse_kept to_parse e :
  Forall kept to_parse -> end_of_parse to_parse = Return e -> kept e.
Proof.
  intros Hkept H. destruct to_parse as [|e' [|e'' l]]; try discriminate.
  simpl in H. destruct (is_Expression e'); [|discriminate].
  injection H as <-. apply Forall_cons in Hkept as [Hkept _]. exact Hkept.
Qed.

(** [_build_ast] commutes with the replacement of the table in its
    tokens when that replacement keeps the [returns] of each of them;
    its own table argument is only handed to the recursion. *)
Lemma _build_ast_retable budget tokens t1 t2 :
  Forall kept tokens ->
  _build_ast cat budget (r <$> tokens) t2
  = retable_outcome t r (_build_ast cat budget tokens t1)
  /\ forall e, _build_ast cat budget tokens t1 = Return e -> kept e.
Proof.
  revert tokens. induction budget as [|budget IH]; intros tokens Hkept.
  { split; [reflexivity | discriminate]. }
  rewrite !_build_ast_unfold. unfold resolve, _get_subexpressions.
  rewrite scan_parentheses_retable, length_fmap.
  destruct (scan_parentheses tokens 0 [] []) as [found|e|] eqn:Hscan;
    [|apply scan_parentheses_Raise in Hscan as [-> | ->];
      (split; [reflexivity | discriminate])
     |split; [reflexivity | discriminate]].
  cbn [bind].
  change (@nil ParseItem) with (r <$> @nil ParseItem) at 1.
  destruct (splice_retable (fun l => _build_ast cat budget l t1)
              (fun l => _build_ast cat budget l t2) tokens
              ([(-2, -1)] ++ found
               ++ [(Z.of_nat (length tokens), Z.of_nat (length tokens) + 1)])
              (-2) [] IH Hkept (Forall_nil_2 _)) as [Heq Hret].
  rewrite Heq.
  destruct (splice _ tokens _ (-2) []) as [to_parse| |];
    [|split; [reflexivity | discriminate]..].
  cbn [bind retable_outcome].
  destruct (fold_tiers_retable budget to_parse (order_of_operations cat)
              (Hret _ eq_refl)) as [Hfold Hfret].
  rewrite Hfold.
  destruct (fold_tiers cat budget to_parse _) as [residual| |];
    [|split; [reflexivity | discriminate]..].
  cbn [bind retable_outcome]. split; [apply end_of_parse_retable|].
  intros e. apply end_of_parse_kept, Hfret. reflexivity.
Qed.

Lemma classify_retable token_str t1 :
  classify cat token_str t = r (classify cat token_str t1).
Proof.
  unfold classify.
  destruct (BooleanLiteral_allows cat token_str); [reflexivity|].
  destruct (NumericLiteral_allows cat token_str); reflexivity.
Qed.

Lemma tokenize_loop_retable budget s t1 tokens :
  tokenize_loop cat budget s t (r <$> tokens)
  = retable_outcome t (fmap r) (tokenize_loop cat budget s t1 tokens).
Proof.
  revert s tokens. induction budget as [|budget IH]; intros s tokens.
  - destruct s; reflexivity.
  - destruct s as [|c s]; [reflexivity|]. cbn [tokenize_loop].
    destruct (negb (language cat c)); [reflexivity|].
    destruct (parantheses c).
    { rewrite <- IH, fmap_app. do 2 f_equal. simpl. f_equal.
      unfold PARANTHESES_TO_CLASS. destruct (bool_decide _); reflexivity. }
    destruct (operation_symbols cat c).
    { destruct (_match_op_symbol cat [] (c :: s)) as [sym rest].
      rewrite <- IH, fmap_app. reflexivity. }
    unfold _match_literal_or_var.
    destruct (literal_run allowed_symbols (c :: s)) as [run rest].
    assert (Hnext : tokenize_loop cat budget rest t
                      ((r <$> tokens)
                       ++ [classify cat (string_of_list_ascii run) t])
                    = retable_outcome t (fmap r)
                        (tokenize_loop cat budget rest t1
                           (tokens ++ [classify cat (string_of_list_ascii run) t1]))).
    { rewrite <- IH, fmap_app. do 2 f_equal. simpl. f_equal.
      apply classify_retable. }
    destruct rest as [|c' rest]; [exact Hnext|].
    destruct (language cat c'); [exact Hnext | reflexivity].
Qed.

(** The lexer stores the table and does not read it. *)
Lemma _tokenize_retable input t1 :
  _tokenize cat input t
  = retable_outcome t (fmap r) (_tokenize cat input t1).
Proof.
  unfold _tokenize.
  change (@nil ParseItem) with (r <$> @nil ParseItem) at 1.
  apply tokenize_loop_retable.
Qed.

Lemma parse_retable budget input t1 :
  (forall tokens, _tokenize cat input t1 = Return tokens -> Forall kept tokens) ->
  parse cat budget input t
  = retable_outcome t r (parse cat budget input t1).
Proof.
  intros Hkept. unfold parse. rewrite (_tokenize_retable input t1).
  destruct (_tokenize cat input t1) as [tokens| |]; try reflexivity.
  cbn [bind retable_outcome]. apply _build_ast_retable, Hkept. reflexivity.
Qed.

End Retable.

(** ** The exceptions of parsing *)

Section ParseErrors.

Variable cat : Catalog.

Lemma registered_is_Expression item :
  is_Expression item = true -> registered cat item.
Proof. destruct item; simpl; intros H; try exact I. discriminate. Qed.

Lemma is_match_Raise n items targets expr_type e :
  Forall (registered cat) items ->
  is_match cat n items targets expr_type = Raise e -> e = MatchError.
Proof.
  intros Hreg. revert n targets expr_type.
  induction Hreg as [|item items Hitem _ IH]; intros n targets expr_type H.
  - simpl in H. destruct (is_end n); [destruct expr_type|]; congruence.
  - cbn [is_match] in H.
    destruct (is_end n); [destruct expr_type; congruence|].
    destruct (item_matcher cat item ≫= _) as [child|]; [|discriminate].
    destruct item; try (eapply IH; exact H).
    destruct Hitem as [cls Hcls]. rewrite Hcls in H. eapply IH; exact H.
Qed.

Lemma match_from_Raise trie items i e :
  Forall (registered cat) items ->
  match_from cat trie items i = Raise e -> e = MatchError.
Proof.
  intros Hreg. revert i.
  induction items as [|item items IH]; intros i H; [discriminate|].
  cbn [match_from] in H.
  destruct (is_match cat trie (item :: items) [] None) as [[[ts cls]|]|e'|] eqn:Hm;
    cbn [bind] in H; try discriminate.
  - apply IH in H; [exact H|]. apply Forall_cons in Hreg as [_ Hreg]. exact Hreg.
  - injection H as <-. eapply is_match_Raise; eassumption.
Qed.

Lemma match_from_Return trie items i m :
  match_from cat trie items i = Return (Some m) ->
  is_Expression m.2 = true.
Proof.
  revert i. induction items as [|item items IH]; intros i H; [discriminate|].
  cbn [match_from] in H.
  destruct (is_match cat trie (item :: items) [] None) as [[[ts cls]|]|e'|];
    cbn [bind] in H; try discriminate.
  - injection H as <-. reflexivity.
  - eapply IH; exact H.
Qed.

Lemma fold_tier_registered budget to_parse expressions :
  Forall (registered cat) to_parse ->
  match fold_tier cat budget to_parse expressions with
  | Return to_parse' => Forall (registered cat) to_parse'
  | Raise e => e = MatchError
  | Diverge => True
  end.
Proof.
  revert to_parse. induction budget as [|budget IH]; intros to_parse Hreg;
    [exact I|].
  cbn [fold_tier]. unfold _match.
  destruct (match_from cat _ to_parse 0) as [[[[i j] x]|]|e|] eqn:Hm;
    cbn [bind]; try exact I.
  - apply IH. apply Forall_app. split; [apply Forall_take, Hreg|].
    apply Forall_cons. split; [|apply Forall_drop, Hreg].
    apply registered_is_Expression.
    apply (match_from_Return _ _ _ _ Hm).
  - exact Hreg.
  - eapply match_from_Raise; eassumption.
Qed.

Lemma fold_tiers_registered budget to_parse tiers :
  Forall (registered cat) to_parse ->
  match fold_tiers cat budget to_parse tiers with
  | Return to_parse' => Forall (registered cat) to_parse'
  | Raise e => e = MatchError
  | Diverge => True
  end.
Proof.
  revert to_parse. induction tiers as [|tier tiers IH]; intros to_parse Hreg;
    [exact Hreg|].
  cbn [fold_tiers].
  pose proof (fold_tier_registered budget to_parse tier Hreg) as Ht.
  destruct (fold_tier cat budget to_parse tier); cbn [bind];
    [apply IH, Ht | exact Ht | exact I].
Qed.

Lemma end_of_parse_well to_parse : parses_well (end_of_parse to_parse).
Proof.
  destruct to_parse as [|e [|e' l]]; simpl; try exact I.
  destruct (is_Expression e) eqn:He; simpl; [exact He | exact I].
Qed.

Lemma py_slice_Forall {A} (P : A -> Prop) (l : list A) i j :
  Forall P l -> Forall P (py_slice l i j).
Proof. intros H. unfold py_slice. apply Forall_take, Forall_drop, H. Qed.

Lemma splice_registered recurse tokens sub_exps i to_parse :
  (forall l, Forall (registered cat) l -> parses_well (recurse l)) ->
  Forall (registered cat) tokens -> Forall (registered cat) to_parse ->
  match splice recurse tokens sub_exps i to_parse with
  | Return to_parse' => Forall (registered cat) to_parse'
  | Raise e => parse_error e
  | Diverge => True
  end.
Proof.
  intros Hrec Htok. revert i to_parse.
  induction sub_exps as [|sub_exp sub_exps IH]; intros i to_parse Hreg;
    cbn [splice]; [exact Hreg|].
  assert (Hreg' : Forall (registered cat)
                    (to_parse ++ py_slice tokens i (sub_exp.1))).
  { apply Forall_app. split; [exact Hreg | apply py_slice_Forall, Htok]. }
  pose proof (py_slice_Forall _ tokens (sub_exp.1 + 1) (sub_exp.2) Htok) as Hsub.
  destruct (py_slice tokens (sub_exp.1 + 1) (sub_exp.2)) as [|x sublist].
  - apply IH, Hreg'.
  - specialize (Hrec (x :: sublist) Hsub).
    destruct (recurse (x :: sublist)) as [e|e|]; cbn [bind];
      [|exact Hrec | exact I].
    apply IH. apply Forall_app. split; [exact Hreg'|].
    apply Forall_cons. split; [|constructor].
    apply registered_is_Expression, Hrec.
Qed.

Lemma _build_ast_well budget tokens symbol_table :
  Forall (registered cat) tokens ->
  parses_well (_build_ast cat budget tokens symbol_table).
Proof.
  revert tokens. induction budget as [|budget IH]; intros tokens Hreg;
    [exact I|].
  rewrite _build_ast_unfold. unfold resolve, _get_subexpressions.
  destruct (scan_parentheses tokens 0 [] []) as [found|e|] eqn:Hscan;
    cbn [bind]; [| |exact I].
  2:{ apply scan_parentheses_Raise in Hscan as [-> | ->]; exact I. }
  pose proof (splice_registered
                (fun l => _build_ast cat budget l symbol_table) tokens
                ([(-2, -1)] ++ found
                 ++ [(Z.of_nat (length tokens), Z.of_nat (length tokens) + 1)])
                (-2) []) as Hs.
  specialize (Hs IH Hreg (Forall_nil_2 _)).
  destruct (splice _ tokens _ (-2) []) as [to_parse|e|]; cbn [bind];
    [|exact Hs | exact I].
  pose proof (fold_tiers_registered budget to_parse (order_of_operations cat) Hs)
    as Ht.
  destruct (fold_tiers cat budget to_parse _) as [residual|e|]; cbn [bind];
    [apply end_of_parse_well | subst e; exact I | exact I].
Qed.

Lemma tokenize_loop_registered budget s symbol_table tokens :
  Forall (registered cat) tokens ->
  match tokenize_loop cat budget s symbol_table tokens with
  | Return tokens' => Forall (registered cat) tokens'
  | _ => True
  end.
Proof.
  revert s tokens. induction budget as [|budget IH]; intros s tokens Hreg.
  - destruct s; [exact Hreg | exact I].
  - destruct s as [|c s]; [exact Hreg|]. cbn [tokenize_loop].
    destruct (negb (language cat c)); [exact I|].
    assert (Hsnoc : forall tok, registered cat tok ->
                      Forall (registered cat) (tokens ++ [tok])).
    { intros tok Htok. apply Forall_app. split; [exact Hreg|].
      apply Forall_cons. split; [exact Htok | constructor]. }
    destruct (parantheses c).
    { apply IH, Hsnoc. unfold PARANTHESES_TO_CLASS.
      destruct (bool_decide _); exact I. }
    destruct (operation_symbols cat c) eqn:Hop.
    { destruct (_match_op_symbol cat [] (c :: s)) as [sym rest] eqn:Hm.
      apply _match_op_symbol_first in Hm as (_ & _ & Hsym); [|exact Hop].
      apply IH, Hsnoc. simpl. apply bool_decide_eq_true in Hsym. exact Hsym. }
    destruct (_match_literal_or_var cat allowed_symbols (c :: s))
      as [[run rest]| |]; cbn [bind]; try exact I.
    apply IH, Hsnoc. unfold classify.
    destruct (BooleanLiteral_allows cat _); [exact I|].
    destruct (NumericLiteral_allows cat _); exact I.
Qed.

(** Parsing raises only the five declared kinds of exception, returns
    only an [Expression], and never uses up the budget of the lexer. *)
Lemma parse_well budget input symbol_table :
  parses_well (parse cat budget input symbol_table).
Proof.
  unfold parse, _tokenize.
  pose proof (tokenize_loop_registered
                (length (remove_whitespace (chars input)))
                (remove_whitespace (chars input)) symbol_table []
                (Forall_nil_2 _)) as Hreg.
  destruct (tokenize_loop cat _ _ symbol_table []) as [tokens|e|] eqn:Htok;
    cbn [bind].
  - apply _build_ast_well, Hreg.
  - apply tokenize_loop_Raise in Htok as [-> _]. exact I.
  - exact I.
Qed.

End ParseErrors.




(** ** The outermost groups of a balanced sequence *)

Section Groups.

Implicit Types (gs : list (list ParseItem * list ParseItem)).
Implicit Types (tokens tail inner p : list ParseItem).

Lemma flat_app gs gs' tail : flat (gs ++ gs') tail = flat gs (flat gs' tail).
Proof.
  induction gs as [|[p inner] gs IH]; [reflexivity|].
  simpl. rewrite IH. reflexivity.
Qed.

Lemma flat_app_tail gs tail rest : flat gs tail ++ rest = flat gs (tail ++ rest).
Proof.
  induction gs as [|[p inner] gs IH]; [reflexivity|].
  simpl. rewrite <- !app_assoc. simpl. rewrite <- !app_assoc. simpl.
  rewrite IH. reflexivity.
Qed.

(** A balanced sequence is made of outermost groups and runs. *)
Lemma balanced_flat tokens :
  balanced tokens ->
  exists gs tail, tokens = flat gs tail /\ outermost gs /\ plain tail.
Proof.
  induction 1 as [|tok l Htok _ (gs & tail & -> & Hgs & Htail)
                  |inner l Hinner _ _ (gs & tail & -> & Hgs & Htail)].
  - exists [], []. repeat split; constructor.
  - destruct gs as [|[p inner] gs].
    + exists [], (tok :: tail). repeat split; [constructor|].
      constructor; assumption.
    + exists ((tok :: p, inner) :: gs), tail. repeat split; [|exact Htail].
      apply Forall_cons in Hgs as [[Hp Hin] Hgs].
      constructor; [|exact Hgs]. split; [|exact Hin].
      constructor; assumption.
  - exists (([], inner) :: gs), tail. repeat split; [|exact Htail].
    constructor; [|exact Hgs]. split; [constructor | exact Hinner].
Qed.

Lemma balanced_app l1 l2 : balanced l1 -> balanced l2 -> balanced (l1 ++ l2).
Proof.
  induction 1 as [|tok l Htok _ IH|inner l Hinner _ _ IH]; intros H2.
  - exact H2.
  - simpl. apply balanced_token; auto.
  - simpl. rewrite <- app_assoc. simpl. apply balanced_group; auto.
Qed.

Lemma balanced_plain tail : plain tail -> balanced tail.
Proof. induction 1; [constructor | apply balanced_token; assumption]. Qed.

Lemma flat_balanced gs tail : outermost gs -> plain tail -> balanced (flat gs tail).
Proof.
  intros Hgs Htail. induction Hgs as [|[p inner] gs [Hp Hin] _ IH]; simpl.
  - apply balanced_plain, Htail.
  - apply balanced_app; [apply balanced_plain, Hp|].
    apply balanced_group; assumption.
Qed.

(** *** The scan over runs, interiors and groups *)

Lemma scan_plain p rest i sub_exps stack :
  plain p ->
  scan_parentheses (p ++ rest) i sub_exps stack
  = scan_parentheses rest (i + Z.of_nat (length p)) sub_exps stack.
Proof.
  intros Hp. revert i. induction Hp as [|tok p Htok _ IH]; intros i.
  - simpl. f_equal. lia.
  - cbn [app length]. replace (i + Z.of_nat (S (length p)))
      with (i + 1 + Z.of_nat (length p)) by lia.
    rewrite <- IH. destruct tok; try discriminate; reflexivity.
Qed.

(** Below an open parenthesis a balanced interior leaves the stack and
    the recorded pairs as they were: nested groups are not recorded. *)
Lemma scan_inner inner rest i sub_exps start_idx stack :
  balanced inner ->
  scan_parentheses (inner ++ rest) i sub_exps (start_idx :: stack)
  = scan_parentheses rest (i + Z.of_nat (length inner)) sub_exps
      (start_idx :: stack).
Proof.
  intros Hin. revert rest i start_idx stack.
  induction Hin as [|tok l Htok _ IH|inner l _ IHin _ IHl];
    intros rest i start_idx stack.
  - simpl. f_equal. lia.
  - cbn [app length]. replace (i + Z.of_nat (S (length l)))
      with (i + 1 + Z.of_nat (length l)) by lia.
    rewrite <- IH. destruct tok; try discriminate; reflexivity.
  - cbn [app scan_parentheses]. rewrite <- app_assoc. cbn [app].
    rewrite IHin. cbn [scan_parentheses]. rewrite IHl.
    f_equal. cbn [length]. rewrite length_app. cbn [length]. lia.
Qed.

(** At depth zero each group is recorded when its parenthesis closes. *)
Lemma scan_flat gs rest i sub_exps :
  outermost gs ->
  scan_parentheses (flat gs rest) i sub_exps []
  = scan_parentheses rest (i + flat_length gs) (sub_exps ++ spans i gs) [].
Proof.
  intros Hgs. revert i sub_exps.
  induction Hgs as [|[p inner] gs [Hp Hin] _ IH]; intros i sub_exps.
  - unfold flat_length. simpl. rewrite app_nil_r. f_equal. lia.
  - cbn [flat spans fst snd] in *. rewrite scan_plain by exact Hp.
    cbn [scan_parentheses]. rewrite scan_inner by exact Hin.
    cbn [scan_parentheses]. rewrite IH. f_equal.
    + unfold flat_length. cbn [flat]. rewrite !length_app. cbn [length].
      rewrite !length_app. cbn [length]. lia.
    + rewrite <- app_assoc. reflexivity.
Qed.

(** *** Slices *)

Lemma slice_bound_inside {A} (l : list A) i :
  0 <= i <= Z.of_nat (length l) -> slice_bound l i = Z.to_nat i.
Proof.
  intros Hi. unfold slice_bound.
  destruct (Z.ltb_spec i 0); [lia|]. f_equal. lia.
Qed.

Lemma py_slice_same {A} (l : list A) i : py_slice l i i = [].
Proof. unfold py_slice. rewrite Nat.sub_diag. reflexivity. Qed.

Lemma py_slice_middle {A} (l l1 l2 l3 : list A) i j :
  l = l1 ++ l2 ++ l3 ->
  i = Z.of_nat (length l1) -> j = i + Z.of_nat (length l2) ->
  py_slice l i j = l2.
Proof.
  intros -> -> ->. unfold py_slice.
  rewrite !slice_bound_inside by (rewrite !length_app; lia).
  rewrite Nat2Z.id.
  replace (Z.to_nat (Z.of_nat (length l1) + Z.of_nat (length l2)) - length l1)%nat
    with (length l2) by lia.
  rewrite drop_app_length, take_app_length. reflexivity.
Qed.

(** *** Step 1 over the groups *)

Lemma splice_flat recurse tokens done gs tail i acc n :
  tokens = done ++ flat gs tail ->
  i = Z.of_nat (length done) -> n = Z.of_nat (length tokens) ->
  splice recurse tokens (spans i gs ++ [(n, n + 1)]) i acc
  = let* out := resolved recurse gs tail in Return (acc ++ out).
Proof.
  revert done i acc.
  induction gs as [|[p inner] gs IH]; intros done i acc Htok Hi Hn.
  - cbn [spans app splice flat resolved bind fst snd] in *.
    rewrite py_slice_same.
    rewrite (py_slice_middle tokens done tail [] i n);
      [reflexivity | rewrite app_nil_r; exact Htok | exact Hi |].
    subst. rewrite length_app. lia.
  - cbn [spans app splice flat resolved fst snd] in *.
    set (a := i + Z.of_nat (length p)) in *.
    set (b := a + 1 + Z.of_nat (length inner)) in *.
    rewrite (py_slice_middle tokens done p
               (LeftParanthesis :: inner ++ RightParanthesis :: flat gs tail) i a)
      by (assumption || reflexivity).
    rewrite (py_slice_middle tokens (done ++ p ++ [LeftParanthesis]) inner
               (RightParanthesis :: flat gs tail) (a + 1) b).
    2:{ rewrite Htok, <- !app_assoc. reflexivity. }
    2:{ rewrite !length_app. cbn [length]. lia. }
    2:{ reflexivity. }
    assert (Hnext : forall acc',
              splice recurse tokens (spans (b + 1) gs ++ [(n, n + 1)]) (b + 1) acc'
              = let* out := resolved recurse gs tail in Return (acc' ++ out)).
    { intros acc'.
      apply (IH (done ++ p ++ LeftParanthesis :: inner ++ [RightParanthesis]));
        [|rewrite !length_app; cbn [length]; rewrite length_app; cbn [length]; lia
         |exact Hn].
      rewrite Htok, <- !app_assoc. cbn [app]. rewrite <- !app_assoc. reflexivity. }
    destruct inner as [|x inner].
    + rewrite Hnext. destruct (resolved recurse gs tail); cbn [bind];
        try reflexivity.
      rewrite <- app_assoc. reflexivity.
    + destruct (recurse (x :: inner)) as [e| |]; cbn [bind]; try reflexivity.
      rewrite Hnext. destruct (resolved recurse gs tail); cbn [bind];
        try reflexivity.
      rewrite <- !app_assoc. reflexivity.
Qed.

(** Step 1 on a sequence of outermost groups. *)
Lemma resolve_flat recurse gs tail :
  outermost gs -> plain tail ->
  _get_subexpressions (flat gs tail) = Return (spans 0 gs)
  /\ resolve recurse (flat gs tail) = resolved recurse gs tail.
Proof.
  intros Hgs Htail.
  assert (Hscan : _get_subexpressions (flat gs tail) = Return (spans 0 gs)).
  { unfold _get_subexpressions. rewrite scan_flat by exact Hgs.
    rewrite <- (app_nil_r tail), scan_plain by exact Htail. reflexivity. }
  split; [exact Hscan|].
  unfold resolve. rewrite Hscan. cbn [bind app splice fst snd].
  change (-2 + 1) with (-1). rewrite !py_slice_same. change (-1 + 1) with 0.
  rewrite (splice_flat recurse (flat gs tail) [] gs tail 0 []
             (Z.of_nat (length (flat gs tail)))) by reflexivity.
  destruct (resolved recurse gs tail); reflexivity.
Qed.

(** *** Sequences the scan accepts *)

Lemma closes_token h tok l :
  is_parenthesis tok = false -> closes h l -> closes h (tok :: l).
Proof.
  intros Htok. destruct h as [|h]; simpl.
  - apply balanced_token, Htok.
  - intros (inner & rest & -> & Hin & Hrest).
    exists (tok :: inner), rest. repeat split; [|exact Hrest].
    apply balanced_token; assumption.
Qed.

Lemma closes_open h l : closes (S h) l -> closes h (LeftParanthesis :: l).
Proof.
  intros (inner & rest & -> & Hin & Hrest). destruct h as [|h]; simpl in *.
  - apply balanced_group; assumption.
  - destruct Hrest as (inner' & rest' & -> & Hin' & Hrest').
    exists (LeftParanthesis :: inner ++ RightParanthesis :: inner'), rest'.
    repeat split; [|apply balanced_group; assumption | exact Hrest'].
    cbn [app]. rewrite <- app_assoc. reflexivity.
Qed.

Lemma scan_Return_closes tokens i sub_exps stack found :
  scan_parentheses tokens i sub_exps stack = Return found ->
  closes (length stack) tokens.
Proof.
  revert i sub_exps stack.
  induction tokens as [|tok tokens IH]; intros i sub_exps stack H.
  - destruct stack; [constructor | discriminate].
  - destruct tok; cbn [scan_parentheses] in H;
      try (apply closes_token; [reflexivity | eapply IH; exact H]).
    + apply closes_open. apply IH in H. exact H.
    + destruct stack as [|start_idx stack]; [discriminate|].
      apply IH in H. cbn [length closes].
      exists [], tokens. repeat split; [constructor | exact H].
Qed.

Lemma _get_subexpressions_balanced tokens found :
  _get_subexpressions tokens = Return found -> balanced tokens.
Proof. intros H. apply scan_Return_closes in H. exact H. Qed.

Lemma scan_Raise_indep tokens i sub_exps stack i' sub_exps' stack' e :
  length stack = length stack' ->
  scan_parentheses tokens i sub_exps stack = Raise e ->
  scan_parentheses tokens i' sub_exps' stack' = Raise e.
Proof.
  revert i sub_exps stack i' sub_exps' stack'.
  induction tokens as [|tok tokens IH];
    intros i sub_exps stack i' sub_exps' stack' Hlen H.
  - destruct stack, stack'; try discriminate. exact H.
  - destruct tok; cbn [scan_parentheses] in *;
      try (eapply IH; [exact Hlen | exact H]).
    + eapply IH; [|exact H]. cbn [length]. congruence.
    + destruct stack, stack'; try discriminate; [exact H|].
      eapply IH; [|exact H]. cbn [length] in Hlen. congruence.
Qed.

Lemma scan_settled tokens i sub_exps stack :
  settled (scan_parentheses tokens i sub_exps stack).
Proof.
  revert i sub_exps stack.
  induction tokens as [|tok tokens IH]; intros i sub_exps stack.
  - destruct stack; discriminate.
  - destruct tok; cbn [scan_parentheses]; try apply IH.
    destruct stack; [discriminate | apply IH].
Qed.

(** *** The sequence read off the groups *)

Lemma resolved_app recurse gs gs' tail :
  resolved recurse (gs ++ gs') tail
  = let* a := resolved recurse gs [] in
    let* b := resolved recurse gs' tail in
    Return (a ++ b).
Proof.
  induction gs as [|[p inner] gs IH].
  - simpl. destruct (resolved recurse gs' tail); reflexivity.
  - cbn [app resolved]. rewrite IH.
    destruct inner as [|x inner].
    + destruct (resolved recurse gs []); cbn [bind]; try reflexivity.
      destruct (resolved recurse gs' tail); cbn [bind]; try reflexivity.
      rewrite <- app_assoc. reflexivity.
    + destruct (recurse (x :: inner)); cbn [bind]; try reflexivity.
      destruct (resolved recurse gs []); cbn [bind]; try reflexivity.
      destruct (resolved recurse gs' tail); cbn [bind]; try reflexivity.
      rewrite <- app_assoc. reflexivity.
Qed.

Lemma resolved_prepend recurse run p inner gs tail :
  resolved recurse ((run ++ p, inner) :: gs) tail
  = let* rest := resolved recurse ((p, inner) :: gs) tail in
    Return (run ++ rest).
Proof.
  cbn [resolved]. destruct inner as [|x inner].
  - destruct (resolved recurse gs tail); cbn [bind]; try reflexivity.
    rewrite <- app_assoc. reflexivity.
  - destruct (recurse (x :: inner)); cbn [bind]; try reflexivity.
    destruct (resolved recurse gs tail); cbn [bind]; try reflexivity.
    rewrite <- app_assoc. reflexivity.
Qed.

Lemma resolved_no_parenthesis recurse gs tail to_parse :
  (forall l e, recurse l = Return e -> is_Expression e = true) ->
  outermost gs -> plain tail ->
  resolved recurse gs tail = Return to_parse -> plain to_parse.
Proof.
  intros Hrec Hgs Htail. revert to_parse.
  induction Hgs as [|[p inner] gs [Hp _] _ IH]; intros to_parse H.
  - injection H as <-. exact Htail.
  - cbn [resolved] in H. cbn [fst] in Hp. destruct inner as [|x inner].
    + apply bind_inv_Return in H as (rest & Hrest & [= <-]).
      apply Forall_app. split; [exact Hp | apply IH, Hrest].
    + apply bind_inv_Return in H as (e & He & H).
      apply bind_inv_Return in H as (rest & Hrest & [= <-]).
      apply Forall_app. split; [exact Hp|].
      apply Forall_cons. split; [|apply IH, Hrest].
      apply Hrec in He. destruct e; try discriminate; reflexivity.
Qed.

Lemma _build_ast_Return cat budget tokens symbol_table e :
  _build_ast cat budget tokens symbol_table = Return e -> is_Expression e = true.
Proof.
  destruct budget as [|budget]; [discriminate|]. rewrite _build_ast_unfold.
  intros H. apply bind_inv_Return in H as (to_parse & _ & H).
  apply bind_inv_Return in H as (residual & _ & H).
  destruct (end_of_parse_cases residual) as [(e' & -> & He & Heq)|[_ Heq]];
    rewrite Heq in H; [|discriminate].
  injection H as <-. exact He.
Qed.

End Groups.

Lemma balanced_iff_scan tokens :
  balanced tokens <-> exists found, _get_subexpressions tokens = Return found.
Proof.
  split.
  - intros H. apply balanced_flat in H as (gs & tail & -> & Hgs & Htail).
    exists (spans 0 gs).
    apply (resolve_flat (fun _ => Diverge) gs tail Hgs Htail).
  - intros [found H]. eapply _get_subexpressions_balanced, H.
Qed.

(** Balance counted: no prefix closes more than it opens, and the whole
    sequence opens as many parentheses as it closes. *)
Lemma balanced_iff_depth tokens :
  balanced tokens
  <-> (forall n, 0 <= depth (take n tokens)) /\ depth tokens = 0.
Proof.
  split.
  - intros H. apply balanced_iff_scan in H as [found H].
    unfold _get_subexpressions in H.
    assert (Hpre : forall n, 0 <= depth (take n tokens)).
    { intros n. destruct (Z.le_gt_cases 0 (depth (take n tokens))) as [|Hn];
        [assumption|].
      rewrite (scan_missing_left tokens 0 [] []) in H; [discriminate|].
      exists n. simpl. lia. }
    split; [exact Hpre|].
    destruct (Z.lt_trichotomy (depth tokens) 0) as [Hd|[Hd|Hd]]; [|exact Hd|].
    + specialize (Hpre (length tokens)). rewrite firstn_all in Hpre. lia.
    + destruct (scan_no_missing_left tokens []) with (i := 0)
        (sub_exps := @nil (Z * Z)) as [Hright _].
      * intros n. specialize (Hpre n). simpl. lia.
      * rewrite Hright in H; [discriminate | simpl; lia].
  - intros [Hpre Hd]. apply balanced_iff_scan.
    destruct (scan_no_missing_left tokens []) with (i := 0)
      (sub_exps := @nil (Z * Z)) as [_ Hret].
    + intros n. specialize (Hpre n). simpl. lia.
    + apply Hret. simpl. lia.
Qed.

(** C8. The sequences the scan accepts are the balanced ones (by the
    grammar, or counted on prefixes), and a balanced sequence is made
    of outermost groups between runs of tokens that are no
    parentheses.  On such a sequence the pairs
    recorded are the index pairs of the outermost groups and of no
    nested group; the sequence handed to the matcher keeps the runs as
    they are and in place, holds nothing for a group with an empty
    interior and, for any other group, the one [Expression] that
    [_build_ast] returns for its interior; it holds no parenthesis. *)
Theorem C8_outermost_groups_resolved :
  (forall tokens,
     balanced tokens <-> exists found, _get_subexpressions tokens = Return found)
  /\ (forall tokens,
        balanced tokens
        <-> (forall n, 0 <= depth (take n tokens)) /\ depth tokens = 0)
  /\ (forall tokens,
        balanced tokens ->
        exists gs tail, tokens = flat gs tail /\ outermost gs /\ plain tail)
  /\ (forall cat budget symbol_table gs tail,
        outermost gs -> plain tail ->
        let recurse := fun sublist => _build_ast cat budget sublist symbol_table in
        _get_subexpressions (flat gs tail) = Return (spans 0 gs)
        /\ resolve recurse (flat gs tail) = resolved recurse gs tail
        /\ (forall to_parse,
              resolve recurse (flat gs tail) = Return to_parse ->
              plain to_parse)).
Proof.
  split; [exact balanced_iff_scan|]. split; [exact balanced_iff_depth|].
  split; [exact balanced_flat|].
  intros cat budget symbol_table gs tail Hgs Htail recurse.
  destruct (resolve_flat recurse gs tail Hgs Htail) as [Hscan Hres].
  split; [exact Hscan|]. split; [exact Hres|].
  intros to_parse H. rewrite Hres in H.
  eapply resolved_no_parenthesis; [|exact Hgs | exact Htail | exact H].
  intros l e. apply _build_ast_Return.
Qed.

(** "A&(B)(())": the group of [B] leaves the identifier, the group
    nested in the last one is not recorded. *)
Lemma C8_outermost_groups_resolved_witness :
  _get_subexpressions
    (flat [([Identifier "A" ∅; Operator "&"], [Identifier "B" ∅]);
           ([], [LeftParanthesis; RightParanthesis])] [])
  = Return [(2, 4); (5, 8)]
  /\ resolve (fun sublist => _build_ast spec_catalog 2 sublist ∅)
       (flat [([Identifier "A" ∅; Operator "&"], [Identifier "B" ∅]);
              ([], [LeftParanthesis; RightParanthesis])] [])
     = Raise (InvalidExpression []).
Proof.
  destruct (proj2 (proj2 (proj2 C8_outermost_groups_resolved)) spec_catalog 2%nat ∅
              [([Identifier "A" ∅; Operator "&"], [Identifier "B" ∅]);
               ([], [LeftParanthesis; RightParanthesis])] [])
    as (Hscan & Hres & _).
  - constructor; [split|constructor; [split|constructor]].
    + constructor; [reflexivity|]. constructor; [reflexivity | constructor].
    + apply balanced_token; [reflexivity | constructor].
    + constructor.
    + apply (balanced_group [] []); constructor.
  - constructor.
  - split; [rewrite Hscan; reflexivity | rewrite Hres; reflexivity].
Defined.

(** ** Empty parenthesis pairs *)

Lemma resolve_empty_pair recurse l1 l2 :
  balanced l1 ->
  resolve recurse (l1 ++ [LeftParanthesis; RightParanthesis] ++ l2)
  = resolve recurse (l1 ++ l2).
Proof.
  intros H1. apply balanced_flat in H1 as (gs1 & tail1 & -> & Hgs1 & Htail1).
  assert (Hgs1' : outermost (gs1 ++ [(tail1, [])])).
  { apply Forall_app. split; [exact Hgs1|].
    repeat constructor. exact Htail1. }
  assert (Hlhs : flat gs1 tail1 ++ [LeftParanthesis; RightParanthesis] ++ l2
                 = flat (gs1 ++ [(tail1, [])]) l2).
  { rewrite flat_app_tail, flat_app. reflexivity. }
  assert (Hrhs : flat gs1 tail1 ++ l2 = flat gs1 (tail1 ++ l2)).
  { apply flat_app_tail. }
  destruct (scan_parentheses l2 0 [] []) as [found|e|] eqn:Hl2.
  - apply scan_Return_closes in Hl2. cbn [length closes] in Hl2.
    apply balanced_flat in Hl2 as (gs2 & tail2 & -> & Hgs2 & Htail2).
    rewrite Hlhs, Hrhs, <- !flat_app.
    rewrite (proj2 (resolve_flat recurse ((gs1 ++ [(tail1, [])]) ++ gs2) tail2
                      ltac:(apply Forall_app; auto) Htail2)).
    rewrite !resolved_app. cbn [resolved].
    destruct gs2 as [|[p inner] gs2].
    + cbn [flat resolved].
      rewrite (proj2 (resolve_flat recurse gs1 (tail1 ++ tail2) Hgs1
                        ltac:(apply Forall_app; auto))).
      rewrite <- (app_nil_r gs1) at 2. rewrite resolved_app. cbn [resolved].
      destruct (resolved recurse gs1 []); cbn [bind]; try reflexivity.
      rewrite app_nil_r, <- app_assoc. reflexivity.
    + apply Forall_cons in Hgs2 as [[Hp Hin] Hgs2]. cbn [fst snd] in *.
      change (tail1 ++ flat ((p, inner) :: gs2) tail2)
        with (tail1 ++ p ++ LeftParanthesis :: inner
                ++ RightParanthesis :: flat gs2 tail2).
      rewrite app_assoc.
      change ((tail1 ++ p) ++ LeftParanthesis :: inner
                ++ RightParanthesis :: flat gs2 tail2)
        with (flat ((tail1 ++ p, inner) :: gs2) tail2).
      rewrite <- flat_app.
      rewrite (proj2 (resolve_flat recurse (gs1 ++ (tail1 ++ p, inner) :: gs2)
                        tail2
                        ltac:(apply Forall_app; split; [exact Hgs1|];
                              constructor; [split; [apply Forall_app|]|]; auto)
                        Htail2)).
      rewrite resolved_app, resolved_prepend.
      destruct (resolved recurse gs1 []); cbn [bind]; try reflexivity.
      destruct (resolved recurse ((p, inner) :: gs2) tail2); cbn [bind];
        try reflexivity.
      rewrite app_nil_r, <- app_assoc. reflexivity.
  - rewrite Hlhs, Hrhs. unfold resolve, _get_subexpressions.
    rewrite !scan_flat by assumption. rewrite scan_plain by exact Htail1.
    rewrite !(scan_Raise_indep l2 0 [] [] _ _ [] e eq_refl Hl2). reflexivity.
  - exfalso. exact (scan_settled l2 0 [] [] Hl2).
Qed.


(** *** A pair inserted anywhere *)


Lemma scan_Return_indep tokens i sub_exps stack i' sub_exps' stack' found :
  length stack = length stack' ->
  scan_parentheses tokens i sub_exps stack = Return found ->
  exists found', scan_parentheses tokens i' sub_exps' stack' = Return found'.
Proof.
  revert i sub_exps stack i' sub_exps' stack'.
  induction tokens as [|tok tokens IH];
    intros i sub_exps stack i' sub_exps' stack' Hlen H.
  - destruct stack, stack'; try discriminate. simpl. eauto.
  - destruct tok; cbn [scan_parentheses] in *;
      try (eapply IH; [exact Hlen | exact H]).
    + eapply IH; [|exact H]. cbn [length]. congruence.
    + destruct stack, stack'; try discriminate.
      eapply IH; [|exact H]. cbn [length] in Hlen. congruence.
Qed.

Lemma scan_insert_pair_Raise l1 l2 i sub_exps stack i' sub_exps' stack' e :
  length stack = length stack' ->
  scan_parentheses (l1 ++ l2) i sub_exps stack = Raise e ->
  scan_parentheses (l1 ++ [LeftParanthesis; RightParanthesis] ++ l2)
    i' sub_exps' stack' = Raise e.
Proof.
  revert i sub_exps stack i' sub_exps' stack'.
  induction l1 as [|tok l1 IH];
    intros i sub_exps stack i' sub_exps' stack' Hlen H.
  - cbn [app scan_parentheses] in *.
    eapply scan_Raise_indep; [exact Hlen | exact H].
  - destruct tok; cbn [app scan_parentheses] in *;
      try (eapply IH; [exact Hlen | exact H]).
    + eapply IH; [|exact H]. cbn [length]. congruence.
    + destruct stack, stack'; try discriminate; [exact H|].
      eapply IH; [|exact H]. cbn [length] in Hlen. congruence.
Qed.

Lemma scan_insert_pair_Return l1 l2 i sub_exps stack i' sub_exps' stack' found :
  length stack = length stack' ->
  scan_parentheses (l1 ++ l2) i sub_exps stack = Return found ->
  exists found',
    scan_parentheses (l1 ++ [LeftParanthesis; RightParanthesis] ++ l2)
      i' sub_exps' stack' = Return found'.
Proof.
  revert i sub_exps stack i' sub_exps' stack'.
  induction l1 as [|tok l1 IH];
    intros i sub_exps stack i' sub_exps' stack' Hlen H.
  - cbn [app scan_parentheses] in *.
    eapply scan_Return_indep; [exact Hlen | exact H].
  - destruct tok; cbn [app scan_parentheses] in *;
      try (eapply IH; [exact Hlen | exact H]).
    + eapply IH; [|exact H]. cbn [length]. congruence.
    + destruct stack, stack'; try discriminate.
      eapply IH; [|exact H]. cbn [length] in Hlen. congruence.
Qed.

Lemma balanced_insert_pair x y :
  balanced (x ++ y) ->
  balanced (x ++ [LeftParanthesis; RightParanthesis] ++ y).
Proof.
  intros H. apply balanced_iff_scan in H as [found H].
  apply balanced_iff_scan.
  eapply scan_insert_pair_Return; [reflexivity | exact H].
Qed.

Lemma resolved_nonempty recurse p inner gs tail :
  inner <> [] ->
  resolved recurse ((p, inner) :: gs) tail
  = let* e := recurse inner in
    let* rest := resolved recurse gs tail in
    Return (p ++ e :: rest).
Proof. destruct inner; [congruence | reflexivity]. Qed.

(** With a pair inserted anywhere but directly inside an empty pair, a
    sequence of outermost groups is again one, and leaves the same
    sequence to the matcher, provided the same holds of [recurse]. *)
Lemma resolved_insert_pair recurse :
  (forall x y,
     ~ inside_empty_pair x y ->
     recurse (x ++ [LeftParanthesis; RightParanthesis] ++ y) = recurse (x ++ y)) ->
  forall gs tail l1 l2,
    outermost gs -> plain tail ->
    flat gs tail = l1 ++ l2 -> ~ inside_empty_pair l1 l2 ->
    exists gs' tail',
      outermost gs' /\ plain tail'
      /\ flat gs' tail' = l1 ++ [LeftParanthesis; RightParanthesis] ++ l2
      /\ resolved recurse gs' tail' = resolved recurse gs tail.
Proof.
  intros Hrec gs.
  induction gs as [|[p inner] gs IH]; intros tail l1 l2 Hgs Htail Heq Hex.
  - cbn [flat] in Heq. subst tail. apply Forall_app in Htail as [H1 H2].
    exists [(l1, [])], l2. repeat split; try assumption.
    repeat constructor. exact H1.
  - apply Forall_cons in Hgs as [[Hp Hin] Hgs]. cbn [fst snd flat] in *.
    assert (HA : forall k,
              p = l1 ++ k ->
              l2 = k ++ LeftParanthesis :: inner
                     ++ RightParanthesis :: flat gs tail ->
              exists gs' tail',
                outermost gs' /\ plain tail'
                /\ flat gs' tail'
                   = l1 ++ [LeftParanthesis; RightParanthesis] ++ l2
                /\ resolved recurse gs' tail'
                   = resolved recurse ((p, inner) :: gs) tail).
    { intros k -> ->. apply Forall_app in Hp as [H1 Hk].
      exists ((l1, []) :: (k, inner) :: gs), tail.
      repeat split; try assumption.
      - constructor; [split; [exact H1 | constructor]|].
        constructor; [split; assumption | exact Hgs].
      - rewrite resolved_prepend. reflexivity. }
    assert (HB : forall x y,
              inner = x ++ y ->
              l1 = p ++ LeftParanthesis :: x ->
              l2 = y ++ RightParanthesis :: flat gs tail ->
              exists gs' tail',
                outermost gs' /\ plain tail'
                /\ flat gs' tail'
                   = l1 ++ [LeftParanthesis; RightParanthesis] ++ l2
                /\ resolved recurse gs' tail'
                   = resolved recurse ((p, inner) :: gs) tail).
    { intros x y -> -> ->.
      exists ((p, x ++ [LeftParanthesis; RightParanthesis] ++ y) :: gs), tail.
      repeat split; try assumption.
      - constructor; [|exact Hgs]. split; [exact Hp|].
        apply balanced_insert_pair, Hin.
      - reassociate. reflexivity.
      - assert (Hne : x ++ y <> []).
        { intros Hnil. apply app_eq_nil in Hnil as [-> ->].
          apply Hex. exists p, (flat gs tail). split; reflexivity. }
        rewrite !resolved_nonempty;
          [|exact Hne | destruct x; discriminate].
        rewrite Hrec; [reflexivity|].
        intros (a & b & -> & ->). apply Hex.
        exists (p ++ LeftParanthesis :: a), (b ++ RightParanthesis :: flat gs tail).
        split; [reassociate|]; reflexivity. }
    apply app_eq_inv in Heq as [(k & Hk1 & Hk2)|(k & Hk1 & Hk2)].
    { apply (HA k); assumption. }
    destruct k as [|c k].
    { rewrite app_nil_r in Hk1. cbn [app] in Hk2.
      apply (HA []); [rewrite app_nil_r; symmetry; exact Hk1|].
      symmetry. exact Hk2. }
    injection Hk2 as <- Hk2.
    apply app_eq_inv in Hk2 as [(y & Hy1 & Hy2)|(k' & Hy1 & Hy2)].
    { apply (HB k y); assumption. }
    destruct k' as [|c k'].
    { rewrite app_nil_r in Hy1. subst k. cbn [app] in Hy2.
      apply (HB inner []);
        [rewrite app_nil_r; reflexivity | exact Hk1 | symmetry; exact Hy2]. }
    injection Hy2 as <- Hy2. subst k l1.
    destruct (IH tail k' l2 Hgs Htail Hy2) as (gs' & tail' & Hgs' & Htail' & Hflat & Hres).
    { intros (a & b & -> & ->). apply Hex.
      exists (p ++ LeftParanthesis :: inner ++ RightParanthesis :: a), b.
      split; [|reflexivity]. reassociate. reflexivity. }
    exists ((p, inner) :: gs'), tail'. repeat split; try assumption.
    + constructor; [split; assumption | exact Hgs'].
    + cbn [flat]. rewrite Hflat. reassociate. reflexivity.
    + cbn [resolved]. rewrite Hres. reflexivity.
Qed.

(** An empty pair inserted anywhere but directly inside an empty pair
    does not change the outcome of [_build_ast]. *)
Lemma _build_ast_insert_pair cat budget symbol_table l1 l2 :
  ~ inside_empty_pair l1 l2 ->
  _build_ast cat budget (l1 ++ [LeftParanthesis; RightParanthesis] ++ l2)
    symbol_table
  = _build_ast cat budget (l1 ++ l2) symbol_table.
Proof.
  revert l1 l2. induction budget as [|budget IH]; intros l1 l2 Hex;
    [reflexivity|].
  rewrite !_build_ast_unfold.
  set (recurse := fun sublist => _build_ast cat budget sublist symbol_table).
  assert (Hres : resolve recurse (l1 ++ [LeftParanthesis; RightParanthesis] ++ l2)
                 = resolve recurse (l1 ++ l2)); [|rewrite Hres; reflexivity].
  destruct (_get_subexpressions (l1 ++ l2)) as [found|e|] eqn:Hscan.
  - assert (Hbal : balanced (l1 ++ l2)) by (apply balanced_iff_scan; eauto).
    apply balanced_flat in Hbal as (gs & tail & Heq & Hgs & Htail).
    destruct (resolved_insert_pair recurse IH gs tail l1 l2 Hgs Htail
                (eq_sym Heq) Hex)
      as (gs' & tail' & Hgs' & Htail' & Hflat & Hresolved).
    rewrite <- Hflat, Heq.
    rewrite (proj2 (resolve_flat recurse gs' tail' Hgs' Htail')).
    rewrite (proj2 (resolve_flat recurse gs tail Hgs Htail)).
    exact Hresolved.
  - unfold resolve. rewrite Hscan. unfold _get_subexpressions in *.
    rewrite (scan_insert_pair_Raise l1 l2 0 [] [] 0 [] [] e eq_refl Hscan).
    reflexivity.
  - exfalso. exact (scan_settled _ 0 [] [] Hscan).
Qed.

Lemma fold_tiers_nil cat budget tiers :
  fold_tiers cat (S budget) [] tiers = Return [].
Proof. induction tiers as [|tier tiers IH]; [reflexivity | exact IH]. Qed.

(** C9. In whichever call of [_build_ast] a parenthesis pair with an
    empty interior is an outermost group (the tokens before it in that
    call are balanced), the pair leaves nothing in the sequence handed
    to the precedence matcher: with or without the pair, step 1 has the
    same outcome.  Hence a pair inserted anywhere in any token sequence,
    except directly inside a pair that was itself empty, leaves the
    outcome of [_build_ast] unchanged.  "()" alone gives the empty
    working sequence, which no tier changes, and the end-of-parse check
    raises [InvalidExpression] for every catalog and table. *)
Theorem C9_empty_pair_is_deleted :
  (forall recurse l1 l2,
     balanced l1 ->
     resolve recurse (l1 ++ [LeftParanthesis; RightParanthesis] ++ l2)
     = resolve recurse (l1 ++ l2))
  /\ (forall cat budget symbol_table l1 l2,
        ~ inside_empty_pair l1 l2 ->
        _build_ast cat budget (l1 ++ [LeftParanthesis; RightParanthesis] ++ l2)
          symbol_table
        = _build_ast cat budget (l1 ++ l2) symbol_table)
  /\ (forall recurse,
        resolve recurse [LeftParanthesis; RightParanthesis] = Return [])
  /\ (forall cat budget symbol_table,
        _build_ast cat (S (S budget)) [LeftParanthesis; RightParanthesis]
          symbol_table
        = Raise (InvalidExpression []))
  /\ (forall budget symbol_table,
        eval_expression spec_catalog (S (S budget)) "()" symbol_table
        = Raise (InvalidExpression [])).
Proof.
  split; [exact resolve_empty_pair|]. split; [|split; [|split]].
  - intros cat budget symbol_table l1 l2. apply _build_ast_insert_pair.
  - intros recurse. reflexivity.
  - intros cat budget symbol_table. rewrite _build_ast_unfold.
    change (resolve _ [LeftParanthesis; RightParanthesis])
      with (Return (I:=ParseItem) (@nil ParseItem)).
    cbn [bind]. rewrite fold_tiers_nil. reflexivity.
  - intros budget symbol_table. reflexivity.
Qed.

(** "A()&B" is resolved as "A&B". *)
Lemma C9_empty_pair_is_deleted_witness :
  _build_ast spec_catalog 3
    ([Identifier "A" ∅] ++ [LeftParanthesis; RightParanthesis]
       ++ [Operator "&"; Identifier "B" ∅]) ∅
  = Return (Compound And [Identifier "A" ∅; Identifier "B" ∅]).
Proof.
  rewrite (proj1 (proj2 C9_empty_pair_is_deleted) spec_catalog 3%nat ∅
             [Identifier "A" ∅] [Operator "&"; Identifier "B" ∅]).
  - reflexivity.
  - intros (a & b & _ & H). discriminate H.
Defined.

(** * Further properties *)

(** ** The lexer: maximal munch, round trip, termination *)

Section LexerMore.

Variable cat : Catalog.

Lemma _match_op_symbol_munch taken rest sym rest' :
  _match_op_symbol cat taken rest = (sym, rest') ->
  exists ext,
    sym = taken ++ ext /\ rest = ext ++ rest'
    /\ (forall n, (0 < n <= length ext)%nat ->
          is_op_symbol cat (taken ++ take n ext) = true)
    /\ match rest' with
       | [] => True
       | c :: _ => is_op_symbol cat (sym ++ [c]) = false
       end.
Proof.
  revert taken. induction rest as [|c rest IH]; intros taken H; simpl in H.
  - injection H as <- <-. exists []. rewrite app_nil_r.
    repeat split. intros n Hn. simpl in Hn. lia.
  - destruct (is_op_symbol cat (taken ++ [c])) eqn:Hop.
    + apply IH in H as (ext & Hsym & Hrest & Hpre & Hstop).
      exists (c :: ext). rewrite <- app_assoc in Hsym.
      split; [exact Hsym|]. split; [cbn [app]; congruence|].
      split; [|exact Hstop].
      intros [|n] Hn; [lia|]. cbn [length] in Hn. rewrite firstn_cons.
      destruct n as [|n].
      * rewrite take_0. exact Hop.
      * specialize (Hpre (S n) ltac:(lia)).
        rewrite <- app_assoc in Hpre. exact Hpre.
    + injection H as <- <-. exists []. rewrite app_nil_r.
      repeat split; [|exact Hop]. intros n Hn. simpl in Hn. lia.
Qed.

Lemma operator_symbol_nonempty c s sym rest :
  operation_symbols cat c = true ->
  _match_op_symbol cat [] (c :: s) = (sym, rest) -> sym <> [].
Proof.
  intros Hc H.
  apply _match_op_symbol_munch in H as (ext & Hsym & Hrest & _ & Hstop).
  cbn [app] in Hsym. subst ext. intros ->. cbn [app] in Hrest, Hstop.
  subst rest. unfold operation_symbols in Hc. congruence.
Qed.

(** X1. Maximal munch: the operator read at an operator character is a
    prefix of the remaining text, each of its non-empty prefixes is a
    registered symbol, and the symbol one character longer is not. *)
Theorem X1_operator_maximal_munch c s sym rest :
  operation_symbols cat c = true ->
  _match_op_symbol cat [] (c :: s) = (sym, rest) ->
  sym ++ rest = c :: s
  /\ sym <> []
  /\ (forall n, (0 < n <= length sym)%nat -> is_op_symbol cat (take n sym) = true)
  /\ match rest with
     | [] => True
     | c' :: _ => is_op_symbol cat (sym ++ [c']) = false
     end.
Proof.
  intros Hc H.
  pose proof (_match_op_symbol_first cat c s sym rest Hc H) as (Happ & _ & _).
  apply _match_op_symbol_munch in H as (ext & Hsym & Hrest & Hpre & Hstop).
  cbn [app] in Hsym, Hpre. subst ext.
  repeat split; [exact Happ | | exact Hpre | exact Hstop].
  intros ->. cbn [app] in Hrest, Hstop. subst rest.
  unfold operation_symbols in Hc. congruence.
Qed.

Lemma parantheses_cases c :
  parantheses c = true -> token_text (PARANTHESES_TO_CLASS c) = [c].
Proof.
  unfold parantheses, char_in. intros H. apply bool_decide_eq_true in H.
  vm_compute in H.
  repeat (apply elem_of_cons in H as [->|H]; [reflexivity|]). inversion H.
Qed.

Lemma token_text_classify token_str symbol_table :
  token_text (classify cat token_str symbol_table) = chars token_str.
Proof.
  unfold classify. destruct (BooleanLiteral_allows cat token_str); [reflexivity|].
  destruct (NumericLiteral_allows cat token_str); reflexivity.
Qed.

Lemma tokenize_loop_text budget s symbol_table acc tokens :
  tokenize_loop cat budget s symbol_table acc = Return tokens ->
  concat (map token_text tokens) = concat (map token_text acc) ++ s.
Proof.
  revert s acc. induction budget as [|budget IH]; intros s acc H.
  - destruct s; [|discriminate]. injection H as <-. rewrite app_nil_r. reflexivity.
  - destruct s as [|c s].
    { injection H as <-. rewrite app_nil_r. reflexivity. }
    cbn [tokenize_loop] in H.
    destruct (negb (language cat c)); [discriminate|].
    destruct (parantheses c) eqn:Hpar.
    { apply IH in H. rewrite H, map_app, concat_app. cbn [map concat].
      rewrite parantheses_cases by exact Hpar. rewrite <- app_assoc. reflexivity. }
    destruct (operation_symbols cat c) eqn:Hop.
    { destruct (_match_op_symbol cat [] (c :: s)) as [sym rest] eqn:Hm.
      apply _match_op_symbol_first in Hm as (Happ & _ & _); [|exact Hop].
      apply IH in H. rewrite H, map_app, concat_app. cbn [map concat token_text].
      unfold chars. rewrite list_ascii_of_string_of_list_ascii, app_nil_r.
      rewrite <- app_assoc, Happ. reflexivity. }
    unfold _match_literal_or_var in H.
    destruct (literal_run allowed_symbols (c :: s)) as [run rest] eqn:Hrun.
    apply literal_run_spec in Hrun as (Happ & _ & _).
    assert (Hnext : tokenize_loop cat budget rest symbol_table
                      (acc ++ [classify cat (string_of_list_ascii run) symbol_table])
                    = Return tokens).
    { destruct rest as [|c' rest]; [exact H|].
      destruct (language cat c'); [exact H | discriminate]. }
    apply IH in Hnext. rewrite Hnext, map_app, concat_app. cbn [map concat].
    rewrite token_text_classify. unfold chars.
    rewrite list_ascii_of_string_of_list_ascii, app_nil_r.
    rewrite <- app_assoc, Happ. reflexivity.
Qed.

(** X2. The texts of the tokens, put end to end, are the input with its
    spaces removed: the lexer drops, adds and reorders no character. *)
Theorem X2_tokens_spell_the_input s symbol_table tokens :
  _tokenize cat s symbol_table = Return tokens ->
  concat (map token_text tokens) = remove_whitespace (chars s).
Proof. intros H. apply tokenize_loop_text in H. exact H. Qed.

Lemma tokenize_loop_tokens budget s symbol_table acc tokens :
  Forall (fun tok => is_lexical tok = true /\ token_text tok <> []) acc ->
  tokenize_loop cat budget s symbol_table acc = Return tokens ->
  Forall (fun tok => is_lexical tok = true /\ token_text tok <> []) tokens.
Proof.
  revert s acc. induction budget as [|budget IH]; intros s acc Hacc H.
  - destruct s; [|discriminate]. injection H as <-. exact Hacc.
  - destruct s as [|c s]; [injection H as <-; exact Hacc|].
    cbn [tokenize_loop] in H.
    destruct (language cat c) eqn:Hlang; [|discriminate]. cbn [negb] in H.
    assert (Hsnoc : forall tok, is_lexical tok = true -> token_text tok <> [] ->
              Forall (fun tok => is_lexical tok = true /\ token_text tok <> [])
                (acc ++ [tok])).
    { intros tok H1 H2. apply Forall_app. split; [exact Hacc|].
      constructor; [split; assumption | constructor]. }
    destruct (parantheses c) eqn:Hpar.
    { eapply IH; [|exact H]. apply Hsnoc.
      - unfold PARANTHESES_TO_CLASS. destruct (bool_decide _); reflexivity.
      - rewrite parantheses_cases by exact Hpar. discriminate. }
    destruct (operation_symbols cat c) eqn:Hop.
    { destruct (_match_op_symbol cat [] (c :: s)) as [sym rest] eqn:Hm.
      apply operator_symbol_nonempty in Hm as Hne; [|exact Hop].
      eapply IH; [|exact H]. apply Hsnoc; [reflexivity|].
      cbn [token_text]. unfold chars.
      rewrite list_ascii_of_string_of_list_ascii. exact Hne. }
    unfold _match_literal_or_var in H.
    destruct (literal_run allowed_symbols (c :: s)) as [run rest] eqn:Hrun.
    assert (Hne : run <> []).
    { simpl in Hrun. rewrite (language_allowed cat _ Hlang Hpar Hop) in Hrun.
      destruct (literal_run allowed_symbols s). injection Hrun as <- _.
      discriminate. }
    assert (Hnext : tokenize_loop cat budget rest symbol_table
                      (acc ++ [classify cat (string_of_list_ascii run) symbol_table])
                    = Return tokens).
    { destruct rest as [|c' rest]; [exact H|].
      destruct (language cat c'); [exact H | discriminate]. }
    eapply IH; [|exact Hnext]. apply Hsnoc.
    + unfold classify. destruct (BooleanLiteral_allows cat _); [reflexivity|].
      destruct (NumericLiteral_allows cat _); reflexivity.
    + rewrite token_text_classify. unfold chars.
      rewrite list_ascii_of_string_of_list_ascii. exact Hne.
Qed.

Lemma concat_length_nonempty {A} (ls : list (list A)) :
  Forall (fun l => l <> []) ls -> (length ls <= length (concat ls))%nat.
Proof.
  induction 1 as [|l ls Hl _ IH]; [reflexivity|].
  cbn [concat length]. rewrite length_app.
  destruct l; [congruence|]. cbn [length]. lia.
Qed.

Lemma lexer_ends s symbol_table :
  (exists tokens,
     _tokenize cat s symbol_table = Return tokens
     /\ Forall (fun tok => is_lexical tok = true /\ token_text tok <> []) tokens
     /\ (length tokens <= length (remove_whitespace (chars s)))%nat)
  \/ _tokenize cat s symbol_table = Raise InvalidCharacter.
Proof.
  destruct (_tokenize cat s symbol_table) as [tokens|e|] eqn:H.
  - left. exists tokens. split; [reflexivity|].
    assert (Htok : Forall (fun tok => is_lexical tok = true /\ token_text tok <> [])
                     tokens).
    { eapply tokenize_loop_tokens; [constructor | exact H]. }
    split; [exact Htok|].
    pose proof (tokenize_loop_text _ _ _ _ _ H) as Ht. cbn [map concat app] in Ht.
    rewrite <- Ht. rewrite <- (length_map token_text tokens) at 1.
    apply concat_length_nonempty.
    apply Forall_map. eapply Forall_impl; [exact Htok|]. intros tok [_ Hne]. exact Hne.
  - right. apply tokenize_loop_Raise in H as [-> _]. reflexivity.
  - exfalso. eapply tokenize_loop_settled; [|exact H]. reflexivity.
Qed.

(** X3. The lexer always ends: it returns tokens or raises
    [InvalidCharacter], and nothing else.  The tokens it returns are
    lexical tokens, none of them empty, so there are at most as many as
    the input has characters other than spaces. *)
Theorem X3_lexer_ends s symbol_table :
  (exists tokens,
     _tokenize cat s symbol_table = Return tokens
     /\ Forall (fun tok => is_lexical tok = true /\ token_text tok <> []) tokens
     /\ (length tokens <= length (remove_whitespace (chars s)))%nat)
  \/ _tokenize cat s symbol_table = Raise InvalidCharacter.
Proof. apply lexer_ends. Qed.

End LexerMore.

Lemma X1_operator_maximal_munch_witness :
  _match_op_symbol overlapping_catalog [] (chars "!=A") = (chars "!=", chars "A")
  /\ is_op_symbol overlapping_catalog (chars "!") = true
  /\ is_op_symbol overlapping_catalog (chars "!=A") = false.
Proof.
  assert (Hm : _match_op_symbol overlapping_catalog [] (chars "!=A")
               = (chars "!=", chars "A")) by reflexivity.
  destruct (X1_operator_maximal_munch overlapping_catalog "!"%char (chars "=A")
              (chars "!=") (chars "A") eq_refl Hm) as (_ & _ & Hpre & Hstop).
  split; [exact Hm|]. split; [|exact Hstop].
  apply (Hpre 1%nat). simpl. lia.
Defined.

Lemma X2_tokens_spell_the_input_witness :
  concat (map token_text
            [Identifier "A" ∅; Operator "&"; LeftParanthesis; Identifier "B" ∅;
             RightParanthesis])
  = remove_whitespace (chars " A & ( B ) ").
Proof.
  apply (X2_tokens_spell_the_input spec_catalog " A & ( B ) " ∅). reflexivity.
Defined.

(** ** The pairs recorded by [_get_subexpressions] *)

Lemma spans_invariants tokens done gs tail i :
  tokens = done ++ flat gs tail -> i = Z.of_nat (length done) ->
  outermost gs -> plain tail ->
  ascending i (spans i gs)
  /\ Forall (encloses tokens) (spans i gs)
  /\ (forall k tok,
        (length done <= k)%nat -> tokens !! k = Some tok ->
        is_parenthesis tok = true ->
        Exists (fun ab => ab.1 <= Z.of_nat k <= ab.2) (spans i gs)).
Proof.
  intros Htok Hi Hgs. revert done i Htok Hi.
  induction Hgs as [|[p inner] gs [Hp Hin] _ IH]; intros done i Htok Hi Htail.
  - cbn [spans flat] in *. repeat split; [constructor|].
    intros k tok Hk Hlook Hpar. exfalso. subst tokens.
    rewrite lookup_app_r in Hlook by exact Hk.
    eapply Forall_lookup_1 in Hlook; [|exact Htail]. simpl in Hlook. congruence.
  - cbn [spans flat fst snd] in *.
    set (a := i + Z.of_nat (length p)) in *.
    set (b := a + 1 + Z.of_nat (length inner)) in *.
    destruct (IH (done ++ p ++ LeftParanthesis :: inner ++ [RightParanthesis])
                (b + 1)) as (Hasc & Hall & Hcov).
    { rewrite Htok. reassociate. reflexivity. }
    { rewrite !length_app. cbn [length]. rewrite length_app. cbn [length]. lia. }
    { exact Htail. }
    assert (Hlen : b < Z.of_nat (length tokens)).
    { rewrite Htok, !length_app. cbn [length]. rewrite length_app. cbn [length].
      lia. }
    split; [|split].
    + cbn [ascending]. repeat split; [lia | lia | exact Hasc].
    + constructor; [|exact Hall]. unfold encloses. cbn [fst snd].
      split; [exact Hlen|]. split; [|split].
      * rewrite Htok, app_assoc. apply list_lookup_middle.
        rewrite length_app. lia.
      * rewrite Htok.
        replace (done ++ p ++ LeftParanthesis :: inner
                   ++ RightParanthesis :: flat gs tail)
          with ((done ++ p ++ LeftParanthesis :: inner)
                  ++ RightParanthesis :: flat gs tail)
          by (reassociate; reflexivity).
        apply list_lookup_middle. rewrite !length_app. cbn [length]. lia.
      * rewrite (py_slice_middle tokens (done ++ p ++ [LeftParanthesis]) inner
                   (RightParanthesis :: flat gs tail) (a + 1) b);
          [exact Hin | rewrite Htok; reassociate; reflexivity | | reflexivity].
        rewrite !length_app. cbn [length]. lia.
    + intros k tok Hk Hlook Hpar.
      destruct (decide (k < length done + length p)%nat) as [Hlt|Hge].
      { exfalso. rewrite Htok in Hlook.
        rewrite lookup_app_r in Hlook by exact Hk.
        rewrite lookup_app_l in Hlook by lia.
        eapply Forall_lookup_1 in Hlook; [|exact Hp]. simpl in Hlook. congruence. }
      destruct (decide (Z.of_nat k <= b)) as [Hle|Hgt].
      { apply Exists_cons_hd. cbn [fst snd]. lia. }
      apply Exists_cons_tl. apply (Hcov k tok); [|exact Hlook | exact Hpar].
      rewrite !length_app. cbn [length]. rewrite length_app. cbn [length]. lia.
Qed.

(** X4. When the scan accepts a token sequence, the pairs it records
    are in increasing order and do not overlap; each indexes a left and
    a right parenthesis of the sequence with a balanced interior; and
    every parenthesis of the sequence lies within one of them. *)
Theorem X4_recorded_pairs tokens found :
  _get_subexpressions tokens = Return found ->
  ascending 0 found
  /\ Forall (encloses tokens) found
  /\ (forall k tok,
        tokens !! k = Some tok -> is_parenthesis tok = true ->
        Exists (fun ab => ab.1 <= Z.of_nat k <= ab.2) found).
Proof.
  intros H.
  assert (Hbal : balanced tokens) by (apply balanced_iff_scan; eauto).
  apply balanced_flat in Hbal as (gs & tail & -> & Hgs & Htail).
  rewrite (proj1 (resolve_flat (fun _ => Diverge) gs tail Hgs Htail)) in H.
  injection H as <-.
  destruct (spans_invariants (flat gs tail) [] gs tail 0 eq_refl eq_refl Hgs Htail)
    as (Hasc & Hall & Hcov).
  split; [exact Hasc|]. split; [exact Hall|].
  intros k tok. apply Hcov. simpl. lia.
Qed.

(** "(A)((B))": two pairs, the nested one is not recorded. *)
Lemma X4_recorded_pairs_witness :
  ascending 0 [(0, 2); (3, 7)]
  /\ Forall (encloses [LeftParanthesis; Identifier "A" ∅; RightParanthesis;
                       LeftParanthesis; LeftParanthesis; Identifier "B" ∅;
                       RightParanthesis; RightParanthesis]) [(0, 2); (3, 7)].
Proof.
  destruct (X4_recorded_pairs
              [LeftParanthesis; Identifier "A" ∅; RightParanthesis;
               LeftParanthesis; LeftParanthesis; Identifier "B" ∅;
               RightParanthesis; RightParanthesis] [(0, 2); (3, 7)] eq_refl)
    as (H1 & H2 & _).
  split; assumption.
Defined.

(** ** The scan of [_match]: the leftmost match *)

Section MatchMore.

Variable cat : Catalog.

Lemma match_from_leftmost trie items i0 m :
  match_from cat trie items i0 = Return m ->
  match m with
  | None =>
      forall k, (k < length items)%nat ->
        is_match cat trie (drop k items) [] None = Return None
  | Some (i, j, e) =>
      exists k targets cls,
        i = (i0 + k)%nat /\ (k < length items)%nat
        /\ (forall k', (k' < k)%nat ->
              is_match cat trie (drop k' items) [] None = Return None)
        /\ is_match cat trie (drop k items) [] None = Return (Some (targets, cls))
        /\ j = (i + length (expects cls))%nat
        /\ e = Compound cls targets
  end.
Proof.
  revert i0 m. induction items as [|item items IH]; intros i0 m H.
  - injection H as <-. intros k Hk. simpl in Hk. lia.
  - cbn [match_from] in H.
    destruct (is_match cat trie (item :: items) [] None)
      as [[[targets cls]|]|e|] eqn:Hm; cbn [bind] in H; try discriminate.
    + injection H as <-. exists 0%nat, targets, cls.
      split; [lia|]. split; [simpl; lia|]. split; [intros k' Hk'; lia|].
      split; [exact Hm|]. split; reflexivity.
    + apply IH in H. destruct m as [[[i j] e]|].
      * destruct H as (k & targets & cls & -> & Hk & Hbefore & Hat & -> & ->).
        exists (S k), targets, cls.
        split; [lia|]. split; [simpl; lia|]. split.
        { intros [|k'] Hk'; [exact Hm | apply Hbefore; lia]. }
        split; [exact Hat|]. split; reflexivity.
      * intros [|k] Hk; [exact Hm | apply H; simpl in Hk; lia].
Qed.

Lemma match_leftmost to_parse to_match m :
  _match cat to_parse to_match = Return m ->
  match m with
  | None =>
      forall k, (k < length to_parse)%nat ->
        is_match cat (_build_trie to_match) (drop k to_parse) [] None
        = Return None
  | Some (match_idx, end_idx, expr) =>
      exists targets cls,
        (match_idx < length to_parse)%nat
        /\ (forall k, (k < match_idx)%nat ->
              is_match cat (_build_trie to_match) (drop k to_parse) [] None
              = Return None)
        /\ is_match cat (_build_trie to_match) (drop match_idx to_parse) [] None
           = Return (Some (targets, cls))
        /\ end_idx = (match_idx + length (expects cls))%nat
        /\ expr = Compound cls targets
  end.
Proof.
  unfold _match. intros H. apply match_from_leftmost in H.
  destruct m as [[[i j] e]|]; [|exact H].
  destruct H as (k & targets & cls & -> & Hk & Hbefore & Hat & -> & ->).
  exists targets, cls. split; [exact Hk|]. split; [exact Hbefore|].
  split; [exact Hat|]. split; reflexivity.
Qed.

(** X5. [_match] returns the leftmost match: the walk fails at every
    start position before the one returned, and succeeds there; the
    span ends [len(expects)] elements further, [expects] being that of
    the class instantiated.  When [_match] finds nothing, the walk
    fails at every start position. *)
Theorem X5_leftmost_match to_parse to_match m :
  _match cat to_parse to_match = Return m ->
  match m with
  | None =>
      forall k, (k < length to_parse)%nat ->
        is_match cat (_build_trie to_match) (drop k to_parse) [] None
        = Return None
  | Some (match_idx, end_idx, expr) =>
      exists targets cls,
        (match_idx < length to_parse)%nat
        /\ (forall k, (k < match_idx)%nat ->
              is_match cat (_build_trie to_match) (drop k to_parse) [] None
              = Return None)
        /\ is_match cat (_build_trie to_match) (drop match_idx to_parse) [] None
           = Return (Some (targets, cls))
        /\ end_idx = (match_idx + length (expects cls))%nat
        /\ expr = Compound cls targets
  end.
Proof. apply match_leftmost. Qed.

End MatchMore.

(** In "A&B|C&D" the AND tier folds the first [&]. *)
Lemma X5_leftmost_match_witness :
  exists targets cls,
    (0 < 7)%nat
    /\ (forall k, (k < 0)%nat ->
          is_match spec_catalog (_build_trie [And])
            (drop k [Identifier "A" ∅; Operator "&"; Identifier "B" ∅;
                     Operator "|"; Identifier "C" ∅; Operator "&";
                     Identifier "D" ∅]) [] None
          = Return None)
    /\ is_match spec_catalog (_build_trie [And])
         (drop 0 [Identifier "A" ∅; Operator "&"; Identifier "B" ∅;
                  Operator "|"; Identifier "C" ∅; Operator "&";
                  Identifier "D" ∅]) [] None
       = Return (Some (targets, cls))
    /\ 3%nat = (0 + length (expects cls))%nat
    /\ Compound And [Identifier "A" ∅; Identifier "B" ∅] = Compound cls targets.
Proof.
  exact (X5_leftmost_match spec_catalog
           [Identifier "A" ∅; Operator "&"; Identifier "B" ∅; Operator "|";
            Identifier "C" ∅; Operator "&"; Identifier "D" ∅] [And]
           (Some (0%nat, 3%nat, Compound And [Identifier "A" ∅; Identifier "B" ∅]))
           eq_refl).
Defined.

(** ** The trie of a tier: what it holds, and the order of insertion *)

Lemma trie_obs_insert m n ks :
  trie_obs (trie_insert m n) ks = obs_after_insert m (trie_obs n ks) ks.
Proof.
  revert n ks. induction m as [|k0 m IH]; intros [v kids e] ks.
  - cbn [trie_insert]. destruct ks as [|k ks]; [reflexivity|].
    unfold trie_obs, obs_after_insert. cbn [trie_find children is_prefix].
    rewrite bool_decide_eq_false_2 by discriminate.
    destruct (dict_get k kids) as [child|]; [|reflexivity].
    destruct (trie_find child ks); reflexivity.
  - cbn [trie_insert]. destruct ks as [|k ks].
    { unfold trie_obs, obs_after_insert. cbn [trie_find fmap option_fmap option_map is_end].
      rewrite bool_decide_eq_false_2 by discriminate. reflexivity. }
    unfold trie_obs at 1. cbn [trie_find children].
    destruct (decide (k0 = k)) as [->|Hne].
    + rewrite dict_get_set_eq.
      fold (trie_obs (trie_insert m
              (match dict_get k kids with
               | Some child => child
               | None => mkTrieNode (Some k) [] false
               end)) ks).
      rewrite IH. unfold obs_after_insert, trie_obs at 2.
      cbn [trie_find children is_prefix].
      rewrite (bool_decide_eq_true_2 (k = k)) by reflexivity. cbn [andb].
      destruct (decide (ks = m)) as [->|Hks].
      * rewrite !bool_decide_eq_true_2 by reflexivity. reflexivity.
      * rewrite (bool_decide_eq_false_2 (ks = m)) by exact Hks.
        rewrite (bool_decide_eq_false_2 (k :: ks = k :: m)) by congruence.
        destruct (dict_get k kids) as [child|]; [reflexivity|].
        destruct ks as [|k' ks]; [reflexivity|]. reflexivity.
    + rewrite dict_get_set_ne by exact Hne.
      unfold obs_after_insert, trie_obs. cbn [trie_find children is_prefix].
      rewrite (bool_decide_eq_false_2 (k :: ks = k0 :: m)) by congruence.
      rewrite (bool_decide_eq_false_2 (k = k0)) by congruence. cbn [andb].
      destruct (dict_get k kids) as [child|]; [|reflexivity].
      destruct (trie_find child ks); reflexivity.
Qed.

Lemma trie_insert_equiv m n n' :
  trie_equiv n n' -> trie_equiv (trie_insert m n) (trie_insert m n').
Proof. intros H ks. rewrite !trie_obs_insert, H. reflexivity. Qed.

Lemma trie_insert_swap m1 m2 n :
  trie_equiv (trie_insert m1 (trie_insert m2 n))
    (trie_insert m2 (trie_insert m1 n)).
Proof.
  intros ks. rewrite !trie_obs_insert. unfold obs_after_insert.
  destruct (bool_decide (ks = m1)), (bool_decide (ks = m2)); try reflexivity.
  destruct (trie_obs n ks); [reflexivity|].
  destruct (is_prefix ks m1), (is_prefix ks m2); reflexivity.
Qed.

Lemma build_equiv_permutation (to_match to_match' : list Class) root root' :
  to_match ≡ₚ to_match' -> trie_equiv root root' ->
  trie_equiv
    (foldl (fun root expression => trie_insert (expects expression) root)
       root to_match)
    (foldl (fun root expression => trie_insert (expects expression) root)
       root' to_match').
Proof.
  intros Hperm. revert root root'.
  induction Hperm as [|cls l l' _ IH|c1 c2 l|l1 l2 l3 _ IH1 _ IH2];
    intros root root' Hroot; cbn [foldl].
  - exact Hroot.
  - apply IH, trie_insert_equiv, Hroot.
  - assert (Hsame : forall (l : list Class) n n', trie_equiv n n' ->
              trie_equiv
                (foldl (fun root expression =>
                          trie_insert (expects expression) root) n l)
                (foldl (fun root expression =>
                          trie_insert (expects expression) root) n' l)).
    { clear. intros l. induction l as [|c l IH]; intros n n' H; cbn [foldl];
        [exact H | apply IH, trie_insert_equiv, H]. }
    apply Hsame. intros ks.
    rewrite (trie_insert_swap (expects c1) (expects c2) root ks).
    apply trie_insert_equiv, trie_insert_equiv, Hroot.
  - intros ks. rewrite (IH1 root root' Hroot ks).
    apply IH2. intros ks'. reflexivity.
Qed.

Section WalkEquiv.

Variable cat : Catalog.

Lemma trie_equiv_child n n' k :
  trie_equiv n n' ->
  match dict_get k (children n), dict_get k (children n') with
  | Some child, Some child' => trie_equiv child child'
  | None, None => True
  | _, _ => False
  end.
Proof.
  intros H. pose proof (H [k]) as Hk. unfold trie_obs in Hk. cbn [trie_find] in Hk.
  destruct (dict_get k (children n)) as [child|] eqn:Hc,
           (dict_get k (children n')) as [child'|] eqn:Hc';
    try discriminate; [|exact I].
  intros ks. specialize (H (k :: ks)). unfold trie_obs in *.
  cbn [trie_find] in H. rewrite Hc, Hc' in H. exact H.
Qed.

Lemma is_match_equiv n n' items targets expr_type :
  trie_equiv n n' ->
  is_match cat n items targets expr_type
  = is_match cat n' items targets expr_type.
Proof.
  revert n n' targets expr_type.
  induction items as [|item items IH]; intros n n' targets expr_type H.
  - pose proof (H []) as H0. unfold trie_obs in H0. cbn in H0.
    injection H0 as H0. cbn [is_match]. rewrite H0. reflexivity.
  - pose proof (H []) as H0. unfold trie_obs in H0. cbn in H0.
    injection H0 as H0. cbn [is_match]. rewrite H0.
    destruct (is_end n'); [reflexivity|].
    destruct (item_matcher cat item) as [k|]; [|reflexivity].
    cbn [mbind option_bind].
    pose proof (trie_equiv_child n n' k H) as Hk.
    destruct (dict_get k (children n)) as [child|],
             (dict_get k (children n')) as [child'|];
      try contradiction; [|reflexivity].
    destruct item; try (apply IH, Hk).
    destruct (TOKEN_TO_CLASS cat !! operator); [apply IH, Hk | reflexivity].
Qed.

Lemma match_from_equiv n n' items i :
  trie_equiv n n' -> match_from cat n items i = match_from cat n' items i.
Proof.
  intros H. revert i. induction items as [|item items IH]; intros i;
    [reflexivity|].
  cbn [match_from]. rewrite (is_match_equiv n n') by exact H.
  destruct (is_match cat n' (item :: items) [] None) as [[[ts cls]|]| |];
    cbn [bind]; try reflexivity.
  apply IH.
Qed.

(** X7. [_match] does not depend on the order in which the classes of
    the tier (a Python set) are inserted into the trie. *)
Theorem X7_match_ignores_set_order to_parse to_match to_match' :
  to_match ≡ₚ to_match' ->
  _match cat to_parse to_match = _match cat to_parse to_match'.
Proof.
  intros Hperm. unfold _match, _build_trie.
  apply match_from_equiv, build_equiv_permutation; [exact Hperm|].
  intros ks. reflexivity.
Qed.

End WalkEquiv.

Lemma X7_match_ignores_set_order_witness :
  _match spec_catalog [Identifier "A" ∅; Operator "|"; Identifier "B" ∅]
    [And; Or; Not]
  = _match spec_catalog [Identifier "A" ∅; Operator "|"; Identifier "B" ∅]
      [Not; Or; And].
Proof.
  apply X7_match_ignores_set_order.
  apply (Permutation_rev [And; Or; Not]).
Defined.

Lemma is_prefix_refl m : is_prefix m m = true.
Proof.
  induction m as [|k m IH]; [reflexivity|]. cbn [is_prefix].
  rewrite bool_decide_eq_true_2 by reflexivity. exact IH.
Qed.

Lemma obs_after_insert_is_Some m o ks :
  is_Some (obs_after_insert m o ks) <-> is_Some o \/ is_prefix ks m = true.
Proof.
  unfold obs_after_insert. destruct (bool_decide (ks = m)) eqn:Heq.
  - apply bool_decide_eq_true in Heq as ->. rewrite is_prefix_refl.
    split; [auto | intros _; eauto].
  - destruct o as [b|].
    + split; [intros _; left; eauto | intros _; eauto].
    + destruct (is_prefix ks m).
      * split; [auto | intros _; eauto].
      * split; [intros [? H]; discriminate|].
        intros [[? H]|H]; discriminate.
Qed.

Lemma build_trie_is_Some (to_match : list Class) root ks :
  is_Some (trie_obs
             (foldl (fun root expression => trie_insert (expects expression) root)
                root to_match) ks)
  <-> is_Some (trie_obs root ks)
      \/ exists cls, cls ∈ to_match /\ is_prefix ks (expects cls) = true.
Proof.
  revert root. induction to_match as [|cls to_match IH]; intros root; cbn [foldl].
  - split; [auto|]. intros [H|(cls & Hin & _)]; [exact H | inversion Hin].
  - rewrite IH, trie_obs_insert, obs_after_insert_is_Some. split.
    + intros [[H|H]|(cls' & Hin & H)].
      * left. exact H.
      * right. exists cls. split; [left | exact H].
      * right. exists cls'. split; [right; exact Hin | exact H].
    + intros [H|(cls' & Hin & H)]; [left; left; exact H|].
      apply elem_of_cons in Hin as [->|Hin]; [left; right; exact H|].
      right. exists cls'. split; assumption.
Qed.

Lemma _build_trie_find (to_match : list Class) ks :
  is_Some (trie_find (_build_trie to_match) ks)
  <-> ks = [] \/ exists cls, cls ∈ to_match /\ is_prefix ks (expects cls) = true.
Proof.
  assert (Hobs : forall n, is_Some (trie_obs n ks) <-> is_Some (trie_find n ks)).
  { intros n. unfold trie_obs. destruct (trie_find n ks); split;
      intros [? H]; try discriminate; eauto. }
  rewrite <- Hobs. unfold _build_trie. rewrite build_trie_is_Some, Hobs.
  destruct ks as [|k ks]; cbn [trie_find children dict_get].
  - split; [auto | intros _; left; eauto].
  - split.
    + intros [[? H]|H]; [discriminate | right; exact H].
    + intros [H|H]; [discriminate | right; exact H].
Qed.

(** X6. The trie built for a tier holds exactly the patterns of the
    tier: a key sequence leads to a node when it is a prefix of the
    [expects] of one of the classes (or is empty), and to a terminal
    node when it is the [expects] of one of them. *)
Theorem X6_trie_holds_the_patterns (to_match : list Class) ks :
  (is_Some (trie_find (_build_trie to_match) ks)
   <-> ks = [] \/ exists cls, cls ∈ to_match /\ is_prefix ks (expects cls) = true)
  /\ (complete (_build_trie to_match) ks
      <-> exists cls, cls ∈ to_match /\ ks = expects cls).
Proof. split; [apply _build_trie_find | apply _build_trie_complete]. Qed.

(** ** Termination of the folding loops *)

Section Termination.

Variable cat : Catalog.

Lemma is_match_class n items targets expr_type ts cls :
  is_match cat n items targets expr_type = Return (Some (ts, cls)) ->
  expr_type = Some cls \/ exists symbol, TOKEN_TO_CLASS cat !! symbol = Some cls.
Proof.
  revert n targets expr_type.
  induction items as [|item items IH]; intros n targets expr_type H.
  - cbn [is_match] in H. destruct (is_end n); [|discriminate].
    destruct expr_type; [|discriminate]. injection H as _ <-. left. reflexivity.
  - cbn [is_match] in H. destruct (is_end n).
    { destruct expr_type; [|discriminate]. injection H as _ <-. left. reflexivity. }
    destruct (item_matcher cat item ≫= _) as [child|]; [|discriminate].
    destruct item; try (eapply IH; exact H).
    destruct (TOKEN_TO_CLASS cat !! operator) as [c|] eqn:Hc; [|discriminate].
    apply IH in H as [[= <-]|H]; right; eauto.
Qed.

Lemma is_match_needs_two n items targets expr_type r :
  ~ complete n [] -> (forall k, ~ complete n [k]) ->
  is_match cat n items targets expr_type = Return (Some r) ->
  (2 <= length items)%nat.
Proof.
  intros H0 H1 H.
  assert (Hn : is_end n = false).
  { destruct (is_end n) eqn:He; [|reflexivity]. exfalso. apply H0.
    exists n. split; [reflexivity | exact He]. }
  destruct items as [|item [|item' items]]; cbn [is_match] in H;
    rewrite Hn in H; [discriminate | | simpl; lia].
  destruct (item_matcher cat item) as [k|]; [|discriminate].
  cbn [mbind option_bind] in H.
  destruct (dict_get k (children n)) as [child|] eqn:Hchild; [|discriminate].
  assert (Hc : is_end child = false).
  { destruct (is_end child) eqn:He; [|reflexivity]. exfalso. apply (H1 k).
    exists child. split; [|exact He]. cbn [trie_find]. rewrite Hchild. reflexivity. }
  destruct item; try (rewrite Hc in H; discriminate).
  destruct (TOKEN_TO_CLASS cat !! operator); [|discriminate].
  rewrite Hc in H. discriminate.
Qed.

Lemma fold_shrinks tier to_parse i j e :
  (forall cls, cls ∈ tier -> (2 <= length (expects cls))%nat) ->
  (forall symbol cls,
     TOKEN_TO_CLASS cat !! symbol = Some cls -> (2 <= length (expects cls))%nat) ->
  _match cat to_parse tier = Return (Some (i, j, e)) ->
  (length (take i to_parse ++ [e] ++ drop j to_parse) < length to_parse)%nat.
Proof.
  intros Htier Hreg H.
  apply (match_leftmost cat) in H
    as (targets & cls & Hi & _ & Hat & -> & ->).
  assert (Hcls : (2 <= length (expects cls))%nat).
  { apply is_match_class in Hat as [Habs|[symbol Hs]]; [discriminate|].
    eapply Hreg, Hs. }
  assert (Htwo : (2 <= length (drop i to_parse))%nat).
  { eapply is_match_needs_two; [| |exact Hat].
    - intros Hc. apply _build_trie_complete in Hc as (c & Hin & Heq).
      apply Htier in Hin. rewrite <- Heq in Hin. simpl in Hin. lia.
    - intros k Hc. apply _build_trie_complete in Hc as (c & Hin & Heq).
      apply Htier in Hin. rewrite <- Heq in Hin. simpl in Hin. lia. }
  rewrite length_drop in Htwo.
  rewrite !length_app, length_take, length_drop. cbn [length]. lia.
Qed.

Lemma fold_tier_settled tier budget to_parse :
  (forall cls, cls ∈ tier -> (2 <= length (expects cls))%nat) ->
  (forall symbol cls,
     TOKEN_TO_CLASS cat !! symbol = Some cls -> (2 <= length (expects cls))%nat) ->
  (length to_parse < budget)%nat ->
  match fold_tier cat budget to_parse tier with
  | Return out => (length out <= length to_parse)%nat
  | Raise _ => True
  | Diverge => False
  end.
Proof.
  intros Htier Hreg. revert to_parse.
  induction budget as [|budget IH]; intros to_parse Hlen; [lia|].
  cbn [fold_tier].
  destruct (_match cat to_parse tier) as [[[[i j] e]|]| |] eqn:Hm; cbn [bind].
  - pose proof (fold_shrinks tier to_parse i j e Htier Hreg Hm) as Hs.
    specialize (IH (take i to_parse ++ [e] ++ drop j to_parse) ltac:(lia)).
    destruct (fold_tier cat budget _ tier); [lia | exact I | exact IH].
  - lia.
  - exact I.
  - unfold _match in Hm. clear -Hm. exfalso.
    revert Hm. generalize 0%nat.
    induction to_parse as [|x l IHl]; intros i Hm; [discriminate|].
    cbn [match_from] in Hm.
    assert (Hs : forall n items targets expr_type,
              is_match cat n items targets expr_type <> Diverge).
    { clear. intros n items. revert n.
      induction items as [|item items IH]; intros n targets expr_type;
        cbn [is_match].
      - destruct (is_end n); [destruct expr_type|]; discriminate.
      - destruct (is_end n); [destruct expr_type; discriminate|].
        destruct (item_matcher cat item ≫= _); [|discriminate].
        destruct item; try apply IH.
        destruct (TOKEN_TO_CLASS cat !! operator); [apply IH | discriminate]. }
    destruct (is_match cat _ (x :: l) [] None) as [[[ts cls]|]| |] eqn:Hi;
      cbn [bind] in Hm; try discriminate.
    + eapply IHl, Hm.
    + eapply Hs, Hi.
Qed.

Lemma fold_tiers_settled tiers budget to_parse :
  (forall tier cls, tier ∈ tiers -> cls ∈ tier -> (2 <= length (expects cls))%nat) ->
  (forall symbol cls,
     TOKEN_TO_CLASS cat !! symbol = Some cls -> (2 <= length (expects cls))%nat) ->
  (length to_parse < budget)%nat ->
  match fold_tiers cat budget to_parse tiers with
  | Return out => (length out <= length to_parse)%nat
  | Raise _ => True
  | Diverge => False
  end.
Proof.
  intros Htiers Hreg. revert to_parse.
  induction tiers as [|tier tiers IH]; intros to_parse Hlen; cbn [fold_tiers];
    [lia|].
  pose proof (fold_tier_settled tier budget to_parse
                (fun cls => Htiers tier cls ltac:(left)) Hreg Hlen) as Ht.
  destruct (fold_tier cat budget to_parse tier) as [out| |]; cbn [bind];
    [|exact I | exact Ht].
  specialize (IH (fun t c Ht' => Htiers t c ltac:(right; exact Ht')) out
                ltac:(lia)).
  destruct (fold_tiers cat budget out tiers); [lia | exact I | exact IH].
Qed.

Lemma resolved_settled recurse gs tail :
  (forall l, (length l + 2 <= length (flat gs tail))%nat -> settled (recurse l)) ->
  match resolved recurse gs tail with
  | Return out => (length out <= length (flat gs tail))%nat
  | Raise _ => True
  | Diverge => False
  end.
Proof.
  induction gs as [|[p inner] gs IH]; intros Hrec; cbn [resolved flat].
  - lia.
  - assert (Hlen : length (p ++ LeftParanthesis :: inner
                             ++ RightParanthesis :: flat gs tail)
                   = (length p + length inner + 2 + length (flat gs tail))%nat).
    { rewrite !length_app. cbn [length]. rewrite length_app. cbn [length]. lia. }
    cbn [flat] in Hrec. rewrite Hlen in *.
    assert (IH' : match resolved recurse gs tail with
                  | Return out => (length out <= length (flat gs tail))%nat
                  | Raise _ => True
                  | Diverge => False
                  end).
    { apply IH. intros l Hl. apply Hrec. lia. }
    destruct inner as [|x inner].
    + destruct (resolved recurse gs tail) as [out| |]; cbn [bind];
        [|exact I | exact IH'].
      rewrite length_app. lia.
    + pose proof (Hrec (x :: inner) ltac:(lia)) as Hx.
      destruct (recurse (x :: inner)) as [e| |]; cbn [bind];
        [|exact I | apply Hx; reflexivity].
      destruct (resolved recurse gs tail) as [out| |]; cbn [bind];
        [|exact I | exact IH'].
      rewrite length_app. cbn [length] in *. lia.
Qed.

Lemma _build_ast_settled budget tokens symbol_table :
  patterns_fold cat ->
  (length tokens + 2 <= budget)%nat ->
  settled (_build_ast cat budget tokens symbol_table).
Proof.
  intros [Htiers Hreg]. revert tokens.
  induction budget as [|budget IH]; intros tokens Hlen; [lia|].
  rewrite _build_ast_unfold.
  set (recurse := fun sublist => _build_ast cat budget sublist symbol_table).
  destruct (_get_subexpressions tokens) as [found|e|] eqn:Hscan.
  - assert (Hbal : balanced tokens) by (apply balanced_iff_scan; eauto).
    apply balanced_flat in Hbal as (gs & tail & -> & Hgs & Htail).
    rewrite (proj2 (resolve_flat recurse gs tail Hgs Htail)).
    pose proof (resolved_settled recurse gs tail) as Hres.
    destruct (resolved recurse gs tail) as [out| |]; cbn [bind].
    + specialize (Hres ltac:(intros l Hl; apply IH; lia)).
      pose proof (fold_tiers_settled (order_of_operations cat) budget out
                    Htiers Hreg ltac:(lia)) as Ht.
      destruct (fold_tiers cat budget out _) as [residual| |]; cbn [bind];
        [|discriminate | contradiction].
      destruct (end_of_parse_cases residual) as [(e & _ & _ & ->)|[_ ->]];
        discriminate.
    + discriminate.
    + exfalso. apply Hres. intros l Hl. apply IH. lia.
  - unfold resolve. rewrite Hscan. discriminate.
  - exfalso. exact (scan_settled tokens 0 [] [] Hscan).
Qed.

(** X8. When every pattern has at least two requirements, each fold
    shortens the working sequence, so the [while matched] loops and the
    recursion end: parsing a text returns or raises within a budget of
    the number of its characters other than spaces, plus two. *)
Theorem X8_parsing_ends input symbol_table budget :
  patterns_fold cat ->
  (length (remove_whitespace (chars input)) + 2 <= budget)%nat ->
  settled (parse cat budget input symbol_table).
Proof.
  intros Hcat Hlen. unfold parse.
  destruct (lexer_ends cat input symbol_table)
    as [(tokens & -> & _ & Htok)| ->]; cbn [bind]; [|discriminate].
  apply _build_ast_settled; [exact Hcat | lia].
Qed.

End Termination.

Lemma spec_catalog_patterns_fold : patterns_fold spec_catalog.
Proof.
  split.
  - intros tier cls Ht Hc. cbn [order_of_operations spec_catalog] in Ht.
    repeat (apply elem_of_cons in Ht as [->|Ht]);
      try (apply list_elem_of_singleton in Hc as ->; vm_compute; lia).
    inversion Ht.
  - intros symbol cls H. cbn [TOKEN_TO_CLASS spec_catalog] in H.
    repeat (apply lookup_insert_Some in H as [[_ <-]|[_ H]];
            [vm_compute; lia|]).
    rewrite lookup_empty in H. discriminate.
Qed.

Lemma X8_parsing_ends_witness :
  patterns_fold spec_catalog
  /\ settled (parse spec_catalog 9 "A & (B | C)" ∅).
Proof.
  split; [exact spec_catalog_patterns_fold|].
  apply (X8_parsing_ends spec_catalog "A & (B | C)" ∅ 9
           spec_catalog_patterns_fold).
  vm_compute. lia.
Defined.

(** ** The [either] and [is_type] combinators *)

Section EitherFacts.

Import Combinators.

Context {X K V : Type}.

Implicit Types (combinators : list (Combinator (X:=X) (K:=K) V)).
Implicit Types (tokens : list (X * K)).

(** X9. [either] gives the outcome of the first combinator that does
    not fail on the token list: its result when it succeeds, its
    exception when it raises.  The combinators after it are not
    consulted.  When every combinator fails, the result is a bare
    failure, with no value and no rest. *)
Theorem X9_either_first_success combinators tokens :
  match either combinators tokens with
  | Return result =>
      if success result then
        exists before combinator after,
          combinators = before ++ combinator :: after
          /\ Forall (fails_on tokens) before
          /\ combinator tokens = Return result
      else
        result = mkResult false None None
        /\ Forall (fails_on tokens) combinators
  | Raise e =>
      exists before combinator after,
        combinators = before ++ combinator :: after
        /\ Forall (fails_on tokens) before
        /\ combinator tokens = Raise e
  | Diverge =>
      exists before combinator after,
        combinators = before ++ combinator :: after
        /\ Forall (fails_on tokens) before
        /\ combinator tokens = Diverge
  end.
Proof.
  induction combinators as [|c cs IH]; cbn [either].
  - cbn [success]. split; [reflexivity | constructor].
  - destruct (c tokens) as [r| |] eqn:Hc; cbn [bind].
    + destruct (success r) eqn:Hr.
      * rewrite Hr. exists [], c, cs. split; [reflexivity|]. split; [constructor | exact Hc].
      * assert (Hf : fails_on tokens c) by (exists r; split; assumption).
        destruct (either cs tokens) as [r'|e|].
        -- destruct (success r').
           ++ destruct IH as (before & c' & after & -> & Hb & Hc').
              exists (c :: before), c', after.
              split; [reflexivity|]. split; [constructor; assumption | exact Hc'].
           ++ destruct IH as [-> Hall]. split; [reflexivity|].
              constructor; assumption.
        -- destruct IH as (before & c' & after & -> & Hb & Hc').
           exists (c :: before), c', after.
           split; [reflexivity|]. split; [constructor; assumption | exact Hc'].
        -- destruct IH as (before & c' & after & -> & Hb & Hc').
           exists (c :: before), c', after.
           split; [reflexivity|]. split; [constructor; assumption | exact Hc'].
    + exists [], c, cs. split; [reflexivity|]. split; [constructor | exact Hc].
    + exists [], c, cs. split; [reflexivity|]. split; [constructor | exact Hc].
Qed.

End EitherFacts.

Section IsTypeFacts.

Import Combinators.

Context {X K E : Type}.
Variable isinstance : E -> K -> bool.

Implicit Types (expressions : list E).
Implicit Types (tokens : list (X * K)).

(** X10. An [either] over [is_type] combinators reads the first token
    only: it succeeds exactly when one of the expressions is an instance
    of the class of the first token, and then takes that one token and
    leaves every token after it; when none is, the result is a bare
    failure.  On an empty token list the first [is_type] raises
    [IndexError]. *)
Theorem X10_either_of_is_type expressions tokens :
  either (map (is_type isinstance) expressions) tokens
  = match tokens with
    | [] =>
        match expressions with
        | [] => Return (mkResult false None None)
        | _ :: _ => Raise IndexError
        end
    | tok :: tokens' =>
        if existsb (fun expression => isinstance expression (snd tok)) expressions
        then Return (mkResult true (Some [tok]) (Some tokens'))
        else Return (mkResult false None None)
    end.
Proof.
  destruct tokens as [|tok tokens'].
  - destruct expressions; reflexivity.
  - induction expressions as [|e es IH]; [reflexivity|].
    cbn [map either is_type bind success existsb snd].
    destruct (isinstance e tok.2); [reflexivity | exact IH].
Qed.

End IsTypeFacts.

(** ** Names in the token sequence *)

Section NamesApart.

Variable cat : Catalog.

Lemma literal_run_stops allowed s run rest :
  literal_run allowed s = (run, rest) ->
  match rest with c :: _ => allowed c = false | [] => True end.
Proof.
  revert run rest. induction s as [|c s IH]; intros run rest H; simpl in H.
  - injection H as _ <-. exact I.
  - destruct (allowed c) eqn:Hc.
    + destruct (literal_run allowed s) as [run' rest'] eqn:Hrun.
      injection H as _ <-. eapply IH. reflexivity.
    + injection H as _ <-. exact Hc.
Qed.

Lemma names_apart_snoc acc tok :
  names_apart acc ->
  (forall a, last acc = Some a -> is_name a = true -> is_name tok = false) ->
  names_apart (acc ++ [tok]).
Proof.
  induction acc as [|a [|b acc] IH]; intros Hacc Hlast.
  - exact I.
  - split; [|exact I]. apply Hlast. reflexivity.
  - destruct Hacc as [Hab Hacc]. split; [exact Hab|].
    apply IH; [exact Hacc|]. intros a' Ha'. apply Hlast.
    rewrite last_cons. cbn [last] in Ha' |- *. rewrite Ha'. reflexivity.
Qed.

Lemma tokenize_loop_names budget s symbol_table acc tokens :
  names_apart acc ->
  (forall a c s', last acc = Some a -> is_name a = true -> s = c :: s' ->
     allowed_symbols c = false) ->
  tokenize_loop cat budget s symbol_table acc = Return tokens ->
  names_apart tokens.
Proof.
  revert s acc. induction budget as [|budget IH]; intros s acc Hacc Hsep H.
  - destruct s; [|discriminate]. injection H as <-. exact Hacc.
  - destruct s as [|c s]; [injection H as <-; exact Hacc|].
    cbn [tokenize_loop] in H.
    destruct (language cat c) eqn:Hlang; [|discriminate]. cbn [negb] in H.
    destruct (parantheses c) eqn:Hpar.
    { eapply IH; [| |exact H].
      - apply names_apart_snoc; [exact Hacc|]. intros _ _ _.
        unfold PARANTHESES_TO_CLASS. destruct (bool_decide _); reflexivity.
      - intros a c' s' Ha Hname. rewrite last_snoc in Ha. injection Ha as <-.
        unfold PARANTHESES_TO_CLASS in Hname.
        destruct (bool_decide _); discriminate. }
    destruct (operation_symbols cat c) eqn:Hop.
    { destruct (_match_op_symbol cat [] (c :: s)) as [sym rest] eqn:Hm.
      eapply IH; [| |exact H].
      - apply names_apart_snoc; [exact Hacc|]. reflexivity.
      - intros a c' s' Ha Hname. rewrite last_snoc in Ha. injection Ha as <-.
        discriminate. }
    unfold _match_literal_or_var in H.
    destruct (literal_run allowed_symbols (c :: s)) as [run rest] eqn:Hrun.
    apply literal_run_stops in Hrun as Hstop.
    assert (Hnext : tokenize_loop cat budget rest symbol_table
                      (acc ++ [classify cat (string_of_list_ascii run) symbol_table])
                    = Return tokens).
    { destruct rest as [|c' rest]; [exact H|].
      destruct (language cat c'); [exact H | discriminate]. }
    eapply IH; [| |exact Hnext].
    + apply names_apart_snoc; [exact Hacc|]. intros a Ha Hname.
      pose proof (Hsep a c s Ha Hname eq_refl) as Hc.
      rewrite (language_allowed cat _ Hlang Hpar Hop) in Hc. discriminate.
    + intros a c' s' _ _ ->. exact Hstop.
Qed.

(** X13. A run of name characters is read whole: in the tokens the
    lexer returns, a literal or identifier is never followed directly by
    another literal or identifier. *)
Theorem X13_names_are_read_whole s symbol_table tokens :
  _tokenize cat s symbol_table = Return tokens -> names_apart tokens.
Proof.
  intros H. eapply tokenize_loop_names; [| |exact H].
  - exact I.
  - intros a c s' Ha. discriminate.
Qed.

End NamesApart.

Lemma X13_names_are_read_whole_witness :
  names_apart
    [Identifier "A1" ∅; Operator "&"; LeftParanthesis; BooleanLiteral "True";
     RightParanthesis].
Proof.
  apply (X13_names_are_read_whole spec_catalog "A 1 & (Tr ue)" ∅). reflexivity.
Defined.

(** ** A group that is the whole sequence, and chains of one tier *)

Section Structure.

Variable cat : Catalog.

Lemma is_match_single n e targets expr_type :
  ~ complete n [] -> (forall k, ~ complete n [k]) ->
  is_Expression e = true ->
  is_match cat n [e] targets expr_type = Return None.
Proof.
  intros H0 H1 He.
  assert (Hn : is_end n = false).
  { destruct (is_end n) eqn:Hend; [|reflexivity]. exfalso. apply H0.
    exists n. split; [reflexivity | exact Hend]. }
  cbn [is_match]. rewrite Hn.
  destruct (item_matcher cat e) as [k|]; [|reflexivity].
  cbn [mbind option_bind].
  destruct (dict_get k (children n)) as [child|] eqn:Hchild; [|reflexivity].
  assert (Hc : is_end child = false).
  { destruct (is_end child) eqn:Hend; [|reflexivity]. exfalso. apply (H1 k).
    exists child. split; [|exact Hend]. cbn [trie_find]. rewrite Hchild. reflexivity. }
  destruct e; try discriminate; rewrite Hc; reflexivity.
Qed.

Lemma _match_single tier e :
  (forall cls, cls ∈ tier -> (2 <= length (expects cls))%nat) ->
  is_Expression e = true ->
  _match cat [e] tier = Return None.
Proof.
  intros Htier He. unfold _match. cbn [match_from].
  rewrite is_match_single; [reflexivity | | |exact He].
  - intros Hc. apply _build_trie_complete in Hc as (c & Hin & Heq).
    apply Htier in Hin. rewrite <- Heq in Hin. simpl in Hin. lia.
  - intros k Hc. apply _build_trie_complete in Hc as (c & Hin & Heq).
    apply Htier in Hin. rewrite <- Heq in Hin. simpl in Hin. lia.
Qed.

Lemma fold_tiers_single tiers budget e :
  (forall tier cls, tier ∈ tiers -> cls ∈ tier -> (2 <= length (expects cls))%nat) ->
  is_Expression e = true ->
  fold_tiers cat (S budget) [e] tiers = Return [e].
Proof.
  intros Htiers He. induction tiers as [|tier tiers IH]; [reflexivity|].
  cbn [fold_tiers fold_tier].
  rewrite _match_single;
    [|intros cls Hin; eapply Htiers; [left | exact Hin] | exact He].
  cbn [bind]. apply IH. intros t c Ht. apply Htiers. right. exact Ht.
Qed.

(** X11. A pair of parentheses around a whole sequence changes nothing:
    when no pattern of a tier has fewer than two requirements, the
    parenthesised sequence is parsed, with one more level of budget, to
    what its interior is parsed to, result or exception alike. *)
Theorem X11_enclosing_pair_is_transparent budget inner symbol_table :
  (forall tier cls,
     tier ∈ order_of_operations cat -> cls ∈ tier ->
     (2 <= length (expects cls))%nat) ->
  balanced inner -> inner <> [] ->
  _build_ast cat (S budget) (LeftParanthesis :: inner ++ [RightParanthesis])
    symbol_table
  = _build_ast cat budget inner symbol_table.
Proof.
  intros Htiers Hbal Hne. rewrite _build_ast_unfold.
  change (LeftParanthesis :: inner ++ [RightParanthesis])
    with (flat [([], inner)] []).
  rewrite (proj2 (resolve_flat _ [([], inner)] []
                    ltac:(repeat constructor; assumption) ltac:(constructor))).
  cbn [resolved]. destruct inner as [|x inner]; [congruence|].
  destruct (_build_ast cat budget (x :: inner) symbol_table) as [e| |] eqn:He;
    cbn [bind app]; try reflexivity.
  destruct budget as [|budget]; [discriminate|].
  apply _build_ast_Return in He as Hexpr.
  rewrite fold_tiers_single by assumption. cbn [bind end_of_parse].
  rewrite Hexpr. reflexivity.
Qed.

Lemma is_Expression_not_Operator e :
  is_Expression e = true -> is_Operator e = false.
Proof. destruct e; intros; try discriminate; reflexivity. Qed.

Lemma is_Expression_matcher e :
  is_Expression e = true ->
  item_matcher cat e = Some (ExpectType (item_returns cat e)).
Proof. unfold item_matcher. intros ->. reflexivity. Qed.

Lemma fold_tier_head tier a e0 symbol cls e items budget :
  (forall c, c ∈ tier -> (3 <= length (expects c))%nat) ->
  is_Expression e0 = true -> item_returns cat e0 = a ->
  infix_step cat tier a (symbol, cls, e) ->
  fold_tier cat (S budget) (e0 :: Operator symbol :: e :: items) tier
  = fold_tier cat budget (Compound cls [e0; e] :: items) tier.
Proof.
  intros Htier He0 Ha (Hin & Hexp & Hret & Hreg & He & Hea).
  assert (Hlast : last_operator [e0; Operator symbol; e] = Some symbol).
  { destruct e0; try discriminate He0; destruct e; try discriminate He;
      reflexivity. }
  assert (Hops : operands [e0; Operator symbol; e] = [e0; e]).
  { destruct e0; try discriminate He0; destruct e; try discriminate He;
      reflexivity. }
  destruct (walks_pattern cat tier cls [e0; Operator symbol; e] Hin)
    as (node & Hw & Hend).
  { rewrite Hexp. repeat constructor.
    - rewrite is_Expression_matcher, Ha by exact He0. reflexivity.
    - rewrite is_Expression_matcher, Hea by exact He. reflexivity. }
  { intros cls' ks' Hin' Heq. apply Htier in Hin'.
    apply (f_equal length) in Heq. rewrite Hexp, length_app in Heq.
    destruct ks'; [reflexivity | simpl in Heq; lia]. }
  pose proof (match_from_walks cat (_build_trie tier)
                [e0; Operator symbol; e] node items 0%nat Hw Hend) as Hm.
  unfold match_result in Hm. rewrite Hlast, Hops in Hm.
  destruct Hm as (cls' & Hcls' & Hm).
  { constructor; [destruct e0; try discriminate He0; exact I|].
    constructor; [exists cls; exact Hreg|].
    constructor; [destruct e; try discriminate He; exact I | constructor]. }
  { discriminate. }
  rewrite Hreg in Hcls'. injection Hcls' as <-.
  cbn [fold_tier]. unfold _match.
  cbn [app] in Hm. rewrite Hm. cbn [bind]. rewrite Hexp. reflexivity.
Qed.

Lemma left_nested_expression tier a e0 steps :
  is_Expression e0 = true -> item_returns cat e0 = a ->
  Forall (infix_step cat tier a) steps ->
  is_Expression (left_nested e0 steps) = true
  /\ item_returns cat (left_nested e0 steps) = a.
Proof.
  intros He0 Ha Hsteps. revert e0 He0 Ha.
  induction Hsteps as [|[[symbol cls] e] steps Hstep _ IH]; intros e0 He0 Ha.
  - split; assumption.
  - destruct Hstep as (_ & _ & Hret & _).
    apply (IH (Compound cls [e0; e])); [reflexivity | exact Hret].
Qed.

Lemma tight_run tier a e0 steps items budget :
  (forall c, c ∈ tier -> (3 <= length (expects c))%nat) ->
  is_Expression e0 = true -> item_returns cat e0 = a ->
  Forall (infix_step cat tier a) steps ->
  fold_tier cat (length steps + budget) (chain e0 steps ++ items) tier
  = fold_tier cat budget (left_nested e0 steps :: items) tier.
Proof.
  intros Htier He0 Ha Hsteps. revert e0 He0 Ha.
  induction Hsteps as [|[[symbol cls] e] steps Hstep _ IH]; intros e0 He0 Ha.
  - reflexivity.
  - unfold chain. cbn [chain_tail length Nat.add app].
    rewrite (fold_tier_head tier a e0 symbol cls e) by assumption.
    destruct Hstep as (_ & _ & Hret & _).
    apply (IH (Compound cls [e0; e])); [reflexivity | exact Hret].
Qed.

Lemma fold_tier_chain tier a e0 steps budget :
  (forall cls, cls ∈ tier -> (3 <= length (expects cls))%nat) ->
  is_Expression e0 = true -> item_returns cat e0 = a ->
  Forall (infix_step cat tier a) steps ->
  (length steps < budget)%nat ->
  fold_tier cat budget (chain e0 steps) tier = Return [left_nested e0 steps].
Proof.
  intros Htier He0 Ha Hsteps Hlen.
  replace budget with (length steps + S (budget - length steps - 1))%nat by lia.
  rewrite <- (app_nil_r (chain e0 steps)).
  rewrite (tight_run tier a) by assumption.
  cbn [fold_tier]. rewrite _match_single; [reflexivity| |].
  - intros cls Hin. apply Htier in Hin. lia.
  - eapply left_nested_expression; eassumption.
Qed.

(** X12. Within a tier, operators fold from the left: a chain of
    operands of one type joined by infix operators of the tier, each
    giving that type again, is folded into the left-nested expression,
    in as many rounds of the loop as there are operators. *)
Theorem X12_tier_folds_from_the_left tier a e0 steps budget :
  (forall cls, cls ∈ tier -> (3 <= length (expects cls))%nat) ->
  is_Expression e0 = true -> item_returns cat e0 = a ->
  Forall (infix_step cat tier a) steps ->
  (length steps < budget)%nat ->
  fold_tier cat budget (chain e0 steps) tier = Return [left_nested e0 steps].
Proof. apply fold_tier_chain. Qed.

(** *** Two tiers *)

Lemma match_from_shift trie items i k :
  match_from cat trie items (k + i)
  = let* m := match_from cat trie items i in
    Return (option_map (fun '(a, b, e) => ((k + a)%nat, (k + b)%nat, e)) m).
Proof.
  revert i. induction items as [|item items IH]; intros i; [reflexivity|].
  cbn [match_from].
  destruct (is_match cat trie (item :: items) [] None) as [[[ts cls]|]| |];
    cbn [bind option_map]; try reflexivity.
  - rewrite Nat.add_assoc. reflexivity.
  - rewrite <- Nat.add_succ_r. apply IH.
Qed.

Lemma is_prefix_elem ks m k : is_prefix ks m = true -> k ∈ ks -> k ∈ m.
Proof.
  revert m. induction ks as [|k0 ks IH]; intros m H Hin; [inversion Hin|].
  destruct m as [|k1 m]; [discriminate|]. cbn [is_prefix] in H.
  apply andb_true_iff in H as [Hk H]. apply bool_decide_eq_true in Hk as <-.
  apply elem_of_cons in Hin as [->|Hin]; [left | right; eapply IH; eassumption].
Qed.

Lemma skip_match tier e0 symbol items :
  (forall c, c ∈ tier -> (2 <= length (expects c))%nat) ->
  (forall c, c ∈ tier -> ExpectOp symbol ∉ expects c) ->
  is_Expression e0 = true ->
  _match cat (e0 :: Operator symbol :: items) tier
  = let* m := _match cat items tier in
    Return (option_map (fun '(a, b, e) => ((2 + a)%nat, (2 + b)%nat, e)) m).
Proof.
  intros Htier Hsym He0. unfold _match.
  set (trie := _build_trie tier).
  assert (Hroot : is_end trie = false).
  { destruct (is_end trie) eqn:Hend; [|reflexivity]. exfalso.
    assert (Hc : complete trie []) by (exists trie; auto).
    apply _build_trie_complete in Hc as (c & Hin & Heq).
    apply Htier in Hin. rewrite <- Heq in Hin. simpl in Hin. lia. }
  assert (Hnone : forall ks, ExpectOp symbol ∈ ks -> trie_find trie ks = None).
  { intros ks Hin. destruct (trie_find trie ks) as [node|] eqn:Hfind;
      [|reflexivity]. exfalso.
    destruct (proj1 (_build_trie_find tier ks)) as [->|(c & Hc & Hpre)];
      [eexists; exact Hfind | inversion Hin|].
    apply (Hsym c Hc). eapply is_prefix_elem; eassumption. }
  assert (H1 : is_match cat trie (Operator symbol :: items) [] None = Return None).
  { cbn [is_match]. rewrite Hroot. cbn [item_matcher is_Expression mbind option_bind].
    pose proof (Hnone [ExpectOp symbol] ltac:(left)) as Hn.
    cbn [trie_find] in Hn.
    destruct (dict_get (ExpectOp symbol) (children trie)); [discriminate|].
    reflexivity. }
  assert (H0 : is_match cat trie (e0 :: Operator symbol :: items) [] None
               = Return None).
  { cbn [is_match]. rewrite Hroot, is_Expression_matcher by exact He0.
    cbn [mbind option_bind].
    destruct (dict_get (ExpectType (item_returns cat e0)) (children trie))
      as [child|] eqn:Hchild; [|reflexivity].
    assert (Hc : is_end child = false).
    { destruct (is_end child) eqn:Hend; [|reflexivity]. exfalso.
      assert (Hc : complete trie [ExpectType (item_returns cat e0)]).
      { exists child. cbn [trie_find]. rewrite Hchild. auto. }
      apply _build_trie_complete in Hc as (c & Hin & Heq).
      apply Htier in Hin. rewrite <- Heq in Hin. simpl in Hin. lia. }
    pose proof (Hnone [ExpectType (item_returns cat e0); ExpectOp symbol]
                  ltac:(right; left)) as Hn.
    cbn [trie_find] in Hn. rewrite Hchild in Hn.
    assert (Hnext : is_match cat child (Operator symbol :: items) ([] ++ [e0]) None
                    = Return None).
    { cbn [is_match]. rewrite Hc.
      cbn [item_matcher is_Expression mbind option_bind].
      destruct (dict_get (ExpectOp symbol) (children child)); [discriminate|].
      reflexivity. }
    destruct e0; try discriminate He0; exact Hnext. }
  change (match_from cat trie (e0 :: Operator symbol :: items) 0)
    with (let* r := is_match cat trie (e0 :: Operator symbol :: items) [] None in
          match r with
          | Some (targets, expr_type) =>
              Return (Some (0, (0 + length (expects expr_type)),
                            Compound expr_type targets))%nat
          | None =>
              let* r := is_match cat trie (Operator symbol :: items) [] None in
              match r with
              | Some (targets, expr_type) =>
                  Return (Some (1, (1 + length (expects expr_type)),
                                Compound expr_type targets))%nat
              | None => match_from cat trie items 2
              end
          end).
  rewrite H0. cbn [bind]. rewrite H1. cbn [bind].
  apply (match_from_shift trie items 0 2).
Qed.

Lemma fold_tier_skip tier e0 symbol items budget :
  (forall c, c ∈ tier -> (2 <= length (expects c))%nat) ->
  (forall c, c ∈ tier -> ExpectOp symbol ∉ expects c) ->
  is_Expression e0 = true ->
  fold_tier cat budget (e0 :: Operator symbol :: items) tier
  = let* out := fold_tier cat budget items tier in
    Return (e0 :: Operator symbol :: out).
Proof.
  intros Htier Hsym He0. revert items.
  induction budget as [|budget IH]; intros items; [reflexivity|].
  cbn [fold_tier]. rewrite skip_match by assumption.
  destruct (_match cat items tier) as [[[[i j] e]|]| |];
    cbn [bind option_map]; try reflexivity.
  cbn [Nat.add take drop app]. apply IH.
Qed.

Lemma chain_tail_app steps steps' :
  chain_tail (steps ++ steps') = chain_tail steps ++ chain_tail steps'.
Proof.
  induction steps as [|[[symbol cls] e] steps IH]; [reflexivity|].
  cbn [app chain_tail]. rewrite IH. reflexivity.
Qed.

Lemma tight_pass tight loose a groups :
  (forall cls, cls ∈ tight -> (3 <= length (expects cls))%nat) ->
  Forall (loose_group cat tight loose a) groups ->
  forall e0 steps0 budget,
    is_Expression e0 = true -> item_returns cat e0 = a ->
    Forall (infix_step cat tight a) steps0 ->
    (length steps0 + length (ungroup groups) < budget)%nat ->
    fold_tier cat budget (chain e0 (steps0 ++ ungroup groups)) tight
    = Return (chain (left_nested e0 steps0) (map regroup groups)).
Proof.
  intros Htight Hgroups.
  induction Hgroups as [|[[[symbol cls] e] steps] groups Hg _ IH];
    intros e0 steps0 budget He0 Ha Hsteps Hlen.
  - unfold ungroup in *. cbn [map concat length] in *. rewrite app_nil_r.
    apply (fold_tier_chain tight a); [assumption..|lia].
  - destruct Hg as ((_ & _ & _ & _ & He & Hea) & Hsym & Hrun).
    cbn [fst snd] in *.
    assert (Hug : ungroup (((symbol, cls, e), steps) :: groups)
                  = (symbol, cls, e) :: steps ++ ungroup groups) by reflexivity.
    rewrite Hug in *. cbn [length] in Hlen. rewrite length_app in Hlen.
    replace budget with (length steps0 + (budget - length steps0))%nat by lia.
    unfold chain. rewrite chain_tail_app. cbn [chain_tail].
    change (e0 :: chain_tail steps0
            ++ Operator symbol :: e :: chain_tail (steps ++ ungroup groups))
      with (chain e0 steps0
            ++ Operator symbol :: chain e (steps ++ ungroup groups)).
    rewrite (tight_run tight a) by assumption.
    destruct (left_nested_expression tight a e0 steps0 He0 Ha Hsteps)
      as [He' _].
    rewrite fold_tier_skip; [|intros c Hc; apply Htight in Hc; lia | exact Hsym
                             | exact He'].
    rewrite IH; [reflexivity | exact He | exact Hea | exact Hrun | lia].
Qed.

Lemma ungroup_length groups : (length groups <= length (ungroup groups))%nat.
Proof.
  induction groups as [|g groups IH]; [reflexivity|].
  unfold ungroup in *. cbn [map concat]. rewrite length_app. cbn [length]. lia.
Qed.

(** X16. An earlier tier binds tighter than a later one: in a chain of
    operands of one type joined by infix operators of two tiers, the
    operators of the earlier tier are folded first, each run of them
    from the left, and then the operators of the later tier, from the
    left, over the expressions so made. *)
Theorem X16_earlier_tier_binds_tighter tight loose a e0 steps0 groups budget :
  (forall cls, cls ∈ tight -> (3 <= length (expects cls))%nat) ->
  (forall cls, cls ∈ loose -> (3 <= length (expects cls))%nat) ->
  is_Expression e0 = true -> item_returns cat e0 = a ->
  Forall (infix_step cat tight a) steps0 ->
  Forall (loose_group cat tight loose a) groups ->
  (length (steps0 ++ ungroup groups) < budget)%nat ->
  fold_tiers cat budget (chain e0 (steps0 ++ ungroup groups)) [tight; loose]
  = Return [left_nested (left_nested e0 steps0) (map regroup groups)].
Proof.
  intros Htight Hloose He0 Ha Hsteps Hgroups Hlen.
  rewrite length_app in Hlen. cbn [fold_tiers].
  rewrite (tight_pass tight loose a groups Htight Hgroups) by (assumption || lia).
  cbn [bind].
  destruct (left_nested_expression tight a e0 steps0 He0 Ha Hsteps) as [He' Ha'].
  rewrite (fold_tier_chain loose a); [reflexivity | assumption.. | |].
  - clear -Hgroups. induction Hgroups as [|[[[symbol cls] e] steps] groups Hg _ IH];
      [constructor|].
    cbn [map regroup]. constructor; [|exact IH].
    destruct Hg as ((Hin & Hexp & Hret & Hreg & He & Hea) & _ & Hrun).
    cbn [fst snd] in *.
    destruct (left_nested_expression tight a e steps He Hea Hrun) as [He' Ha'].
    repeat split; assumption.
  - rewrite length_map. pose proof (ungroup_length groups). lia.
Qed.

End Structure.

(** "A & B & C" in the tier of the specification's [And]. *)
Lemma X12_tier_folds_from_the_left_witness :
  fold_tier spec_catalog 3
    [Identifier "A" ∅; Operator "&"; Identifier "B" ∅; Operator "&";
     Identifier "C" ∅] [And]
  = Return [Compound And [Compound And [Identifier "A" ∅; Identifier "B" ∅];
                          Identifier "C" ∅]].
Proof.
  apply (X12_tier_folds_from_the_left spec_catalog [And] BOOLEAN
           (Identifier "A" ∅)
           [("&", And, Identifier "B" ∅); ("&", And, Identifier "C" ∅)] 3%nat).
  - intros cls Hin. apply list_elem_of_singleton in Hin as ->. simpl. lia.
  - reflexivity.
  - reflexivity.
  - repeat constructor.
  - simpl. lia.
Defined.

(** "((A & B))" and "(A & B)" with the catalog of the specification. *)
Lemma X11_enclosing_pair_is_transparent_witness :
  _build_ast spec_catalog 4
    (LeftParanthesis
     :: [LeftParanthesis; Identifier "A" ∅; Operator "&"; Identifier "B" ∅;
         RightParanthesis] ++ [RightParanthesis]) ∅
  = _build_ast spec_catalog 3
      [LeftParanthesis; Identifier "A" ∅; Operator "&"; Identifier "B" ∅;
       RightParanthesis] ∅.
Proof.
  apply (X11_enclosing_pair_is_transparent spec_catalog 3).
  - exact (proj1 spec_catalog_patterns_fold).
  - apply (balanced_group [Identifier "A" ∅; Operator "&"; Identifier "B" ∅] []).
    + repeat (apply balanced_token; [reflexivity|]). constructor.
    + constructor.
  - discriminate.
Defined.

(** "A | B & C | D" in the tiers of the specification's [And] and [Or]. *)
Lemma X16_earlier_tier_binds_tighter_witness :
  fold_tiers spec_catalog 4
    [Identifier "A" ∅; Operator "|"; Identifier "B" ∅; Operator "&";
     Identifier "C" ∅; Operator "|"; Identifier "D" ∅] [[And]; [Or]]
  = Return [Compound Or
              [Compound Or
                 [Identifier "A" ∅;
                  Compound And [Identifier "B" ∅; Identifier "C" ∅]];
               Identifier "D" ∅]].
Proof.
  apply (X16_earlier_tier_binds_tighter spec_catalog [And] [Or] BOOLEAN
           (Identifier "A" ∅) []
           [(("|", Or, Identifier "B" ∅), [("&", And, Identifier "C" ∅)]);
            (("|", Or, Identifier "D" ∅), [])] 4%nat).
  - intros cls Hin. apply list_elem_of_singleton in Hin as ->. simpl. lia.
  - intros cls Hin. apply list_elem_of_singleton in Hin as ->. simpl. lia.
  - reflexivity.
  - reflexivity.
  - constructor.
  - assert (Hsym : forall cls, cls ∈ [And] -> ExpectOp "|" ∉ expects cls).
    { intros cls Hin. apply list_elem_of_singleton in Hin as ->. intros H.
      repeat (apply elem_of_cons in H as [H|H]; [discriminate|]). inversion H. }
    repeat constructor; exact Hsym.
  - simpl. lia.
Defined.

(** ** The shape of the tree *)

Section Tree.

Variable cat : Catalog.

Lemma is_match_typed n items targets expr_type ts cls :
  is_match cat n items targets expr_type = Return (Some (ts, cls)) ->
  exists ks node new,
    trie_find n ks = Some node /\ is_end node = true
    /\ ts = targets ++ new
    /\ Forall (fun x => x ∈ items /\ is_Expression x = true) new
    /\ map (item_returns cat) new = operand_types ks
    /\ Some cls = match pattern_operator ks with
                  | Some symbol => TOKEN_TO_CLASS cat !! symbol
                  | None => expr_type
                  end.
Proof.
  revert n targets expr_type.
  induction items as [|item items IH]; intros n targets expr_type H.
  - cbn [is_match] in H. destruct (is_end n) eqn:Hend; [|discriminate].
    destruct expr_type as [c|]; [|discriminate]. injection H as <- <-.
    exists [], n, []. rewrite app_nil_r. repeat split; try assumption; constructor.
  - cbn [is_match] in H. destruct (is_end n) eqn:Hend.
    { destruct expr_type as [c|]; [|discriminate]. injection H as <- <-.
      exists [], n, []. rewrite app_nil_r.
      repeat split; try assumption; constructor. }
    destruct (item_matcher cat item) as [k|] eqn:Hk; [|discriminate].
    cbn [mbind option_bind] in H.
    destruct (dict_get k (children n)) as [child|] eqn:Hchild; [|discriminate].
    assert (Hstep : forall new,
              Forall (fun x => x ∈ items /\ is_Expression x = true) new ->
              Forall (fun x => x ∈ item :: items /\ is_Expression x = true) new).
    { intros new Hn. eapply Forall_impl; [exact Hn|]. intros x [Hx He].
      split; [right; exact Hx | exact He]. }
    assert (Hplain : is_Expression item = true ->
              is_match cat child items (targets ++ [item]) expr_type
              = Return (Some (ts, cls)) ->
              exists ks node new,
                trie_find n ks = Some node /\ is_end node = true
                /\ ts = targets ++ new
                /\ Forall (fun x => x ∈ item :: items /\ is_Expression x = true) new
                /\ map (item_returns cat) new = operand_types ks
                /\ Some cls = match pattern_operator ks with
                              | Some symbol => TOKEN_TO_CLASS cat !! symbol
                              | None => expr_type
                              end).
    { intros He H'. unfold item_matcher in Hk. rewrite He in Hk.
      injection Hk as <-.
      apply IH in H' as (ks & node & new & Hfind & Hnode & -> & Hnew & Hty & Hcls).
      exists (ExpectType (item_returns cat item) :: ks), node, (item :: new).
      cbn [trie_find]. rewrite Hchild, <- app_assoc.
      split; [exact Hfind|]. split; [exact Hnode|]. split; [reflexivity|].
      split; [constructor; [split; [left | exact He] | apply Hstep, Hnew]|].
      split; [cbn [map operand_types]; rewrite Hty; reflexivity|].
      cbn [pattern_operator]. destruct (pattern_operator ks); exact Hcls. }
    destruct item; try (apply Hplain; [reflexivity | exact H]);
      try (unfold item_matcher in Hk; discriminate Hk).
    destruct (TOKEN_TO_CLASS cat !! operator) as [c|] eqn:Hc; [|discriminate].
    unfold item_matcher in Hk. cbn [is_Expression] in Hk. injection Hk as <-.
    apply IH in H as (ks & node & new & Hfind & Hnode & -> & Hnew & Hty & Hcls).
    exists (ExpectOp operator :: ks), node, new.
    cbn [trie_find]. rewrite Hchild.
    split; [exact Hfind|]. split; [exact Hnode|]. split; [reflexivity|].
    split; [apply Hstep, Hnew|]. split; [exact Hty|].
    cbn [pattern_operator]. destruct (pattern_operator ks); [exact Hcls|].
    rewrite Hc. exact Hcls.
Qed.

Lemma _match_sound tier to_parse i j e :
  tier ∈ order_of_operations cat -> Forall (sound cat) to_parse ->
  _match cat to_parse tier = Return (Some (i, j, e)) ->
  well_formed cat e.
Proof.
  intros Htier Hsound H.
  apply (match_leftmost cat) in H as (targets & cls & _ & _ & Hat & _ & ->).
  apply is_match_typed in Hat
    as (ks & node & new & Hfind & Hnode & -> & Hnew & Hty & Hcls).
  assert (Hc : complete (_build_trie tier) ks) by (exists node; auto).
  apply _build_trie_complete in Hc as (pattern_cls & Hin & ->).
  destruct (pattern_operator (expects pattern_cls)) as [symbol|] eqn:Hop;
    [|discriminate].
  eapply well_formed_node; [exact Htier | exact Hin | exact Hop | | exact Hty|].
  - symmetry. exact Hcls.
  - cbn [app]. eapply Forall_impl; [exact Hnew|]. intros x [Hx He].
    apply (Forall_drop _ i) in Hsound.
    rewrite Forall_forall in Hsound. apply (Hsound x Hx He).
Qed.

Lemma fold_tier_sound tier budget to_parse out :
  tier ∈ order_of_operations cat -> Forall (sound cat) to_parse ->
  fold_tier cat budget to_parse tier = Return out -> Forall (sound cat) out.
Proof.
  intros Htier. revert to_parse.
  induction budget as [|budget IH]; intros to_parse Hsound H; [discriminate|].
  cbn [fold_tier] in H. apply bind_inv_Return in H as (m & Hm & H).
  destruct m as [[[i j] e]|]; [|injection H as <-; exact Hsound].
  eapply IH; [|exact H].
  apply Forall_app. split; [apply Forall_take, Hsound|].
  apply Forall_app. split; [|apply Forall_drop, Hsound].
  constructor; [|constructor]. intros _. eapply _match_sound; eassumption.
Qed.

Lemma fold_tiers_sound tiers budget to_parse out :
  (forall tier, tier ∈ tiers -> tier ∈ order_of_operations cat) ->
  Forall (sound cat) to_parse ->
  fold_tiers cat budget to_parse tiers = Return out -> Forall (sound cat) out.
Proof.
  revert to_parse. induction tiers as [|tier tiers IH];
    intros to_parse Htiers Hsound H; cbn [fold_tiers] in H.
  - injection H as <-. exact Hsound.
  - apply bind_inv_Return in H as (mid & Hmid & H).
    eapply IH; [| |exact H].
    + intros t Ht. apply Htiers. right. exact Ht.
    + eapply fold_tier_sound; [apply Htiers; left | exact Hsound | exact Hmid].
Qed.

Lemma flat_sound gs tail :
  Forall (sound cat) (flat gs tail) ->
  Forall (fun g => Forall (sound cat) g.1 /\ Forall (sound cat) g.2) gs
  /\ Forall (sound cat) tail.
Proof.
  induction gs as [|[p inner] gs IH]; cbn [flat]; intros H.
  - split; [constructor | exact H].
  - apply Forall_app in H as [Hp H]. apply Forall_cons in H as [_ H].
    apply Forall_app in H as [Hinner H]. apply Forall_cons in H as [_ H].
    apply IH in H as [Hgs Htail].
    split; [constructor; [split; assumption | exact Hgs] | exact Htail].
Qed.

Lemma resolved_sound recurse gs tail out :
  (forall l e, Forall (sound cat) l -> recurse l = Return e -> well_formed cat e) ->
  Forall (sound cat) (flat gs tail) ->
  resolved recurse gs tail = Return out -> Forall (sound cat) out.
Proof.
  intros Hrec H. apply flat_sound in H as [Hgs Htail]. revert out.
  induction Hgs as [|[p inner] gs [Hp Hinner] _ IH]; intros out H;
    cbn [resolved] in H; cbn [fst snd] in *.
  - injection H as <-. exact Htail.
  - destruct inner as [|x inner].
    + apply bind_inv_Return in H as (rest & Hrest & [= <-]).
      apply Forall_app. split; [exact Hp | apply IH, Hrest].
    + apply bind_inv_Return in H as (e & He & H).
      apply bind_inv_Return in H as (rest & Hrest & [= <-]).
      apply Forall_app. split; [exact Hp|].
      constructor; [|apply IH, Hrest].
      intros _. eapply Hrec; [exact Hinner | exact He].
Qed.

Lemma _build_ast_sound budget tokens symbol_table e :
  Forall (sound cat) tokens ->
  _build_ast cat budget tokens symbol_table = Return e -> well_formed cat e.
Proof.
  revert tokens e. induction budget as [|budget IH]; intros tokens e Hsound H;
    [discriminate|].
  rewrite _build_ast_unfold in H.
  apply bind_inv_Return in H as (to_parse & Hres & H).
  apply bind_inv_Return in H as (residual & Hfold & H).
  assert (Hbal : balanced tokens).
  { unfold resolve in Hres. apply bind_inv_Return in Hres as (found & Hscan & _).
    apply balanced_iff_scan. eauto. }
  apply balanced_flat in Hbal as (gs & tail & -> & Hgs & Htail).
  rewrite (proj2 (resolve_flat _ gs tail Hgs Htail)) in Hres.
  apply resolved_sound in Hres; [|intros l e'; apply IH | exact Hsound].
  apply fold_tiers_sound in Hfold; [|auto | exact Hres].
  destruct (end_of_parse_cases residual) as [(e' & -> & He' & Heq)|[_ Heq]];
    rewrite Heq in H; [|discriminate].
  injection H as <-. apply Forall_cons in Hfold as [Hfold _]. apply Hfold, He'.
Qed.

(** X14. The tree that parsing returns is well formed: its leaves are
    literals and identifiers, and every inner node is an instance of the
    class registered for the last operator of a pattern of some tier,
    whose operands are, in number and in type, what that pattern
    asks. *)
Theorem X14_tree_is_well_formed budget input symbol_table e :
  parse cat budget input symbol_table = Return e -> well_formed cat e.
Proof.
  unfold parse. intros H. apply bind_inv_Return in H as (tokens & Htok & H).
  eapply _build_ast_sound; [|exact H].
  destruct (lexer_ends cat input symbol_table)
    as [(tokens' & Htok' & Hlex & _)|Hraise]; [|congruence].
  rewrite Htok in Htok'. injection Htok' as <-.
  eapply Forall_impl; [exact Hlex|]. intros tok [Hl _] He.
  apply well_formed_leaf. destruct tok; try discriminate; reflexivity.
Qed.

End Tree.

(** "A & ! B" with the catalog of the specification. *)
Lemma X14_tree_is_well_formed_witness :
  well_formed spec_catalog
    (Compound And [Identifier "A" ∅; Compound Not [Identifier "B" ∅]]).
Proof.
  apply (X14_tree_is_well_formed spec_catalog 3 "A & ! B" ∅). reflexivity.
Defined.

(** ** Where [MatchError] comes from *)

Section NoMatchError.

Variable cat : Catalog.

Lemma is_match_MatchError n items targets expr_type :
  is_match cat n items targets expr_type = Raise MatchError ->
  expr_type = None
  /\ exists ks node,
       trie_find n ks = Some node /\ is_end node = true
       /\ pattern_operator ks = None.
Proof.
  revert n targets expr_type.
  induction items as [|item items IH]; intros n targets expr_type H.
  - cbn [is_match] in H. destruct (is_end n) eqn:Hend; [|discriminate].
    destruct expr_type; [discriminate|]. split; [reflexivity|].
    exists [], n. auto.
  - cbn [is_match] in H. destruct (is_end n) eqn:Hend.
    { destruct expr_type; [discriminate|]. split; [reflexivity|].
      exists [], n. auto. }
    destruct (item_matcher cat item) as [k|] eqn:Hk; [|discriminate].
    cbn [mbind option_bind] in H.
    destruct (dict_get k (children n)) as [child|] eqn:Hchild; [|discriminate].
    assert (Hplain : is_Expression item = true ->
              is_match cat child items (targets ++ [item]) expr_type
              = Raise MatchError ->
              expr_type = None
              /\ exists ks node,
                   trie_find n ks = Some node /\ is_end node = true
                   /\ pattern_operator ks = None).
    { intros He H'. unfold item_matcher in Hk. rewrite He in Hk.
      injection Hk as <-.
      apply IH in H' as (-> & ks & node & Hfind & Hnode & Hop).
      split; [reflexivity|].
      exists (ExpectType (item_returns cat item) :: ks), node.
      cbn [trie_find pattern_operator]. rewrite Hchild, Hop. auto. }
    destruct item; try (apply Hplain; [reflexivity | exact H]);
      try (unfold item_matcher in Hk; discriminate Hk).
    destruct (TOKEN_TO_CLASS cat !! operator) as [c|]; [|discriminate].
    apply IH in H as [Habs _]. discriminate.
Qed.

Lemma match_from_is_match_Raise trie items i e :
  match_from cat trie items i = Raise e ->
  exists k, is_match cat trie (drop k items) [] None = Raise e.
Proof.
  revert i. induction items as [|item items IH]; intros i H; [discriminate|].
  cbn [match_from] in H.
  destruct (is_match cat trie (item :: items) [] None) as [[[ts cls]|]|e'|] eqn:Hm;
    cbn [bind] in H; try discriminate.
  - apply IH in H as [k Hk]. exists (S k). exact Hk.
  - injection H as <-. exists 0%nat. exact Hm.
Qed.

Lemma _match_no_MatchError tier to_parse :
  (forall cls, cls ∈ tier -> is_Some (pattern_operator (expects cls))) ->
  _match cat to_parse tier = Raise MatchError -> False.
Proof.
  intros Htier H. unfold _match in H.
  apply match_from_is_match_Raise in H as [k H].
  apply is_match_MatchError in H as (_ & ks & node & Hfind & Hnode & Hop).
  assert (Hc : complete (_build_trie tier) ks) by (exists node; auto).
  apply _build_trie_complete in Hc as (cls & Hin & ->).
  apply Htier in Hin as [symbol Hs]. congruence.
Qed.

Lemma fold_tier_no_MatchError tier budget to_parse :
  (forall cls, cls ∈ tier -> is_Some (pattern_operator (expects cls))) ->
  fold_tier cat budget to_parse tier = Raise MatchError -> False.
Proof.
  intros Htier. revert to_parse.
  induction budget as [|budget IH]; intros to_parse H; [discriminate|].
  cbn [fold_tier] in H.
  destruct (_match cat to_parse tier) as [[[[i j] x]|]|e|] eqn:Hm;
    cbn [bind] in H; try discriminate.
  - eapply IH, H.
  - injection H as ->. eapply _match_no_MatchError; eassumption.
Qed.

Lemma fold_tiers_no_MatchError tiers budget to_parse :
  (forall tier cls, tier ∈ tiers -> cls ∈ tier ->
     is_Some (pattern_operator (expects cls))) ->
  fold_tiers cat budget to_parse tiers = Raise MatchError -> False.
Proof.
  revert to_parse. induction tiers as [|tier tiers IH];
    intros to_parse Htiers H; cbn [fold_tiers] in H; [discriminate|].
  destruct (fold_tier cat budget to_parse tier) as [mid|e|] eqn:Hmid;
    cbn [bind] in H; try discriminate.
  - eapply IH; [|exact H]. intros t c Ht. apply Htiers. right. exact Ht.
  - injection H as ->. eapply fold_tier_no_MatchError; [|exact Hmid].
    intros cls. apply Htiers. left.
Qed.

Lemma resolved_Raise recurse gs tail e :
  resolved recurse gs tail = Raise e -> exists l, recurse l = Raise e.
Proof.
  induction gs as [|[p inner] gs IH]; cbn [resolved]; intros H; [discriminate|].
  destruct inner as [|x inner].
  - destruct (resolved recurse gs tail); cbn [bind] in H; try discriminate.
    injection H as ->. apply IH. reflexivity.
  - destruct (recurse (x :: inner)) as [e'|e'|] eqn:He; cbn [bind] in H;
      try discriminate.
    + destruct (resolved recurse gs tail); cbn [bind] in H; try discriminate.
      injection H as ->. apply IH. reflexivity.
    + injection H as ->. eauto.
Qed.

Lemma _build_ast_no_MatchError budget tokens symbol_table :
  tiers_hold_operators cat ->
  _build_ast cat budget tokens symbol_table = Raise MatchError -> False.
Proof.
  intros Hcat. revert tokens.
  induction budget as [|budget IH]; intros tokens H; [discriminate|].
  rewrite _build_ast_unfold in H.
  destruct (_get_subexpressions tokens) as [found|e|] eqn:Hscan.
  - assert (Hbal : balanced tokens) by (apply balanced_iff_scan; eauto).
    apply balanced_flat in Hbal as (gs & tail & -> & Hgs & Htail).
    rewrite (proj2 (resolve_flat _ gs tail Hgs Htail)) in H.
    destruct (resolved _ gs tail) as [to_parse|e|] eqn:Hres; cbn [bind] in H;
      try discriminate.
    + destruct (fold_tiers cat budget to_parse _) as [residual|e|] eqn:Hfold;
        cbn [bind] in H; try discriminate.
      * destruct (end_of_parse_cases residual) as [(e' & _ & _ & Heq)|[_ Heq]];
          rewrite Heq in H; discriminate.
      * injection H as ->. eapply fold_tiers_no_MatchError; [|exact Hfold].
        exact Hcat.
    + injection H as ->. apply resolved_Raise in Hres as [l Hl].
      eapply IH, Hl.
  - unfold resolve in H. rewrite Hscan in H. cbn [bind] in H. injection H as ->.
    apply scan_parentheses_Raise in Hscan as [Habs|Habs]; discriminate.
  - unfold resolve in H. rewrite Hscan in H. discriminate.
Qed.

(** X15. [MatchError] reports a tier pattern without an operator: when
    every pattern of every tier asks for an operator, [_build_ast]
    never raises [MatchError], whatever the token sequence, and neither
    does the parsing of a text. *)
Theorem X15_no_match_error budget tokens input symbol_table :
  tiers_hold_operators cat ->
  _build_ast cat budget tokens symbol_table <> Raise MatchError
  /\ parse cat budget input symbol_table <> Raise MatchError.
Proof.
  intros Hcat. split.
  - intros H. eapply _build_ast_no_MatchError; eassumption.
  - unfold parse. intros H.
    destruct (_tokenize cat input symbol_table) as [toks|e|] eqn:Htok;
      cbn [bind] in H; try discriminate.
    + eapply _build_ast_no_MatchError; eassumption.
    + injection H as ->. apply tokenize_loop_Raise in Htok as [Habs _].
      discriminate.
Qed.

End NoMatchError.

Lemma spec_catalog_tiers_hold_operators : tiers_hold_operators spec_catalog.
Proof.
  intros tier cls Ht Hc. cbn [order_of_operations spec_catalog] in Ht.
  repeat (apply elem_of_cons in Ht as [->|Ht]);
    try (apply list_elem_of_singleton in Hc as ->; eexists; reflexivity).
  inversion Ht.
Qed.

(** "A &" with the catalog of the specification: the operator is left
    over at the end of the parse, which is not a [MatchError]. *)
Lemma X15_no_match_error_witness :
  tiers_hold_operators spec_catalog
  /\ parse spec_catalog 3 "A &" ∅
     = Raise (InvalidExpression [Identifier "A" ∅; Operator "&"])
  /\ (parse spec_catalog 3 "A &" ∅ = Raise MatchError -> False).
Proof.
  split; [exact spec_catalog_tiers_hold_operators|].
  split; [reflexivity|].
  exact (proj2 (X15_no_match_error spec_catalog 3 [] "A &" ∅
                  spec_catalog_tiers_hold_operators)).
Defined.
